(** * The transaction memory pool of [src/txmempool.cpp]

    A shallow embedding of [CTxMemPool] and [CCoinsViewMemPool]: the pool
    is a record of finite maps, every member function is a function on
    that record, and the calls made to the fee estimator are kept in a
    call log.  Pointers into [mapTx] ([const CTransaction*]) are modelled
    by the transaction they point to. *)

From Stdlib Require Import ZArith Lia.
From stdpp Require Import gmap list fin_maps strings sorting.

#[local] Open Scope Z_scope.

(** ** Data model *)

(** [uint256]: transaction ids, nullifiers and anchors. *)
Definition uint256 : Type := N.

(** [CAmount] is [int64_t]; [double] values are kept as their 64-bit
    pattern and only ever combined through a supplied addition. *)
Definition CAmount : Type := Z.
Definition double : Type := Z.

Definition wrap_u32 (z : Z) : Z := z mod 2 ^ 32.
Definition wrap_u64 (z : Z) : Z := z mod 2 ^ 64.
Definition wrap_i64 (z : Z) : Z := (z + 2 ^ 63) mod 2 ^ 64 - 2 ^ 63.

Record COutPoint : Type := mkCOutPoint { op_hash : uint256; op_n : nat }.

#[global] Instance COutPoint_eq_dec : EqDecision COutPoint.
Proof. solve_decision. Defined.

#[global] Instance COutPoint_countable : Countable COutPoint.
Proof.
  apply (inj_countable' (λ o, (op_hash o, op_n o)) (λ p, mkCOutPoint p.1 p.2)).
  by intros [].
Defined.

Record CTxIn : Type := mkCTxIn { prevout : COutPoint }.

Record CTxOut : Type := mkCTxOut { nValue : CAmount; scriptPubKey : list N }.

Record JSDescription : Type := mkJSDescription {
  js_anchor : uint256;
  nullifiers : list uint256;
  commitments : list uint256
}.

Record SpendDescription : Type := mkSpendDescription {
  sd_anchor : uint256;
  nullifier : uint256
}.

(** The part of [CTransaction] this file reads.  [GetHash] is the cached
    content hash; [GetOrchardNullifiers] stands for
    [GetOrchardBundle().GetNullifiers()]. *)
Record CTransaction : Type := mkCTransaction {
  GetHash : uint256;
  vin : list CTxIn;
  vout : list CTxOut;
  vJoinSplit : list JSDescription;
  vShieldedSpend : list SpendDescription;
  GetOrchardNullifiers : list uint256
}.

(** [operator!=] on transactions compares the hashes. *)
Definition tx_ne (a b : CTransaction) : bool :=
  negb (N.eqb (GetHash a) (GetHash b)).

Record CInPoint : Type := mkCInPoint { ptx : CTransaction; in_n : nat }.

(** [ShieldedType]; a C++ enum can carry a value outside its enumerators. *)
Inductive ShieldedType : Type :=
  | SPROUT
  | SAPLING
  | ORCHARD
  | UnknownShieldedType (raw : N).

(** [CTxMemPoolEntry].  The [feeRate] member (class [CFeeRate]) is never
    read in this file and is left out. *)
Record CTxMemPoolEntry : Type := mkCTxMemPoolEntry {
  entry_tx : CTransaction;
  nFee : CAmount;
  nTxSize : Z;
  nModSize : Z;
  nUsageSize : Z;
  nTime : Z;
  dPriority : double;
  nHeight : Z;
  hadNoDependencies : bool;
  spendsCoinbase : bool;
  sigOpCount : Z;
  feeDelta : Z;
  nBranchId : Z
}.

Definition GetTx (e : CTxMemPoolEntry) : CTransaction := entry_tx e.
Definition GetFee (e : CTxMemPoolEntry) : CAmount := nFee e.
Definition GetTxSize (e : CTxMemPoolEntry) : Z := nTxSize e.
Definition DynamicMemoryUsage (e : CTxMemPoolEntry) : Z := nUsageSize e.

(** [CTxMemPoolEntry::UpdateFeeDelta] *)
Definition UpdateFeeDelta (newFeeDelta : Z) (e : CTxMemPoolEntry) : CTxMemPoolEntry :=
  {| entry_tx := entry_tx e; nFee := nFee e; nTxSize := nTxSize e;
     nModSize := nModSize e; nUsageSize := nUsageSize e; nTime := nTime e;
     dPriority := dPriority e; nHeight := nHeight e;
     hadNoDependencies := hadNoDependencies e;
     spendsCoinbase := spendsCoinbase e; sigOpCount := sigOpCount e;
     feeDelta := newFeeDelta; nBranchId := nBranchId e |}.

(** Keys and values of the address and spent-output indexes, with the
    fields their constructors receive in this file. *)
Record CMempoolAddressDeltaKey : Type := mkAddressKey {
  ak_type : N; ak_addressBytes : N; ak_txhash : uint256;
  ak_index : nat; ak_spending : bool
}.

#[global] Instance CMempoolAddressDeltaKey_eq_dec : EqDecision CMempoolAddressDeltaKey.
Proof. solve_decision. Defined.

#[global] Instance CMempoolAddressDeltaKey_countable : Countable CMempoolAddressDeltaKey.
Proof.
  apply (inj_countable'
    (λ k, (ak_type k, ak_addressBytes k, ak_txhash k, ak_index k, ak_spending k))
    (λ t, mkAddressKey t.1.1.1.1 t.1.1.1.2 t.1.1.2 t.1.2 t.2)).
  by intros [].
Defined.

Record CMempoolAddressDelta : Type := mkAddressDelta {
  ad_time : Z; ad_amount : CAmount; ad_prevhash : uint256; ad_prevout : nat
}.

Record CSpentIndexValue : Type := mkSpentValue {
  sv_txid : uint256; sv_inputIndex : nat; sv_blockHeight : Z;
  sv_satoshis : CAmount; sv_addressType : N; sv_addressHash : N
}.

(** The calls the pool makes to [minerPolicyEstimator], in call order. *)
Inductive EstimatorCall : Type :=
  | processTransaction (entry : CTxMemPoolEntry) (fCurrentEstimate : bool)
  | removeTx (hash : uint256)
  | processBlock (nBlockHeight : Z) (entries : list CTxMemPoolEntry)
                 (fCurrentEstimate : bool).

(** Modelled from the spec: [WeightedTxTree] (mempool_limit.h is not part
    of the sources) stores (txid, weight) items; [add] appends an item and
    [remove] takes the item of a txid out. *)
Definition WeightedTxTree : Type := list (uint256 * Z).

Definition WeightedTxTree_add (item : uint256 * Z) (t : WeightedTxTree) : WeightedTxTree :=
  t ++ [item].

Definition WeightedTxTree_remove (txId : uint256) (t : WeightedTxTree) : WeightedTxTree :=
  filter (λ item, item.1 ≠ txId) t.

(** The pool.  [fAddressIndex] and [fSpentIndex] are the process-wide
    flags [remove] reads. *)
Record CTxMemPool : Type := mkCTxMemPool {
  nCheckFrequency : Z;
  nTransactionsUpdated : Z;
  totalTxSize : Z;
  cachedInnerUsage : Z;
  mapTx : gmap uint256 CTxMemPoolEntry;
  mapNextTx : gmap COutPoint CInPoint;
  mapDeltas : gmap uint256 (double * CAmount);
  mapRecentlyAddedTx : gmap uint256 CTransaction;
  nRecentlyAddedSequence : Z;
  mapSproutNullifiers : gmap uint256 CTransaction;
  mapSaplingNullifiers : gmap uint256 CTransaction;
  mapOrchardNullifiers : gmap uint256 CTransaction;
  mapAddress : gmap CMempoolAddressDeltaKey CMempoolAddressDelta;
  mapAddressInserted : gmap uint256 (list CMempoolAddressDeltaKey);
  mapSpent : gmap COutPoint CSpentIndexValue;  (* CSpentIndexKey(txid, n) *)
  mapSpentInserted : gmap uint256 (list COutPoint);
  fAddressIndex : bool;
  fSpentIndex : bool;
  weightedTxTree : WeightedTxTree;
  minerPolicyEstimator : list EstimatorCall
}.

(** ** Erasing keys from the cross maps *)

(** [for (k : keys) m.erase(k);] *)
Definition erase_all `{Countable K} {A} (keys : list K) (m : gmap K A) : gmap K A :=
  foldl (λ acc k, delete k acc) m keys.

Definition sprout_nullifiers (tx : CTransaction) : list uint256 :=
  concat (nullifiers <$> vJoinSplit tx).

Definition sapling_nullifiers (tx : CTransaction) : list uint256 :=
  nullifier <$> vShieldedSpend tx.

Definition prevouts (tx : CTransaction) : list COutPoint :=
  prevout <$> vin tx.

(** ** Insight explorer indexes *)

(** [CTxMemPool::removeAddressIndex]: the two maps after the call. *)
Definition removeAddressIndex (txhash : uint256) (pool : CTxMemPool)
  : gmap CMempoolAddressDeltaKey CMempoolAddressDelta
    * gmap uint256 (list CMempoolAddressDeltaKey) :=
  match mapAddressInserted pool !! txhash with
  | Some keys => (erase_all keys (mapAddress pool), delete txhash (mapAddressInserted pool))
  | None => (mapAddress pool, mapAddressInserted pool)
  end.

(** [CTxMemPool::removeSpentIndex] *)
Definition removeSpentIndex (txhash : uint256) (pool : CTxMemPool)
  : gmap COutPoint CSpentIndexValue * gmap uint256 (list COutPoint) :=
  match mapSpentInserted pool !! txhash with
  | Some keys => (erase_all keys (mapSpent pool), delete txhash (mapSpentInserted pool))
  | None => (mapSpent pool, mapSpentInserted pool)
  end.

(** ** CTxMemPool::remove *)

(** The hashes pushed by
    [for (i = 0; i < nout; i++) { it = mapNextTx.find(COutPoint(hash, i)); ... }]. *)
Definition spenders_of (next : gmap COutPoint CInPoint) (hash : uint256) (nout : nat)
  : list uint256 :=
  omap (λ i, (λ ip, GetHash (ptx ip)) <$> next !! mkCOutPoint hash i) (seq 0 nout).

(** The body of the [while] loop for a [hash] found in [mapTx] with entry
    [e], from [mapRecentlyAddedTx.erase(hash)] to the index clean-up. *)
Definition erase_entry (hash : uint256) (e : CTxMemPoolEntry) (pool : CTxMemPool)
  : CTxMemPool :=
  let tx := GetTx e in
  {| nCheckFrequency := nCheckFrequency pool;
     nTransactionsUpdated := wrap_u32 (nTransactionsUpdated pool + 1);
     totalTxSize := wrap_u64 (totalTxSize pool - GetTxSize e);
     cachedInnerUsage := wrap_u64 (cachedInnerUsage pool - DynamicMemoryUsage e);
     mapTx := delete hash (mapTx pool);
     mapNextTx := erase_all (prevouts tx) (mapNextTx pool);
     mapDeltas := mapDeltas pool;
     mapRecentlyAddedTx := delete hash (mapRecentlyAddedTx pool);
     nRecentlyAddedSequence := nRecentlyAddedSequence pool;
     mapSproutNullifiers := erase_all (sprout_nullifiers tx) (mapSproutNullifiers pool);
     mapSaplingNullifiers := erase_all (sapling_nullifiers tx) (mapSaplingNullifiers pool);
     mapOrchardNullifiers := erase_all (GetOrchardNullifiers tx) (mapOrchardNullifiers pool);
     mapAddress :=
       if fAddressIndex pool then (removeAddressIndex hash pool).1 else mapAddress pool;
     mapAddressInserted :=
       if fAddressIndex pool then (removeAddressIndex hash pool).2
       else mapAddressInserted pool;
     mapSpent :=
       if fSpentIndex pool then (removeSpentIndex hash pool).1 else mapSpent pool;
     mapSpentInserted :=
       if fSpentIndex pool then (removeSpentIndex hash pool).2
       else mapSpentInserted pool;
     fAddressIndex := fAddressIndex pool;
     fSpentIndex := fSpentIndex pool;
     weightedTxTree := weightedTxTree pool;
     minerPolicyEstimator := minerPolicyEstimator pool ++ [removeTx hash] |}.

(** The [while (!txToRemove.empty())] loop.  Every pass either drops a
    hash that is not in the pool or takes an entry out of [mapTx], so the
    loop ends; [fuel] bounds the number of passes and [None] means it was
    too small. *)
Fixpoint remove_loop (fuel : nat) (fRecursive : bool) (txToRemove : list uint256)
    (pool : CTxMemPool) (removed : list CTransaction)
  : option (CTxMemPool * list CTransaction) :=
  match txToRemove with
  | [] => Some (pool, removed)
  | hash :: rest =>
    match fuel with
    | O => None
    | S fuel' =>
      match mapTx pool !! hash with
      | None => remove_loop fuel' fRecursive rest pool removed
      | Some e =>
        let tx := GetTx e in
        let queue :=
          if fRecursive
          then rest ++ spenders_of (mapNextTx pool) hash (length (vout tx))
          else rest in
        remove_loop fuel' fRecursive queue (erase_entry hash e pool) (removed ++ [tx])
      end
    end
  end.

(** Number of passes the loop can still make: one per queued hash now, and
    for each entry its own pass plus one per output. *)
Definition pool_weight (pool : CTxMemPool) : nat :=
  map_fold (λ _ e acc, (S (length (vout (GetTx e))) + acc)%nat) 0%nat (mapTx pool).

Definition remove_fuel (txToRemove : list uint256) (pool : CTxMemPool) : nat :=
  (length txToRemove + pool_weight pool)%nat.

(** [for (CTransaction tx : removed) weightedTxTree->remove(tx.GetHash());] *)
Definition tree_remove_all (removed : list CTransaction) (t : WeightedTxTree)
  : WeightedTxTree :=
  foldl (λ acc tx, WeightedTxTree_remove (GetHash tx) acc) t removed.

Definition set_weightedTxTree (t : WeightedTxTree) (pool : CTxMemPool) : CTxMemPool :=
  {| nCheckFrequency := nCheckFrequency pool;
     nTransactionsUpdated := nTransactionsUpdated pool;
     totalTxSize := totalTxSize pool;
     cachedInnerUsage := cachedInnerUsage pool;
     mapTx := mapTx pool;
     mapNextTx := mapNextTx pool;
     mapDeltas := mapDeltas pool;
     mapRecentlyAddedTx := mapRecentlyAddedTx pool;
     nRecentlyAddedSequence := nRecentlyAddedSequence pool;
     mapSproutNullifiers := mapSproutNullifiers pool;
     mapSaplingNullifiers := mapSaplingNullifiers pool;
     mapOrchardNullifiers := mapOrchardNullifiers pool;
     mapAddress := mapAddress pool;
     mapAddressInserted := mapAddressInserted pool;
     mapSpent := mapSpent pool;
     mapSpentInserted := mapSpentInserted pool;
     fAddressIndex := fAddressIndex pool;
     fSpentIndex := fSpentIndex pool;
     weightedTxTree := t;
     minerPolicyEstimator := minerPolicyEstimator pool |}.

(** The queue [remove] starts from: the hash of [origTx] and, for a
    recursive removal of a transaction that is not in the pool, the pool
    transactions spending its outputs. *)
Definition remove_queue (origTx : CTransaction) (fRecursive : bool) (pool : CTxMemPool)
  : list uint256 :=
  GetHash origTx ::
  (if fRecursive && negb (bool_decide (is_Some (mapTx pool !! GetHash origTx)))
   then spenders_of (mapNextTx pool) (GetHash origTx) (length (vout origTx))
   else []).

(** [CTxMemPool::remove], returning the pool and the [removed] list. *)
Definition remove (origTx : CTransaction) (removed : list CTransaction)
    (fRecursive : bool) (pool : CTxMemPool) : CTxMemPool * list CTransaction :=
  let txToRemove := remove_queue origTx fRecursive pool in
  match remove_loop (remove_fuel txToRemove pool) fRecursive txToRemove pool removed with
  | Some (pool', removed') =>
    (set_weightedTxTree (tree_remove_all removed' (weightedTxTree pool')) pool', removed')
  | None => (pool, removed)
  end.

(** ** Sweeps built on [remove] *)

(** One look-up of [removeConflicts]: [it = map.find(key)], and when the
    row exists and [txConflict != tx], [remove(txConflict, removed, true)]. *)
Definition remove_conflict (txConflict : option CTransaction) (tx : CTransaction)
    (st : CTxMemPool * list CTransaction) : CTxMemPool * list CTransaction :=
  match txConflict with
  | Some c => if tx_ne c tx then remove c st.2 true st.1 else st
  | None => st
  end.

(** [CTxMemPool::removeConflicts] *)
Definition removeConflicts (tx : CTransaction) (removed : list CTransaction)
    (pool : CTxMemPool) : CTxMemPool * list CTransaction :=
  let st := foldl (λ st txin,
              remove_conflict (ptx <$> mapNextTx st.1 !! prevout txin) tx st)
            (pool, removed) (vin tx) in
  let st := foldl (λ st nf, remove_conflict (mapSproutNullifiers st.1 !! nf) tx st)
            st (sprout_nullifiers tx) in
  let st := foldl (λ st nf, remove_conflict (mapSaplingNullifiers st.1 !! nf) tx st)
            st (sapling_nullifiers tx) in
  foldl (λ st nf, remove_conflict (mapOrchardNullifiers st.1 !! nf) tx st)
        st (GetOrchardNullifiers tx).

(** The order in which [mapTx.begin() .. mapTx.end()] visits the entries.
    The source leaves it to the hashed index; the model fixes the order of
    [map_to_list]. *)
Definition mapTx_entries (pool : CTxMemPool) : list CTxMemPoolEntry :=
  (map_to_list (mapTx pool)).*2.

(** [for (tx : transactionsToRemove) { list<CTransaction> removed; remove(tx, removed, true); }] *)
Definition remove_each (transactionsToRemove : list CTransaction) (pool : CTxMemPool)
  : CTxMemPool :=
  foldl (λ p tx, (remove tx [] true p).1) pool transactionsToRemove.

(** How a call ends: normally, by a C++ exception, or in a failed [assert]. *)
Inductive Outcome (A : Type) : Type :=
  | Returns (a : A)
  | Throws (what : string)
  | AssertFails.
Arguments Returns {A} a.
Arguments Throws {A} what.
Arguments AssertFails {A}.

Definition obind {A B} (m : Outcome A) (k : A → Outcome B) : Outcome B :=
  match m with
  | Returns a => k a
  | Throws w => Throws w
  | AssertFails => AssertFails
  end.

#[global] Instance Outcome_bind : MBind Outcome := λ A B k m, obind m k.

Definition assertion (b : bool) : Outcome unit :=
  if b then Returns tt else AssertFails.

(** The [switch (type)] of [removeWithAnchor] for one pool transaction:
    whether it is pushed to [transactionsToRemove]. *)
Definition spends_anchor (invalidRoot : uint256) (type : ShieldedType)
    (tx : CTransaction) : Outcome bool :=
  match type with
  | SPROUT =>
    Returns (existsb (λ joinsplit, N.eqb (js_anchor joinsplit) invalidRoot) (vJoinSplit tx))
  | SAPLING =>
    Returns (existsb (λ sd, N.eqb (sd_anchor sd) invalidRoot) (vShieldedSpend tx))
  | _ => Throws "Unknown shielded type"
  end.

(** The scan loop of [removeWithAnchor]. *)
Fixpoint anchor_scan (invalidRoot : uint256) (type : ShieldedType)
    (entries : list CTxMemPoolEntry) : Outcome (list CTransaction) :=
  match entries with
  | [] => Returns []
  | e :: rest =>
    hit ← spends_anchor invalidRoot type (GetTx e) ;
    more ← anchor_scan invalidRoot type rest;
    Returns (if hit : bool then GetTx e :: more else more)
  end.

(** [CTxMemPool::removeWithAnchor] *)
Definition removeWithAnchor (invalidRoot : uint256) (type : ShieldedType)
    (pool : CTxMemPool) : Outcome CTxMemPool :=
  transactionsToRemove ← anchor_scan invalidRoot type (mapTx_entries pool);
  Returns (remove_each transactionsToRemove pool).

(** [CTxMemPool::removeWithoutBranchId] *)
Definition removeWithoutBranchId (nMemPoolBranchId : Z) (pool : CTxMemPool) : CTxMemPool :=
  remove_each
    (GetTx <$> filter (λ e, nBranchId e ≠ nMemPoolBranchId) (mapTx_entries pool)) pool.

Section Expiry.
(** [IsExpiredTx] comes from main.h. *)
Variable IsExpiredTx : CTransaction → Z → bool.

(** [CTxMemPool::removeExpired]: the pool and the returned [ids]. *)
Definition removeExpired (nBlockHeight : Z) (pool : CTxMemPool)
  : CTxMemPool * list uint256 :=
  let transactionsToRemove :=
    filter (λ tx, IsExpiredTx tx nBlockHeight = true) (GetTx <$> mapTx_entries pool) in
  foldl (λ st tx, ((remove tx [] true st.1).1, st.2 ++ [GetHash tx]))
        (pool, []) transactionsToRemove.
End Expiry.

(** ** Prioritisation *)

Definition set_mapDeltas (d : gmap uint256 (double * CAmount)) (pool : CTxMemPool)
  : CTxMemPool :=
  {| nCheckFrequency := nCheckFrequency pool;
     nTransactionsUpdated := nTransactionsUpdated pool;
     totalTxSize := totalTxSize pool;
     cachedInnerUsage := cachedInnerUsage pool;
     mapTx := mapTx pool;
     mapNextTx := mapNextTx pool;
     mapDeltas := d;
     mapRecentlyAddedTx := mapRecentlyAddedTx pool;
     nRecentlyAddedSequence := nRecentlyAddedSequence pool;
     mapSproutNullifiers := mapSproutNullifiers pool;
     mapSaplingNullifiers := mapSaplingNullifiers pool;
     mapOrchardNullifiers := mapOrchardNullifiers pool;
     mapAddress := mapAddress pool;
     mapAddressInserted := mapAddressInserted pool;
     mapSpent := mapSpent pool;
     mapSpentInserted := mapSpentInserted pool;
     fAddressIndex := fAddressIndex pool;
     fSpentIndex := fSpentIndex pool;
     weightedTxTree := weightedTxTree pool;
     minerPolicyEstimator := minerPolicyEstimator pool |}.

Definition set_mapTx (m : gmap uint256 CTxMemPoolEntry) (pool : CTxMemPool) : CTxMemPool :=
  {| nCheckFrequency := nCheckFrequency pool;
     nTransactionsUpdated := nTransactionsUpdated pool;
     totalTxSize := totalTxSize pool;
     cachedInnerUsage := cachedInnerUsage pool;
     mapTx := m;
     mapNextTx := mapNextTx pool;
     mapDeltas := mapDeltas pool;
     mapRecentlyAddedTx := mapRecentlyAddedTx pool;
     nRecentlyAddedSequence := nRecentlyAddedSequence pool;
     mapSproutNullifiers := mapSproutNullifiers pool;
     mapSaplingNullifiers := mapSaplingNullifiers pool;
     mapOrchardNullifiers := mapOrchardNullifiers pool;
     mapAddress := mapAddress pool;
     mapAddressInserted := mapAddressInserted pool;
     mapSpent := mapSpent pool;
     mapSpentInserted := mapSpentInserted pool;
     fAddressIndex := fAddressIndex pool;
     fSpentIndex := fSpentIndex pool;
     weightedTxTree := weightedTxTree pool;
     minerPolicyEstimator := minerPolicyEstimator pool |}.

(** [mapTx.modify(it, update_fee_delta(d))] for the entry of [hash]. *)
Definition modify_fee_delta (hash : uint256) (d : Z) (pool : CTxMemPool) : CTxMemPool :=
  set_mapTx (alter (UpdateFeeDelta d) hash (mapTx pool)) pool.

Section Prioritise.
(** Addition of [double]s. *)
Variable double_add : double → double → double.

(** [CTxMemPool::PrioritiseTransaction]; [mapDeltas[hash]] creates the row
    (0.0, 0) when there is none. *)
Definition PrioritiseTransaction (hash : uint256) (dPriorityDelta : double)
    (nFeeDelta : CAmount) (pool : CTxMemPool) : CTxMemPool :=
  let old := default (0, 0) (mapDeltas pool !! hash) in
  let deltas := (double_add old.1 dPriorityDelta, wrap_i64 (old.2 + nFeeDelta)) in
  let pool := set_mapDeltas (<[hash := deltas]> (mapDeltas pool)) pool in
  match mapTx pool !! hash with
  | Some _ => modify_fee_delta hash deltas.2 pool
  | None => pool
  end.
End Prioritise.

(** [CTxMemPool::ClearPrioritisation] *)
Definition ClearPrioritisation (hash : uint256) (pool : CTxMemPool) : CTxMemPool :=
  set_mapDeltas (delete hash (mapDeltas pool)) pool.

(** ** CTxMemPool::addUnchecked *)

(** [for (k : keys) m[k] = v(k);] with the position of [k] passed along. *)
Definition assign_all `{Countable K} {A} (keys : list K) (v : nat → K → A) (m : gmap K A)
  : gmap K A :=
  foldl (λ acc ik, <[ik.2 := v ik.1 ik.2]> acc) m (zip (seq 0 (length keys)) keys).

Section AddUnchecked.
(** The weight [WeightedTxInfo::from(tx, fee)] gives a transaction. *)
Variable tx_weight : CTransaction → CAmount → Z.

(** [mapTx.insert(entry)] leaves the map alone when the txid is taken, and
    [newit] is the entry found under the txid afterwards.  The deltas are
    looked up under the [hash] argument. *)
Definition addUnchecked (hash : uint256) (entry : CTxMemPoolEntry)
    (fCurrentEstimate : bool) (pool : CTxMemPool) : CTxMemPool * bool :=
  let txid := GetHash (GetTx entry) in
  let newit := default entry (mapTx pool !! txid) in
  let tx := GetTx newit in
  let inserted :=
    match mapTx pool !! txid with
    | Some _ => mapTx pool
    | None => <[txid := entry]> (mapTx pool)
    end in
  let modified :=
    match mapDeltas pool !! hash with
    | Some deltas =>
      if bool_decide (deltas.2 ≠ 0)
      then alter (UpdateFeeDelta deltas.2) txid inserted
      else inserted
    | None => inserted
    end in
  ({| nCheckFrequency := nCheckFrequency pool;
      nTransactionsUpdated := wrap_u32 (nTransactionsUpdated pool + 1);
      totalTxSize := wrap_u64 (totalTxSize pool + GetTxSize entry);
      cachedInnerUsage := wrap_u64 (cachedInnerUsage pool + DynamicMemoryUsage entry);
      mapTx := modified;
      mapNextTx :=
        assign_all (prevouts tx) (λ i _, mkCInPoint tx i) (mapNextTx pool);
      mapDeltas := mapDeltas pool;
      mapRecentlyAddedTx := <[GetHash tx := tx]> (mapRecentlyAddedTx pool);
      nRecentlyAddedSequence := wrap_u64 (nRecentlyAddedSequence pool + 1);
      mapSproutNullifiers :=
        assign_all (sprout_nullifiers tx) (λ _ _, tx) (mapSproutNullifiers pool);
      mapSaplingNullifiers :=
        assign_all (sapling_nullifiers tx) (λ _ _, tx) (mapSaplingNullifiers pool);
      mapOrchardNullifiers :=
        assign_all (GetOrchardNullifiers tx) (λ _ _, tx) (mapOrchardNullifiers pool);
      mapAddress := mapAddress pool;
      mapAddressInserted := mapAddressInserted pool;
      mapSpent := mapSpent pool;
      mapSpentInserted := mapSpentInserted pool;
      fAddressIndex := fAddressIndex pool;
      fSpentIndex := fSpentIndex pool;
      weightedTxTree :=
        WeightedTxTree_add (GetHash (GetTx entry), tx_weight (GetTx entry) (GetFee entry))
                           (weightedTxTree pool);
      minerPolicyEstimator :=
        minerPolicyEstimator pool ++ [processTransaction entry fCurrentEstimate] |},
   true).
End AddUnchecked.

(** ** CTxMemPool::_clear and clear *)

Definition _clear (pool : CTxMemPool) : CTxMemPool :=
  {| nCheckFrequency := nCheckFrequency pool;
     nTransactionsUpdated := wrap_u32 (nTransactionsUpdated pool + 1);
     totalTxSize := 0;
     cachedInnerUsage := 0;
     mapTx := ∅;
     mapNextTx := ∅;
     mapDeltas := mapDeltas pool;
     mapRecentlyAddedTx := mapRecentlyAddedTx pool;
     nRecentlyAddedSequence := nRecentlyAddedSequence pool;
     mapSproutNullifiers := mapSproutNullifiers pool;
     mapSaplingNullifiers := mapSaplingNullifiers pool;
     mapOrchardNullifiers := mapOrchardNullifiers pool;
     mapAddress := mapAddress pool;
     mapAddressInserted := mapAddressInserted pool;
     mapSpent := mapSpent pool;
     mapSpentInserted := mapSpentInserted pool;
     fAddressIndex := fAddressIndex pool;
     fSpentIndex := fSpentIndex pool;
     weightedTxTree := weightedTxTree pool;
     minerPolicyEstimator := minerPolicyEstimator pool |}.

Definition clear (pool : CTxMemPool) : CTxMemPool := _clear pool.

(** ** CTxMemPool::removeForBlock *)

Definition estimator_call (c : EstimatorCall) (pool : CTxMemPool) : CTxMemPool :=
  {| nCheckFrequency := nCheckFrequency pool;
     nTransactionsUpdated := nTransactionsUpdated pool;
     totalTxSize := totalTxSize pool;
     cachedInnerUsage := cachedInnerUsage pool;
     mapTx := mapTx pool;
     mapNextTx := mapNextTx pool;
     mapDeltas := mapDeltas pool;
     mapRecentlyAddedTx := mapRecentlyAddedTx pool;
     nRecentlyAddedSequence := nRecentlyAddedSequence pool;
     mapSproutNullifiers := mapSproutNullifiers pool;
     mapSaplingNullifiers := mapSaplingNullifiers pool;
     mapOrchardNullifiers := mapOrchardNullifiers pool;
     mapAddress := mapAddress pool;
     mapAddressInserted := mapAddressInserted pool;
     mapSpent := mapSpent pool;
     mapSpentInserted := mapSpentInserted pool;
     fAddressIndex := fAddressIndex pool;
     fSpentIndex := fSpentIndex pool;
     weightedTxTree := weightedTxTree pool;
     minerPolicyEstimator := minerPolicyEstimator pool ++ [c] |}.

(** The first loop: [entries.push_back( *i )] for the transactions of [vtx]
    found in [mapTx]. *)
Definition block_entries (vtx : list CTransaction) (pool : CTxMemPool)
  : list CTxMemPoolEntry :=
  omap (λ tx, mapTx pool !! GetHash tx) vtx.

(** The body of the second loop. *)
Definition remove_block_tx (tx : CTransaction) (st : CTxMemPool * list CTransaction)
  : CTxMemPool * list CTransaction :=
  let dummy : list CTransaction := [] in
  let pool := (remove tx dummy false st.1).1 in
  let st' := removeConflicts tx st.2 pool in
  (ClearPrioritisation (GetHash tx) st'.1, st'.2).

(** [CTxMemPool::removeForBlock]: the pool and the [conflicts] list. *)
Definition removeForBlock (vtx : list CTransaction) (nBlockHeight : Z)
    (conflicts : list CTransaction) (fCurrentEstimate : bool) (pool : CTxMemPool)
  : CTxMemPool * list CTransaction :=
  let entries := block_entries vtx pool in
  let st := foldl (λ st tx, remove_block_tx tx st) (pool, conflicts) vtx in
  (estimator_call (processBlock nBlockHeight entries fCurrentEstimate) st.1, st.2).

(** ** Queries *)

(** [CTxMemPool::exists] (txmempool.h): [mapTx.count(hash) != 0]. *)
Definition exists_ (hash : uint256) (pool : CTxMemPool) : bool :=
  bool_decide (is_Some (mapTx pool !! hash)).

(** [CTxMemPool::get]; [None] is the null pointer. *)
Definition get (hash : uint256) (pool : CTxMemPool) : option CTransaction :=
  match mapTx pool !! hash with
  | None => None
  | Some i => Some (GetTx i)
  end.

Section Score.
(** [CompareTxMemPoolEntryByScore] is declared in txmempool.h. *)
Variable CompareTxMemPoolEntryByScore : CTxMemPoolEntry → CTxMemPoolEntry → bool.

(** [CTxMemPool::CompareDepthAndScore] *)
Definition CompareDepthAndScore (hasha hashb : uint256) (pool : CTxMemPool) : bool :=
  match mapTx pool !! hasha with
  | None => false
  | Some i =>
    match mapTx pool !! hashb with
    | None => true
    | Some j => CompareTxMemPoolEntryByScore i j
    end
  end.
End Score.

(** [CTxMemPool::nullifierExists] *)
Definition nullifierExists (nf : uint256) (type : ShieldedType) (pool : CTxMemPool)
  : Outcome bool :=
  match type with
  | SPROUT => Returns (bool_decide (is_Some (mapSproutNullifiers pool !! nf)))
  | SAPLING => Returns (bool_decide (is_Some (mapSaplingNullifiers pool !! nf)))
  | ORCHARD => Returns (bool_decide (is_Some (mapOrchardNullifiers pool !! nf)))
  | UnknownShieldedType _ => Throws "Unknown nullifier type"
  end.

(** ** CCoinsViewMemPool *)

Section CoinsView.
(** [CCoins] (coins.h): its constructor from a transaction and a height,
    [IsPruned], and the sentinel height. *)
Variable CCoins : Type.
Variable CCoins_of : CTransaction → Z → CCoins.
Variable IsPruned : CCoins → bool.
Variable MEMPOOL_HEIGHT : Z.

(** [base->GetCoins(txid, coins)]: the result and what it leaves in the
    [coins] argument. *)
Variable base_GetCoins : uint256 → CCoins → bool * CCoins.

(** [CCoinsViewMemPool::GetCoins]: the result and the [coins] argument
    after the call. *)
Definition GetCoins (mempool : CTxMemPool) (txid : uint256) (coins : CCoins)
  : bool * CCoins :=
  match get txid mempool with
  | Some tx => (true, CCoins_of tx MEMPOOL_HEIGHT)
  | None =>
    let r := base_GetCoins txid coins in
    (r.1 && negb (IsPruned r.2), r.2)
  end.
End CoinsView.

(** ** The consistency checker *)

#[global] Instance CTxIn_eq_dec : EqDecision CTxIn.
Proof. solve_decision. Defined.
#[global] Instance CTxOut_eq_dec : EqDecision CTxOut.
Proof. solve_decision. Defined.
#[global] Instance JSDescription_eq_dec : EqDecision JSDescription.
Proof. solve_decision. Defined.
#[global] Instance SpendDescription_eq_dec : EqDecision SpendDescription.
Proof. solve_decision. Defined.
#[global] Instance CTransaction_eq_dec : EqDecision CTransaction.
Proof. solve_decision. Defined.

(** The two [assert]s [checkNullifiers] makes for one row: the transaction
    the row points to is found in [mapTx] under its hash, and is that
    entry's transaction. *)
Definition nullifier_row_ok (pool : CTxMemPool) (row : uint256 * CTransaction) : bool :=
  match mapTx pool !! GetHash row.2 with
  | Some findTx => bool_decide (GetTx findTx = row.2)
  | None => false
  end.

(** [CTxMemPool::checkNullifiers] *)
Definition checkNullifiers (type : ShieldedType) (pool : CTxMemPool) : Outcome unit :=
  mapToUse ←
    match type with
    | SPROUT => Returns (mapSproutNullifiers pool)
    | SAPLING => Returns (mapSaplingNullifiers pool)
    | ORCHARD => Returns (mapOrchardNullifiers pool)
    | UnknownShieldedType _ => Throws "Unknown nullifier type"
    end;
  assertion (forallb (nullifier_row_ok pool) (map_to_list mapToUse)).

(** The [assert]s of the loop over [mapNextTx], for one row. *)
Definition next_row_ok (pool : CTxMemPool) (row : COutPoint * CInPoint) : bool :=
  match mapTx pool !! GetHash (ptx row.2) with
  | Some it2 =>
    bool_decide (GetTx it2 = ptx row.2)
    && bool_decide (in_n row.2 < length (vin (ptx row.2)))%nat
    && bool_decide (prevout <$> vin (ptx row.2) !! in_n row.2 = Some row.1)
  | None => false
  end.

Section Checker.
(** What [check] uses of the coin view it is handed, of its private
    replica [mempoolDuplicate], and of the consensus code. *)
Variable CCoinsViewCache : Type.
Variable SproutMerkleTree : Type.
Variable coins_IsAvailable : CCoinsViewCache → uint256 → nat → bool.
Variable GetNullifier : CCoinsViewCache → uint256 → ShieldedType → bool.
Variable GetSproutAnchorAt : CCoinsViewCache → uint256 → option SproutMerkleTree.
Variable GetSaplingAnchorAt : CCoinsViewCache → uint256 → bool.
Variable tree_append : uint256 → SproutMerkleTree → SproutMerkleTree.
Variable tree_root : SproutMerkleTree → uint256.
Variable HaveInputs : CCoinsViewCache → CTransaction → bool.
Variable CheckTxInputs : CCoinsViewCache → CTransaction → bool.
Variable UpdateCoins : CTransaction → CCoinsViewCache → CCoinsViewCache.
Variable IsCoinBase : CTransaction → bool.
Variable CTxOut_IsNull : CTxOut → bool.

(** One transparent input, at position [i]: the [assert]s, and whether
    its parent is in the pool. *)
Definition check_input (pcoins : CCoinsViewCache) (pool : CTxMemPool)
    (tx : CTransaction) (i : nat) (txin : CTxIn) : Outcome bool :=
  fromPool ←
    match mapTx pool !! op_hash (prevout txin) with
    | Some it2 =>
      assertion (match vout (GetTx it2) !! op_n (prevout txin) with
                 | Some out => negb (CTxOut_IsNull out)
                 | None => false
                 end);;
      Returns true
    | None =>
      assertion (coins_IsAvailable pcoins (op_hash (prevout txin)) (op_n (prevout txin)));;
      Returns false
    end;
  assertion (match mapNextTx pool !! prevout txin with
             | Some it3 => bool_decide (ptx it3 = tx) && bool_decide (in_n it3 = i)
             | None => false
             end);;
  Returns fromPool.

Fixpoint check_inputs (pcoins : CCoinsViewCache) (pool : CTxMemPool)
    (tx : CTransaction) (i : nat) (ins : list CTxIn) (fDependsWait : bool)
  : Outcome bool :=
  match ins with
  | [] => Returns fDependsWait
  | txin :: rest =>
    fromPool ← check_input pcoins pool tx i txin;
    check_inputs pcoins pool tx (S i) rest (fDependsWait || fromPool)
  end.

(** The joinsplits of one transaction; [intermediates.insert] keeps an
    existing row. *)
Fixpoint check_joinsplits (pcoins : CCoinsViewCache)
    (intermediates : gmap uint256 SproutMerkleTree) (js : list JSDescription)
  : Outcome unit :=
  match js with
  | [] => Returns tt
  | joinsplit :: rest =>
    assertion (forallb (λ nf, negb (GetNullifier pcoins nf SPROUT)) (nullifiers joinsplit));;
    tree ←
      match intermediates !! js_anchor joinsplit with
      | Some t => Returns t
      | None =>
        match GetSproutAnchorAt pcoins (js_anchor joinsplit) with
        | Some t => Returns t
        | None => AssertFails
        end
      end;
    let tree := foldl (λ t c, tree_append c t) tree (commitments joinsplit) in
    let intermediates :=
      match intermediates !! tree_root tree with
      | Some _ => intermediates
      | None => <[tree_root tree := tree]> intermediates
      end in
    check_joinsplits pcoins intermediates rest
  end.

Fixpoint check_spends (pcoins : CCoinsViewCache) (sds : list SpendDescription)
  : Outcome unit :=
  match sds with
  | [] => Returns tt
  | sd :: rest =>
    assertion (GetSaplingAnchorAt pcoins (sd_anchor sd));;
    assertion (negb (GetNullifier pcoins (nullifier sd) SAPLING));;
    check_spends pcoins rest
  end.

(** [CheckTxInputs] then [UpdateCoins] on the replica. *)
Definition connect_tx (tx : CTransaction) (mempoolDuplicate : CCoinsViewCache)
  : Outcome CCoinsViewCache :=
  assertion (IsCoinBase tx || CheckTxInputs mempoolDuplicate tx);;
  Returns (UpdateCoins tx mempoolDuplicate).

(** The loop over [mapTx]: the sums, the replica and the waiting list. *)
Fixpoint check_entries (pcoins : CCoinsViewCache) (pool : CTxMemPool)
    (entries : list CTxMemPoolEntry)
    (acc : Z * Z * CCoinsViewCache * list CTxMemPoolEntry)
  : Outcome (Z * Z * CCoinsViewCache * list CTxMemPoolEntry) :=
  match entries with
  | [] => Returns acc
  | it :: rest =>
    let '(checkTotal, innerUsage, mempoolDuplicate, waitingOnDependants) := acc in
    let checkTotal := wrap_u64 (checkTotal + GetTxSize it) in
    let innerUsage := wrap_u64 (innerUsage + DynamicMemoryUsage it) in
    let tx := GetTx it in
    fDependsWait ← check_inputs pcoins pool tx 0 (vin tx) false;
    check_joinsplits pcoins ∅ (vJoinSplit tx);;
    check_spends pcoins (vShieldedSpend tx);;
    if fDependsWait : bool
    then check_entries pcoins pool rest
           (checkTotal, innerUsage, mempoolDuplicate, waitingOnDependants ++ [it])
    else
      mempoolDuplicate ← connect_tx tx mempoolDuplicate;
      check_entries pcoins pool rest
        (checkTotal, innerUsage, mempoolDuplicate, waitingOnDependants)
  end.

(** The [while (!waitingOnDependants.empty())] loop; [None] when [fuel]
    passes were not enough. *)
Fixpoint check_waiting (fuel : nat) (waitingOnDependants : list CTxMemPoolEntry)
    (stepsSinceLastRemove : nat) (mempoolDuplicate : CCoinsViewCache)
  : option (Outcome unit) :=
  match waitingOnDependants with
  | [] => Some (Returns tt)
  | entry :: rest =>
    match fuel with
    | O => None
    | S fuel' =>
      if HaveInputs mempoolDuplicate (GetTx entry)
      then
        match connect_tx (GetTx entry) mempoolDuplicate with
        | Returns dup => check_waiting fuel' rest 0 dup
        | Throws w => Some (Throws w)
        | AssertFails => Some AssertFails
        end
      else
        if bool_decide (S stepsSinceLastRemove < length (rest ++ [entry]))%nat
        then check_waiting fuel' (rest ++ [entry]) (S stepsSinceLastRemove)
               mempoolDuplicate
        else Some AssertFails
    end
  end.

(** [CTxMemPool::check].  [rand] is the value [GetRand] returns.  Between
    two removals the waiting loop makes fewer passes than the list is
    long, so the square of its length bounds the passes. *)
Definition check (rand : Z) (pcoins : CCoinsViewCache) (pool : CTxMemPool)
  : option (Outcome unit) :=
  if bool_decide (nCheckFrequency pool = 0) then Some (Returns tt)
  else if bool_decide (rand >= nCheckFrequency pool) then Some (Returns tt)
  else
    match check_entries pcoins pool (mapTx_entries pool) (0, 0, pcoins, []) with
    | Returns (checkTotal, innerUsage, mempoolDuplicate, waitingOnDependants) =>
      let n := S (length waitingOnDependants) in
      match check_waiting (n * n) waitingOnDependants 0 mempoolDuplicate with
      | Some (Returns _) =>
        Some (
          assertion (forallb (next_row_ok pool) (map_to_list (mapNextTx pool)));;
          checkNullifiers SPROUT pool;;
          checkNullifiers SAPLING pool;;
          assertion (bool_decide (totalTxSize pool = checkTotal));;
          assertion (bool_decide (innerUsage = cachedInnerUsage pool)))
      | other => other
      end
    | Throws w => Some (Throws w)
    | AssertFails => Some AssertFails
    end.
End Checker.

(** ** Construction *)

Section EntryConstructor.
(** [GetSerializeSize], [CTransaction::CalculateModifiedSize] and the two
    memory usage functions come from other files. *)
Variable GetSerializeSize : CTransaction → Z.
Variable CalculateModifiedSize : CTransaction → Z → Z.
Variable RecursiveDynamicUsage : CTransaction → Z.
Variable DynamicUsage : CTransaction → Z.

(** [CTxMemPoolEntry::CTxMemPoolEntry(tx, nFee, nTime, dPriority, nHeight,
    poolHasNoInputsOf, spendsCoinbase, sigOps, nBranchId)] *)
Definition CTxMemPoolEntry_new (_tx : CTransaction) (_nFee : CAmount) (_nTime : Z)
    (_dPriority : double) (_nHeight : Z) (poolHasNoInputsOf _spendsCoinbase : bool)
    (_sigOps : Z) (_nBranchId : Z) : CTxMemPoolEntry :=
  let nTxSize := GetSerializeSize _tx in
  {| entry_tx := _tx; nFee := _nFee; nTxSize := nTxSize;
     nModSize := CalculateModifiedSize _tx nTxSize;
     nUsageSize := RecursiveDynamicUsage _tx + DynamicUsage _tx;
     nTime := _nTime; dPriority := _dPriority; nHeight := _nHeight;
     hadNoDependencies := poolHasNoInputsOf; spendsCoinbase := _spendsCoinbase;
     sigOpCount := _sigOps; feeDelta := 0; nBranchId := _nBranchId |}.
End EntryConstructor.

(** Modelled from the spec: the effective fee [fee + fee_delta] from which
    the ranking score is computed ([GetModifiedFee] and the comparator are
    declared in txmempool.h, which is not part of the sources). *)
Definition GetModifiedFee (e : CTxMemPoolEntry) : CAmount := nFee e + feeDelta e.

(** Assignment to [nCheckFrequency] (what [setSanityCheck] of txmempool.h
    does). *)
Definition set_nCheckFrequency (freq : Z) (pool : CTxMemPool) : CTxMemPool :=
  {| nCheckFrequency := freq;
     nTransactionsUpdated := nTransactionsUpdated pool;
     totalTxSize := totalTxSize pool;
     cachedInnerUsage := cachedInnerUsage pool;
     mapTx := mapTx pool;
     mapNextTx := mapNextTx pool;
     mapDeltas := mapDeltas pool;
     mapRecentlyAddedTx := mapRecentlyAddedTx pool;
     nRecentlyAddedSequence := nRecentlyAddedSequence pool;
     mapSproutNullifiers := mapSproutNullifiers pool;
     mapSaplingNullifiers := mapSaplingNullifiers pool;
     mapOrchardNullifiers := mapOrchardNullifiers pool;
     mapAddress := mapAddress pool;
     mapAddressInserted := mapAddressInserted pool;
     mapSpent := mapSpent pool;
     mapSpentInserted := mapSpentInserted pool;
     fAddressIndex := fAddressIndex pool;
     fSpentIndex := fSpentIndex pool;
     weightedTxTree := weightedTxTree pool;
     minerPolicyEstimator := minerPolicyEstimator pool |}.

(** ** Agreement of the cross maps with [mapTx] *)

Section IndexDefs.
Context `{Countable K} {V : Type}.
Variable owner : V → CTransaction.
Variable keys : CTransaction → list K.
Implicit Types (txs : gmap uint256 CTxMemPoolEntry) (m : gmap K V).

(** Every key of every entry has a row that points to the entry's
    transaction. *)
Definition index_covers txs m : Prop :=
  ∀ h e k, txs !! h = Some e → k ∈ keys (GetTx e) →
    owner <$> m !! k = Some (GetTx e).

(** Every row points to the transaction of an entry, which has the key. *)
Definition index_sound txs m : Prop :=
  ∀ k v, m !! k = Some v →
    ∃ e, txs !! GetHash (owner v) = Some e ∧ GetTx e = owner v ∧ k ∈ keys (owner v).

Definition keyed_by_hash txs : Prop :=
  ∀ h e, txs !! h = Some e → GetHash (GetTx e) = h.

(** The same two properties, as checks that can be run on a given pool. *)
Definition index_covers_check (txs : gmap uint256 CTxMemPoolEntry) (m : gmap K V) : bool :=
  bool_decide (map_Forall (λ _ e,
    Forall (λ k, owner <$> m !! k = Some (GetTx e)) (keys (GetTx e))) txs).

Definition index_sound_check (txs : gmap uint256 CTxMemPoolEntry) (m : gmap K V) : bool :=
  bool_decide (map_Forall (λ k v,
    GetTx <$> txs !! GetHash (owner v) = Some (owner v) ∧ k ∈ keys (owner v)) m).
End IndexDefs.

(** The pool's cross maps agree with its entries (invariants 1 to 3 of the
    data model, in the form the removal protocol relies on). *)
Record pool_indexed (pool : CTxMemPool) : Prop := {
  idx_keyed : keyed_by_hash (mapTx pool);
  idx_next_covers : index_covers ptx prevouts (mapTx pool) (mapNextTx pool);
  idx_next_sound : index_sound ptx prevouts (mapTx pool) (mapNextTx pool);
  idx_sprout_covers :
    index_covers id sprout_nullifiers (mapTx pool) (mapSproutNullifiers pool);
  idx_sprout_sound :
    index_sound id sprout_nullifiers (mapTx pool) (mapSproutNullifiers pool);
  idx_sapling_covers :
    index_covers id sapling_nullifiers (mapTx pool) (mapSaplingNullifiers pool);
  idx_sapling_sound :
    index_sound id sapling_nullifiers (mapTx pool) (mapSaplingNullifiers pool);
  idx_orchard_covers :
    index_covers id GetOrchardNullifiers (mapTx pool) (mapOrchardNullifiers pool);
  idx_orchard_sound :
    index_sound id GetOrchardNullifiers (mapTx pool) (mapOrchardNullifiers pool)
}.

(** A later pool holds no entry and no row the earlier one did not. *)
Record pool_shrinks (pool pool' : CTxMemPool) : Prop := {
  shr_tx : mapTx pool' ⊆ mapTx pool;
  shr_next : mapNextTx pool' ⊆ mapNextTx pool;
  shr_sprout : mapSproutNullifiers pool' ⊆ mapSproutNullifiers pool;
  shr_sapling : mapSaplingNullifiers pool' ⊆ mapSaplingNullifiers pool;
  shr_orchard : mapOrchardNullifiers pool' ⊆ mapOrchardNullifiers pool
}.

(** [pool_indexed], as a check that can be run. *)
Definition pool_indexed_check (pool : CTxMemPool) : bool :=
  bool_decide (map_Forall (λ h e, GetHash (GetTx e) = h) (mapTx pool))
  && index_covers_check ptx prevouts (mapTx pool) (mapNextTx pool)
  && index_sound_check ptx prevouts (mapTx pool) (mapNextTx pool)
  && index_covers_check id sprout_nullifiers (mapTx pool) (mapSproutNullifiers pool)
  && index_sound_check id sprout_nullifiers (mapTx pool) (mapSproutNullifiers pool)
  && index_covers_check id sapling_nullifiers (mapTx pool) (mapSaplingNullifiers pool)
  && index_sound_check id sapling_nullifiers (mapTx pool) (mapSaplingNullifiers pool)
  && index_covers_check id GetOrchardNullifiers (mapTx pool) (mapOrchardNullifiers pool)
  && index_sound_check id GetOrchardNullifiers (mapTx pool) (mapOrchardNullifiers pool).

(** ** Conflicts and descendants *)

(** Two transactions overlap: they share a transparent input or a sprout,
    sapling or orchard nullifier. *)
Definition overlaps (a b : CTransaction) : Prop :=
  (∃ op, op ∈ prevouts a ∧ op ∈ prevouts b)
  ∨ (∃ nf, nf ∈ sprout_nullifiers a ∧ nf ∈ sprout_nullifiers b)
  ∨ (∃ nf, nf ∈ sapling_nullifiers a ∧ nf ∈ sapling_nullifiers b)
  ∨ (∃ nf, nf ∈ GetOrchardNullifiers a ∧ nf ∈ GetOrchardNullifiers b).

(** [child] is a pool transaction spending an output of the pool entry
    [parent], as [mapNextTx] records it. *)
Definition spends_from (pool : CTxMemPool) (parent child : uint256) : Prop :=
  ∃ e i ip, mapTx pool !! parent = Some e
    ∧ (i < length (vout (GetTx e)))%nat
    ∧ mapNextTx pool !! mkCOutPoint parent i = Some ip
    ∧ GetHash (ptx ip) = child.

(** [h] is [root] or one of its descendants in the pool. *)
Definition descends (pool : CTxMemPool) (root h : uint256) : Prop :=
  rtc (spends_from pool) root h.

(** A pool entry other than [tx] that overlaps [tx]. *)
Definition conflicts_with (pool : CTxMemPool) (tx : CTransaction) (c : uint256) : Prop :=
  ∃ e, mapTx pool !! c = Some e ∧ c ≠ GetHash tx ∧ overlaps (GetTx e) tx.

Section ConflictDefs.
(** One of the four look-up loops of [removeConflicts]: the map it reads,
    the transaction a row points to, and the keys a transaction has in
    that map. *)
Context `{Countable K} {V : Type}.
Variable getm : CTxMemPool → gmap K V.
Variable owner : V → CTransaction.
Variable tx : CTransaction.
Variable pool : CTxMemPool.

Definition conflict_step (st : CTxMemPool * list CTransaction) (k : K)
  : CTxMemPool * list CTransaction :=
  remove_conflict (owner <$> getm st.1 !! k) tx st.

(** What holds between the look-ups: the cross maps agree, nothing was
    added, and everything taken out descends from a conflict. *)
Definition conflict_inv (p : CTxMemPool) : Prop :=
  pool_indexed p ∧ pool_shrinks pool p
  ∧ ∀ h, is_Some (mapTx pool !! h) → mapTx p !! h = None →
      ∃ c, conflicts_with pool tx c ∧ descends pool c h.

(** The rows left under the keys [ks] point to [tx] itself. *)
Definition rows_own (ks : list K) (p : CTxMemPool) : Prop :=
  ∀ k v, k ∈ ks → getm p !! k = Some v → GetHash (owner v) = GetHash tx.
End ConflictDefs.

(** Between two pools the estimator was only told of removals. *)
Definition only_removeTx (pool pool' : CTxMemPool) : Prop :=
  ∃ calls, minerPolicyEstimator pool' = minerPolicyEstimator pool ++ calls
    ∧ Forall (λ c, ∃ hash, c = removeTx hash) calls.

(** ** Example pools *)

(** [CTxMemPool::CTxMemPool]: empty maps, then [_clear()]. *)
Definition CTxMemPool_new : CTxMemPool :=
  _clear (mkCTxMemPool 0 0 0 0 ∅ ∅ ∅ ∅ 0 ∅ ∅ ∅ ∅ ∅ ∅ ∅ false false [] []).

Definition ex_weight (tx : CTransaction) (fee : CAmount) : Z := 4000.

Definition ex_entry (tx : CTransaction) (fee : CAmount) : CTxMemPoolEntry :=
  CTxMemPoolEntry_new (λ _, 200) (λ _ size, size) (λ _, 400) (λ _, 200)
                      tx fee 1600000000 0 10 true false 1 1.

(** [ex_a] spends a confirmed output; [ex_b] spends output 0 of [ex_a] and
    reveals the sprout nullifier 55; [ex_c] reveals the orchard nullifier
    77; [ex_a'] spends the same confirmed output as [ex_a]. *)
Definition ex_a : CTransaction :=
  mkCTransaction 1%N [mkCTxIn (mkCOutPoint 100%N 0%nat)] [mkCTxOut 10 []] [] [] [].
Definition ex_b : CTransaction :=
  mkCTransaction 2%N [mkCTxIn (mkCOutPoint 1%N 0%nat)] [mkCTxOut 9 []]
                 [mkJSDescription 7%N [55%N] []] [] [].
Definition ex_c : CTransaction :=
  mkCTransaction 3%N [mkCTxIn (mkCOutPoint 101%N 0%nat)] [mkCTxOut 5 []] [] [] [77%N].
Definition ex_a' : CTransaction :=
  mkCTransaction 4%N [mkCTxIn (mkCOutPoint 100%N 0%nat)] [mkCTxOut 8 []] [] [] [].

Definition ex_add (tx : CTransaction) (pool : CTxMemPool) : CTxMemPool :=
  (addUnchecked ex_weight (GetHash tx) (ex_entry tx 1000) true pool).1.

(** A pool holding [ex_a] and its child [ex_b]; one holding only the
    child; one holding only [ex_c]. *)
Definition ex_pool_ab : CTxMemPool := ex_add ex_b (ex_add ex_a CTxMemPool_new).
Definition ex_pool_b : CTxMemPool := ex_add ex_b CTxMemPool_new.
Definition ex_pool_c : CTxMemPool := ex_add ex_c CTxMemPool_new.

(** A new pool with the checker switched on for every call. *)
Definition ex_checked : CTxMemPool := set_nCheckFrequency 4294967295 CTxMemPool_new.

(** [ex_b], with its sprout nullifier, is added and the pool is cleared. *)
Definition ex_pool_b_cleared : CTxMemPool := clear (ex_add ex_b ex_checked).

(** [ex_c], with its orchard nullifier, is added and the pool is cleared. *)
Definition ex_pool_c_cleared : CTxMemPool := clear (ex_add ex_c ex_checked).

(** ** Pools the public operations can produce *)

(** What admission has checked before it calls [addUnchecked(hash, entry)]:
    [hash] is the txid of the entry's transaction, the txid is not in the
    pool, and no input or nullifier of the transaction is already mapped. *)
Definition admissible (hash : uint256) (entry : CTxMemPoolEntry) (pool : CTxMemPool) : Prop :=
  hash = GetHash (GetTx entry)
  ∧ mapTx pool !! hash = None
  ∧ (∀ op, op ∈ prevouts (GetTx entry) → mapNextTx pool !! op = None)
  ∧ (∀ nf, nf ∈ sprout_nullifiers (GetTx entry) → mapSproutNullifiers pool !! nf = None)
  ∧ (∀ nf, nf ∈ sapling_nullifiers (GetTx entry) → mapSaplingNullifiers pool !! nf = None)
  ∧ (∀ nf, nf ∈ GetOrchardNullifiers (GetTx entry) → mapOrchardNullifiers pool !! nf = None).

Section Reachable.
Variable tx_weight : CTransaction → CAmount → Z.
Variable double_add : double → double → double.

(** The pools reached from a new pool by admissions, removals, sweeps and
    prioritisation; [clear] is not among the steps. *)
Inductive reachable : CTxMemPool → Prop :=
  | reach_new : reachable CTxMemPool_new
  | reach_set_check freq pool :
      reachable pool → reachable (set_nCheckFrequency freq pool)
  | reach_add hash entry fCurrentEstimate pool :
      reachable pool → admissible hash entry pool →
      reachable (addUnchecked tx_weight hash entry fCurrentEstimate pool).1
  | reach_remove origTx removed fRecursive pool :
      reachable pool → reachable (remove origTx removed fRecursive pool).1
  | reach_conflicts tx removed pool :
      reachable pool → reachable (removeConflicts tx removed pool).1
  | reach_block vtx nBlockHeight conflicts fCurrentEstimate pool :
      reachable pool →
      reachable (removeForBlock vtx nBlockHeight conflicts fCurrentEstimate pool).1
  | reach_prioritise hash dPriorityDelta nFeeDelta pool :
      reachable pool →
      reachable (PrioritiseTransaction double_add hash dPriorityDelta nFeeDelta pool)
  | reach_clear_prioritisation hash pool :
      reachable pool → reachable (ClearPrioritisation hash pool).
End Reachable.

(** ** The size counters *)

(** The sum of a quantity over the entries. *)
Definition entries_sum (f : CTxMemPoolEntry → Z) (txs : gmap uint256 CTxMemPoolEntry) : Z :=
  map_fold (λ _ e acc, f e + acc) 0 txs.

(** Invariant 4 of the data model, for 64-bit counters: [totalTxSize] and
    [cachedInnerUsage] are the sums over the entries, modulo 2^64. *)
Definition totals_agree (pool : CTxMemPool) : Prop :=
  totalTxSize pool = wrap_u64 (entries_sum GetTxSize (mapTx pool))
  ∧ cachedInnerUsage pool = wrap_u64 (entries_sum DynamicMemoryUsage (mapTx pool)).

(** [ex_a] and its child [ex_b] in a pool with the checker switched on. *)
Definition ex_pool_ab_checked : CTxMemPool := ex_add ex_b (ex_add ex_a ex_checked).

(** ** More invariants of the cross maps *)

(** Every row of [mapNextTx] names the input position at which its
    transaction spends the row's outpoint. *)
Definition next_positions (pool : CTxMemPool) : Prop :=
  ∀ op ip, mapNextTx pool !! op = Some ip →
    prevout <$> vin (ptx ip) !! in_n ip = Some op.

(** Every row of [mapRecentlyAddedTx] points to the transaction of the
    entry stored under the row's key. *)
Definition recent_sound (pool : CTxMemPool) : Prop :=
  ∀ h tx, mapRecentlyAddedTx pool !! h = Some tx →
    ∃ e, mapTx pool !! h = Some e ∧ GetTx e = tx.

(** ** Prioritisation, read back *)

Section ApplyDeltasDef.
Variable double_add : double → double → double.

(** [CTxMemPool::ApplyDeltas]: the two in-out arguments after the call. *)
Definition ApplyDeltas (hash : uint256) (dPriorityDelta : double) (nFeeDelta : CAmount)
    (pool : CTxMemPool) : double * CAmount :=
  match mapDeltas pool !! hash with
  | None => (dPriorityDelta, nFeeDelta)
  | Some deltas =>
    (double_add dPriorityDelta deltas.1, wrap_i64 (nFeeDelta + deltas.2))
  end.
End ApplyDeltasDef.

(** [CTxMemPool::HasNoInputsOf] *)
Definition HasNoInputsOf (tx : CTransaction) (pool : CTxMemPool) : bool :=
  forallb (λ txin, negb (exists_ (op_hash (prevout txin)) pool)) (vin tx).

(** ** The recently added transactions *)

Definition set_mapRecentlyAddedTx (m : gmap uint256 CTransaction) (pool : CTxMemPool)
  : CTxMemPool :=
  {| nCheckFrequency := nCheckFrequency pool;
     nTransactionsUpdated := nTransactionsUpdated pool;
     totalTxSize := totalTxSize pool;
     cachedInnerUsage := cachedInnerUsage pool;
     mapTx := mapTx pool;
     mapNextTx := mapNextTx pool;
     mapDeltas := mapDeltas pool;
     mapRecentlyAddedTx := m;
     nRecentlyAddedSequence := nRecentlyAddedSequence pool;
     mapSproutNullifiers := mapSproutNullifiers pool;
     mapSaplingNullifiers := mapSaplingNullifiers pool;
     mapOrchardNullifiers := mapOrchardNullifiers pool;
     mapAddress := mapAddress pool;
     mapAddressInserted := mapAddressInserted pool;
     mapSpent := mapSpent pool;
     mapSpentInserted := mapSpentInserted pool;
     fAddressIndex := fAddressIndex pool;
     fSpentIndex := fSpentIndex pool;
     weightedTxTree := weightedTxTree pool;
     minerPolicyEstimator := minerPolicyEstimator pool |}.

(** [CTxMemPool::DrainRecentlyAdded]: the pool afterwards and the returned
    pair.  The source lists the transactions in the key order of the map;
    the model lists them in the order of [map_to_list]. *)
Definition DrainRecentlyAdded (pool : CTxMemPool)
  : CTxMemPool * (list CTransaction * Z) :=
  let recentlyAddedSequence := nRecentlyAddedSequence pool in
  let txs := (map_to_list (mapRecentlyAddedTx pool)).*2 in
  (set_mapRecentlyAddedTx ∅ pool, (txs, recentlyAddedSequence)).

(** ** CCoinsViewMemPool, the other two queries *)

Section CoinsViewQueries.
(** The backing view [base]. *)
Variable base_GetNullifier : uint256 → ShieldedType → bool.
Variable base_HaveCoins : uint256 → bool.

(** [CCoinsViewMemPool::GetNullifier] *)
Definition CCoinsViewMemPool_GetNullifier (mempool : CTxMemPool) (nf : uint256)
    (type : ShieldedType) : Outcome bool :=
  inPool ← nullifierExists nf type mempool;
  Returns (inPool || base_GetNullifier nf type).

(** [CCoinsViewMemPool::HaveCoins] *)
Definition CCoinsViewMemPool_HaveCoins (mempool : CTxMemPool) (txid : uint256) : bool :=
  exists_ txid mempool || base_HaveCoins txid.
End CoinsViewQueries.

(** The nullifiers of one kind a transaction reveals. *)
Definition revealed (type : ShieldedType) (tx : CTransaction) : list uint256 :=
  match type with
  | SPROUT => sprout_nullifiers tx
  | SAPLING => sapling_nullifiers tx
  | ORCHARD => GetOrchardNullifiers tx
  | UnknownShieldedType _ => []
  end.

(** ** CTxMemPool::pruneSpent *)

Section PruneSpent.
(** [CCoins] and [CCoins::Spend] come from coins.h. *)
Variable CCoins : Type.
Variable Spend : nat → CCoins → CCoins.

(** The [n] of the rows the loop visits.  [mapNextTx] is ordered by
    [COutPoint]'s comparison (primitives/transaction.h: by hash, then by
    n), so from [lower_bound(COutPoint(hashTx, 0))] on the loop meets
    exactly the rows of hash [hashTx], by ascending [n]. *)
Definition spent_outputs (hashTx : uint256) (pool : CTxMemPool) : list nat :=
  merge_sort Nat.le
    (op_n <$> filter (λ op, op_hash op = hashTx) (map_to_list (mapNextTx pool)).*1).

(** [CTxMemPool::pruneSpent]: [coins] after the call. *)
Definition pruneSpent (hashTx : uint256) (coins : CCoins) (pool : CTxMemPool) : CCoins :=
  foldl (λ c n, Spend n c) coins (spent_outputs hashTx pool).
End PruneSpent.

(** ** CTxMemPool::removeForReorg *)

Section Reorg.
(** [CheckFinalTx] and [COINBASE_MATURITY] come from main.h and
    consensus.h, the coin view and [CCoins] from coins.h. *)
Variable CCoinsViewCache : Type.
Variable CCoins : Type.
Variable CheckFinalTx : CTransaction → Z → bool.
Variable AccessCoins : CCoinsViewCache → uint256 → option CCoins.
Variable coins_IsCoinBase : CCoins → bool.
Variable coins_nHeight : CCoins → Z.
Variable COINBASE_MATURITY : Z.

(** The condition of the [if] on one looked-up [coins]. *)
Definition immature (nMemPoolHeight : Z) (coins : option CCoins) : bool :=
  match coins with
  | None => true
  | Some c =>
    coins_IsCoinBase c && bool_decide (nMemPoolHeight - coins_nHeight c < COINBASE_MATURITY)
  end.

(** The loop over [tx.vin] of an entry that spends a coinbase: whether
    the transaction is pushed to [transactionsToRemove]. *)
Fixpoint reorg_inputs (pcoins : CCoinsViewCache) (nMemPoolHeight : Z)
    (pool : CTxMemPool) (ins : list CTxIn) : Outcome bool :=
  match ins with
  | [] => Returns false
  | txin :: rest =>
    match mapTx pool !! op_hash (prevout txin) with
    | Some _ => reorg_inputs pcoins nMemPoolHeight pool rest
    | None =>
      let coins := AccessCoins pcoins (op_hash (prevout txin)) in
      (if bool_decide (nCheckFrequency pool ≠ 0)
       then assertion (bool_decide (is_Some coins))
       else Returns tt);;
      if immature nMemPoolHeight coins
      then Returns true
      else reorg_inputs pcoins nMemPoolHeight pool rest
    end
  end.

(** The body of the scan loop for one entry. *)
Definition reorg_entry (pcoins : CCoinsViewCache) (nMemPoolHeight : Z) (flags : Z)
    (pool : CTxMemPool) (it : CTxMemPoolEntry) : Outcome bool :=
  let tx := GetTx it in
  if negb (CheckFinalTx tx flags) then Returns true
  else if spendsCoinbase it
       then reorg_inputs pcoins nMemPoolHeight pool (vin tx)
       else Returns false.

Fixpoint reorg_scan (pcoins : CCoinsViewCache) (nMemPoolHeight : Z) (flags : Z)
    (pool : CTxMemPool) (entries : list CTxMemPoolEntry)
  : Outcome (list CTransaction) :=
  match entries with
  | [] => Returns []
  | it :: rest =>
    hit ← reorg_entry pcoins nMemPoolHeight flags pool it;
    more ← reorg_scan pcoins nMemPoolHeight flags pool rest;
    Returns (if hit : bool then GetTx it :: more else more)
  end.

(** [CTxMemPool::removeForReorg] *)
Definition removeForReorg (pcoins : CCoinsViewCache) (nMemPoolHeight : Z) (flags : Z)
    (pool : CTxMemPool) : Outcome CTxMemPool :=
  transactionsToRemove ← reorg_scan pcoins nMemPoolHeight flags pool (mapTx_entries pool);
  Returns (remove_each transactionsToRemove pool).
End Reorg.

(** ** Insight explorer indexes, filled *)

(** [m.insert(make_pair(k, v))]: a row already there is kept. *)
Definition insert_new `{Countable K} {A} (k : K) (v : A) (m : gmap K A) : gmap K A :=
  match m !! k with
  | Some _ => m
  | None => <[k := v]> m
  end.

(** [for (kv : rows) m.insert(kv);] *)
Definition insert_new_all `{Countable K} {A} (rows : list (K * A)) (m : gmap K A)
  : gmap K A :=
  foldl (λ acc kv, insert_new kv.1 kv.2 acc) m rows.

Definition set_spent_index (spent : gmap COutPoint CSpentIndexValue)
    (inserted : gmap uint256 (list COutPoint)) (pool : CTxMemPool) : CTxMemPool :=
  {| nCheckFrequency := nCheckFrequency pool;
     nTransactionsUpdated := nTransactionsUpdated pool;
     totalTxSize := totalTxSize pool;
     cachedInnerUsage := cachedInnerUsage pool;
     mapTx := mapTx pool;
     mapNextTx := mapNextTx pool;
     mapDeltas := mapDeltas pool;
     mapRecentlyAddedTx := mapRecentlyAddedTx pool;
     nRecentlyAddedSequence := nRecentlyAddedSequence pool;
     mapSproutNullifiers := mapSproutNullifiers pool;
     mapSaplingNullifiers := mapSaplingNullifiers pool;
     mapOrchardNullifiers := mapOrchardNullifiers pool;
     mapAddress := mapAddress pool;
     mapAddressInserted := mapAddressInserted pool;
     mapSpent := spent;
     mapSpentInserted := inserted;
     fAddressIndex := fAddressIndex pool;
     fSpentIndex := fSpentIndex pool;
     weightedTxTree := weightedTxTree pool;
     minerPolicyEstimator := minerPolicyEstimator pool |}.

Definition set_address_index (address : gmap CMempoolAddressDeltaKey CMempoolAddressDelta)
    (inserted : gmap uint256 (list CMempoolAddressDeltaKey)) (pool : CTxMemPool)
  : CTxMemPool :=
  {| nCheckFrequency := nCheckFrequency pool;
     nTransactionsUpdated := nTransactionsUpdated pool;
     totalTxSize := totalTxSize pool;
     cachedInnerUsage := cachedInnerUsage pool;
     mapTx := mapTx pool;
     mapNextTx := mapNextTx pool;
     mapDeltas := mapDeltas pool;
     mapRecentlyAddedTx := mapRecentlyAddedTx pool;
     nRecentlyAddedSequence := nRecentlyAddedSequence pool;
     mapSproutNullifiers := mapSproutNullifiers pool;
     mapSaplingNullifiers := mapSaplingNullifiers pool;
     mapOrchardNullifiers := mapOrchardNullifiers pool;
     mapAddress := address;
     mapAddressInserted := inserted;
     mapSpent := mapSpent pool;
     mapSpentInserted := mapSpentInserted pool;
     fAddressIndex := fAddressIndex pool;
     fSpentIndex := fSpentIndex pool;
     weightedTxTree := weightedTxTree pool;
     minerPolicyEstimator := minerPolicyEstimator pool |}.

Definition GetTime (e : CTxMemPoolEntry) : Z := nTime e.

Section InsightExplorer.
(** [CCoinsViewCache::GetOutputFor] (coins.h), [CScript::GetType] and
    [CScript::AddressHash] (script.h), and the two-argument constructor of
    [CMempoolAddressDelta] (addressindex.h). *)
Variable CCoinsViewCache : Type.
Variable GetOutputFor : CCoinsViewCache → CTxIn → CTxOut.
Variable GetType : list N → N.
Variable AddressHash : list N → N.
Variable UNKNOWN : N.
Variable CMempoolAddressDelta_received : Z → CAmount → CMempoolAddressDelta.

(** The rows of the first loop of [addSpentIndex], in order. *)
Definition spent_rows (entry : CTxMemPoolEntry) (view : CCoinsViewCache)
  : list (COutPoint * CSpentIndexValue) :=
  let tx := GetTx entry in
  let txhash := GetHash tx in
  imap (λ j input,
          let prevout_ := GetOutputFor view input in
          (prevout input,
           mkSpentValue txhash j (-1) (nValue prevout_)
                        (GetType (scriptPubKey prevout_))
                        (AddressHash (scriptPubKey prevout_))))
       (vin tx).

(** [CTxMemPool::addSpentIndex] *)
Definition addSpentIndex (entry : CTxMemPoolEntry) (view : CCoinsViewCache)
    (pool : CTxMemPool) : CTxMemPool :=
  let rows := spent_rows entry view in
  set_spent_index (insert_new_all rows (mapSpent pool))
                  (insert_new (GetHash (GetTx entry)) rows.*1 (mapSpentInserted pool))
                  pool.

(** [CTxMemPool::getSpentIndex]: the returned flag and [value] afterwards. *)
Definition getSpentIndex (key : COutPoint) (value : CSpentIndexValue) (pool : CTxMemPool)
  : bool * CSpentIndexValue :=
  match mapSpent pool !! key with
  | Some v => (true, v)
  | None => (false, value)
  end.

(** [CTxMemPool::removeSpentIndex], on the pool. *)
Definition removeSpentIndex_pool (txhash : uint256) (pool : CTxMemPool) : CTxMemPool :=
  set_spent_index (removeSpentIndex txhash pool).1 (removeSpentIndex txhash pool).2 pool.

(** The rows of the two loops of [addAddressIndex], in order; an input or
    output whose script type is [CScript::UNKNOWN] gives none. *)
Definition address_rows (entry : CTxMemPoolEntry) (view : CCoinsViewCache)
  : list (CMempoolAddressDeltaKey * CMempoolAddressDelta) :=
  let tx := GetTx entry in
  let txhash := GetHash tx in
  omap id (imap (λ j input,
                   let prevout_ := GetOutputFor view input in
                   let type := GetType (scriptPubKey prevout_) in
                   if N.eqb type UNKNOWN then None
                   else Some (mkAddressKey type (AddressHash (scriptPubKey prevout_))
                                           txhash j true,
                              mkAddressDelta (GetTime entry)
                                             (wrap_i64 (nValue prevout_ * -1))
                                             (op_hash (prevout input))
                                             (op_n (prevout input))))
                (vin tx))
  ++ omap id (imap (λ j out,
                      let type := GetType (scriptPubKey out) in
                      if N.eqb type UNKNOWN then None
                      else Some (mkAddressKey type (AddressHash (scriptPubKey out))
                                              txhash j false,
                                 CMempoolAddressDelta_received (GetTime entry) (nValue out)))
                   (vout tx)).

(** [CTxMemPool::addAddressIndex] *)
Definition addAddressIndex (entry : CTxMemPoolEntry) (view : CCoinsViewCache)
    (pool : CTxMemPool) : CTxMemPool :=
  let rows := address_rows entry view in
  set_address_index (insert_new_all rows (mapAddress pool))
                    (insert_new (GetHash (GetTx entry)) rows.*1 (mapAddressInserted pool))
                    pool.

(** [CTxMemPool::removeAddressIndex], on the pool. *)
Definition removeAddressIndex_pool (txhash : uint256) (pool : CTxMemPool) : CTxMemPool :=
  set_address_index (removeAddressIndex txhash pool).1 (removeAddressIndex txhash pool).2
                    pool.
End InsightExplorer.

(** [CTxMemPool::getAddressIndex]: [results] after the call.  [mapAddress]
    is ordered by [CMempoolAddressDeltaKeyCompare] (addressindex.h: by
    type, then by address bytes, then by the other fields), so from
    [lower_bound(CMempoolAddressDeltaKey(type, address))] on the inner loop
    meets exactly the rows of that type and address.  The model lists them
    in the order of [map_to_list]. *)
Definition getAddressIndex (addresses : list (N * N))
    (results : list (CMempoolAddressDeltaKey * CMempoolAddressDelta)) (pool : CTxMemPool)
  : list (CMempoolAddressDeltaKey * CMempoolAddressDelta) :=
  foldl (λ results it,
           results
           ++ filter (λ ait, ak_addressBytes ait.1 = it.1 ∧ ak_type ait.1 = it.2)
                     (map_to_list (mapAddress pool)))
        results addresses.

(** A pool with both indexes switched on. *)
Definition ex_indexing : CTxMemPool :=
  mkCTxMemPool 0 0 0 0 ∅ ∅ ∅ ∅ 0 ∅ ∅ ∅ ∅ ∅ ∅ ∅ true true [] [].

(** What a sweep of the pool keeps: each invariant that held before holds
    after, and nothing is added. *)
Definition invariants_kept (pool pool' : CTxMemPool) : Prop :=
  (pool_indexed pool → pool_indexed pool')
  ∧ (next_positions pool → next_positions pool')
  ∧ (recent_sound pool → recent_sound pool')
  ∧ (totals_agree pool → totals_agree pool')
  ∧ pool_shrinks pool pool'.

(** ** The sorted listing *)

Section SortedListing.
(** [CompareTxMemPoolEntryByScore] is declared in txmempool.h. *)
Variable CompareTxMemPoolEntryByScore : CTxMemPoolEntry → CTxMemPoolEntry → bool.

(** [DepthAndScoreComparator], on the entries the iterators point to. *)
Definition DepthAndScoreComparator (a b : CTxMemPoolEntry) : bool :=
  CompareTxMemPoolEntryByScore a b.

(** [a] may stand before [b] in the sorted vector. *)
Definition not_after (a b : CTxMemPoolEntry) : Prop :=
  DepthAndScoreComparator b a = false.

#[global] Instance not_after_dec : RelDecision not_after.
Proof. intros a b. unfold not_after. apply _. Defined.

(** [CTxMemPool::GetSortedDepthAndScore].  [std::sort] leaves the order
    among entries that compare equivalent open; the model sorts with merge
    sort, placing [a] before [b] when [b] does not compare before [a]. *)
Definition GetSortedDepthAndScore (pool : CTxMemPool) : list CTxMemPoolEntry :=
  merge_sort not_after (mapTx_entries pool).

(** [CTxMemPool::queryHashes]: [vtxid] after the call. *)
Definition queryHashes (pool : CTxMemPool) : list uint256 :=
  (λ it, GetHash (GetTx it)) <$> GetSortedDepthAndScore pool.
End SortedListing.

(** ** Notification sequence numbers (regtest only) *)

(** The member [nNotifiedSequence] is kept beside the pool record;
    [NetworkIDString] is [Params().NetworkIDString()]. *)
Definition SetNotifiedSequence (NetworkIDString : string) (recentlyAddedSequence : Z)
  : Outcome Z :=
  assertion (String.eqb NetworkIDString "regtest");;
  Returns recentlyAddedSequence.

Definition IsFullyNotified (NetworkIDString : string) (nNotifiedSequence : Z)
    (pool : CTxMemPool) : Outcome bool :=
  assertion (String.eqb NetworkIDString "regtest");;
  Returns (bool_decide (nRecentlyAddedSequence pool = nNotifiedSequence)).

(** ** What a run of removals leaves behind *)

(** [p] holds no child, as the pool [pool] records parents and children,
    of an entry it no longer holds: what was taken out of [pool] went with
    its descendants. *)
Definition descendant_closed (pool p : CTxMemPool) : Prop :=
  ∀ parent child, spends_from pool parent child →
    mapTx p !! parent = None → mapTx p !! child = None.


(** [ex_a], validated under branch 1, and [ex_c], validated under branch
    2, in one pool. *)
Definition ex_entry_branch2 (tx : CTransaction) (fee : CAmount) : CTxMemPoolEntry :=
  CTxMemPoolEntry_new (λ _, 200) (λ _ size, size) (λ _, 400) (λ _, 200)
                      tx fee 1600000000 0 10 true false 1 2.

Definition ex_pool_mixed : CTxMemPool :=
  (addUnchecked ex_weight (GetHash ex_c) (ex_entry_branch2 ex_c 1000) true
     (ex_add ex_a CTxMemPool_new)).1.

(** * Properties *)

(** ** Erasing and assigning lists of keys *)

Section KeyLists.
Context `{Countable K} {A : Type}.
Implicit Types (m : gmap K A) (keys : list K).

Lemma lookup_erase_all keys m k :
  erase_all keys m !! k = if decide (k ∈ keys) then None else m !! k.
Proof.
  unfold erase_all. revert m.
  induction keys as [|k' keys IH]; intros m.
  - by rewrite decide_False by apply not_elem_of_nil.
  - simpl. rewrite IH.
    destruct (decide (k ∈ keys)) as [Hin|Hout], (decide (k ∈ k' :: keys)) as [Hin'|Hout'];
      try done.
    + exfalso. apply Hout'. by apply list_elem_of_further.
    + apply elem_of_cons in Hin' as [->|?]; [apply lookup_delete_eq | done].
    + apply lookup_delete_ne. intros ->. apply Hout', list_elem_of_here.
Qed.

Lemma erase_all_subseteq keys m : erase_all keys m ⊆ m.
Proof.
  apply map_subseteq_spec. intros k x. rewrite lookup_erase_all.
  by case_decide.
Qed.

Lemma erase_all_Some keys m k x :
  (erase_all keys m !! k) = Some x ↔ (k ∉ keys) ∧ (m !! k) = Some x.
Proof.
  rewrite lookup_erase_all.
  destruct (decide (k ∈ keys)); split; try done; [by intros [] | by intros [_ ?]].
Qed.
End KeyLists.

(** ** The loop of [remove] ends *)

Lemma omap_length_le {A B} (f : A → option B) (l : list A) :
  (length (omap f l) ≤ length l)%nat.
Proof. induction l as [|a l IH]; csimpl; [done|]. destruct (f a); simpl; lia. Qed.

Lemma spenders_of_length next hash nout :
  (length (spenders_of next hash nout) ≤ nout)%nat.
Proof.
  unfold spenders_of.
  eapply Nat.le_trans; [apply omap_length_le|]. by rewrite length_seq.
Qed.

Lemma elem_of_spenders_of next hash nout h :
  h ∈ spenders_of next hash nout ↔
  ∃ i ip, (i < nout)%nat ∧ next !! mkCOutPoint hash i = Some ip ∧ GetHash (ptx ip) = h.
Proof.
  unfold spenders_of. rewrite list_elem_of_omap. split.
  - intros (i & Hi & Hrow). apply elem_of_seq in Hi.
    destruct (next !! mkCOutPoint hash i) as [ip|] eqn:E; simplify_eq/=.
    exists i, ip. split_and!; [lia | done | done].
  - intros (i & ip & Hi & Hrow & <-). exists i. split.
    + apply elem_of_seq. lia.
    + by rewrite Hrow.
Qed.

Lemma spenders_of_nil next hash nout :
  (∀ i, (i < nout)%nat → next !! mkCOutPoint hash i = None) →
  spenders_of next hash nout = [].
Proof.
  intros Hnone. apply elem_of_nil_inv. intros h Hin.
  apply elem_of_spenders_of in Hin as (i & ip & Hi & Hrow & _).
  by rewrite Hnone in Hrow.
Qed.

Lemma pool_weight_erase_entry hash e pool :
  mapTx pool !! hash = Some e →
  pool_weight pool
  = (S (length (vout (GetTx e))) + pool_weight (erase_entry hash e pool))%nat.
Proof.
  intros Hin. unfold pool_weight; simpl.
  apply (map_fold_delete_L (λ _ e acc, (S (length (vout (GetTx e))) + acc)%nat));
    [intros; lia | done].
Qed.

(** With the fuel [remove] supplies, the loop runs to the end. *)
Lemma remove_loop_total fuel fRecursive txToRemove pool removed :
  (remove_fuel txToRemove pool ≤ fuel)%nat →
  is_Some (remove_loop fuel fRecursive txToRemove pool removed).
Proof.
  revert txToRemove pool removed.
  induction fuel as [|fuel IH]; intros q pool removed Hfuel.
  - destruct q as [|h q]; [by eexists | unfold remove_fuel in Hfuel; simpl in Hfuel; lia].
  - destruct q as [|h q]; [by eexists|]. simpl.
    destruct (mapTx pool !! h) as [e|] eqn:Hin.
    + apply IH. unfold remove_fuel in *. simpl in Hfuel.
      rewrite (pool_weight_erase_entry h e pool Hin) in Hfuel.
      destruct fRecursive; [|lia].
      rewrite length_app.
      pose proof (spenders_of_length (mapNextTx pool) h (length (vout (GetTx e)))). lia.
    + apply IH. unfold remove_fuel in *. simpl in Hfuel. lia.
Qed.

(** [remove] is its loop, run to the end, followed by the clean-up of the
    weighted tree. *)
Lemma remove_unfold origTx removed fRecursive pool :
  ∃ fuel pool' removed',
    remove_loop fuel fRecursive (remove_queue origTx fRecursive pool) pool removed
      = Some (pool', removed')
    ∧ remove origTx removed fRecursive pool
      = (set_weightedTxTree (tree_remove_all removed' (weightedTxTree pool')) pool',
         removed').
Proof.
  unfold remove.
  set (q := remove_queue origTx fRecursive pool).
  destruct (remove_loop_total (remove_fuel q pool) fRecursive q pool removed)
    as [[pool' removed'] Hrun]; [done|].
  exists (remove_fuel q pool), pool', removed'. by rewrite Hrun.
Qed.

(** Invariant rule for the loop: [P] holds of the queue, the pool and the
    [removed] list before every pass. *)
Lemma remove_loop_inv (fRecursive : bool)
    (P : list uint256 → CTxMemPool → list CTransaction → Prop) :
  (∀ h rest pool removed,
     P (h :: rest) pool removed → mapTx pool !! h = None → P rest pool removed) →
  (∀ h rest pool removed e,
     P (h :: rest) pool removed → mapTx pool !! h = Some e →
     P (if fRecursive
        then rest ++ spenders_of (mapNextTx pool) h (length (vout (GetTx e)))
        else rest)
       (erase_entry h e pool) (removed ++ [GetTx e])) →
  ∀ fuel txToRemove pool removed pool' removed',
    P txToRemove pool removed →
    remove_loop fuel fRecursive txToRemove pool removed = Some (pool', removed') →
    P [] pool' removed'.
Proof.
  intros Hskip Hstep fuel.
  induction fuel as [|fuel IH]; intros q pool removed pool' removed' HP Hrun.
  - destruct q; simplify_eq/=. done.
  - destruct q as [|h q]; simplify_eq/=; [done|].
    destruct (mapTx pool !! h) as [e|] eqn:Hin.
    + eapply IH; [|exact Hrun]. by apply Hstep.
    + eapply IH; [|exact Hrun]. by eapply Hskip.
Qed.

(** ** The cross maps agree with [mapTx] *)

Section Index.
Context `{Countable K} {V : Type}.
Variable owner : V → CTransaction.
Variable keys : CTransaction → list K.
Implicit Types (txs : gmap uint256 CTxMemPoolEntry) (m : gmap K V).

Lemma index_covers_erase txs m h e :
  keyed_by_hash txs → index_covers owner keys txs m → txs !! h = Some e →
  index_covers owner keys (delete h txs) (erase_all (keys (GetTx e)) m).
Proof.
  intros Hkey Hcov Hin h' e' k Hin' Hk.
  apply lookup_delete_Some in Hin' as [Hne Hin'].
  rewrite lookup_erase_all. case_decide as Hk'.
  - exfalso. apply Hne.
    pose proof (Hcov _ _ _ Hin Hk') as H1. pose proof (Hcov _ _ _ Hin' Hk) as H2.
    rewrite H1 in H2. rewrite <- (Hkey _ _ Hin), <- (Hkey _ _ Hin'). congruence.
  - by eapply Hcov.
Qed.

Lemma index_sound_erase txs m h e :
  keyed_by_hash txs → index_sound owner keys txs m → txs !! h = Some e →
  index_sound owner keys (delete h txs) (erase_all (keys (GetTx e)) m).
Proof.
  intros Hkey Hsnd Hin k v Hrow.
  apply erase_all_Some in Hrow as [Hk Hrow].
  destruct (Hsnd _ _ Hrow) as (e' & Hin' & Htx & Hk').
  exists e'. split_and!; [|done|done].
  apply lookup_delete_Some. split; [|done].
  intros Heq. rewrite <- Heq in Hin'. simplify_eq. by rewrite Htx in Hk.
Qed.
End Index.

#[global] Instance pool_shrinks_preorder : PreOrder pool_shrinks.
Proof.
  split.
  - intros p. by split.
  - intros p1 p2 p3 [] []. split; by etrans.
Qed.

Lemma keyed_by_hash_delete txs h : keyed_by_hash txs → keyed_by_hash (delete h txs).
Proof. intros Hkey h' e Hin. apply lookup_delete_Some in Hin as [_ Hin]. by apply Hkey. Qed.

Lemma pool_indexed_erase_entry hash e pool :
  pool_indexed pool → mapTx pool !! hash = Some e →
  pool_indexed (erase_entry hash e pool).
Proof.
  intros [] Hin. split; simpl.
  - by apply keyed_by_hash_delete.
  - by apply index_covers_erase.
  - by apply index_sound_erase.
  - by apply index_covers_erase.
  - by apply index_sound_erase.
  - by apply index_covers_erase.
  - by apply index_sound_erase.
  - by apply index_covers_erase.
  - by apply index_sound_erase.
Qed.

Lemma pool_shrinks_erase_entry hash e pool : pool_shrinks pool (erase_entry hash e pool).
Proof. split; simpl; first [apply delete_subseteq | apply erase_all_subseteq]. Qed.

Lemma pool_indexed_set_weightedTxTree t pool :
  pool_indexed pool → pool_indexed (set_weightedTxTree t pool).
Proof. by intros []. Qed.

Lemma pool_shrinks_set_weightedTxTree t pool pool' :
  pool_shrinks pool pool' → pool_shrinks pool (set_weightedTxTree t pool').
Proof. by intros []. Qed.

(** ** What [remove] does to the pool *)

(** The loop keeps the cross maps in agreement and only takes away. *)
Lemma remove_loop_indexed fuel fRecursive q pool removed pool' removed' :
  pool_indexed pool →
  remove_loop fuel fRecursive q pool removed = Some (pool', removed') →
  pool_indexed pool' ∧ pool_shrinks pool pool'.
Proof.
  intros Hidx Hrun.
  apply (remove_loop_inv fRecursive
           (λ _ p _, pool_indexed p ∧ pool_shrinks pool p)) in Hrun; [done| | |done].
  - by intros.
  - intros h rest p r e [Hi Hs] Hin. split.
    + by apply pool_indexed_erase_entry.
    + etrans; [exact Hs | apply pool_shrinks_erase_entry].
Qed.

Lemma remove_loop_shrinks fuel fRecursive q pool removed pool' removed' :
  remove_loop fuel fRecursive q pool removed = Some (pool', removed') →
  pool_shrinks pool pool'.
Proof.
  intros Hrun.
  apply (remove_loop_inv fRecursive (λ _ p _, pool_shrinks pool p)) in Hrun; [done| | |done].
  - by intros.
  - intros h rest p r e Hs Hin. etrans; [exact Hs | apply pool_shrinks_erase_entry].
Qed.

(** Every hash that was in the queue is out of [mapTx] at the end. *)
Lemma remove_loop_queue_gone fuel fRecursive q pool removed pool' removed' :
  remove_loop fuel fRecursive q pool removed = Some (pool', removed') →
  ∀ h, h ∈ q → mapTx pool' !! h = None.
Proof.
  revert q pool removed.
  induction fuel as [|fuel IH]; intros q pool removed Hrun h Hq.
  - destruct q; simplify_eq/=. by apply elem_of_nil in Hq.
  - destruct q as [|h' q]; simplify_eq/=; [by apply elem_of_nil in Hq|].
    destruct (mapTx pool !! h') as [e|] eqn:Hin.
    + apply elem_of_cons in Hq as [->|Hq].
      * apply remove_loop_shrinks in Hrun as [Hsub _ _ _ _]. simpl in Hsub.
        eapply lookup_weaken_None; [apply lookup_delete_eq | exact Hsub].
      * eapply IH; [exact Hrun|]. destruct fRecursive; [|done].
        apply elem_of_app. by left.
    + apply elem_of_cons in Hq as [->|Hq].
      * apply remove_loop_shrinks in Hrun as [Hsub _ _ _ _].
        eapply lookup_weaken_None; eauto.
      * eapply IH; eauto.
Qed.

Lemma remove_indexed origTx removed fRecursive pool :
  pool_indexed pool → pool_indexed (remove origTx removed fRecursive pool).1.
Proof.
  intros Hidx.
  destruct (remove_unfold origTx removed fRecursive pool)
    as (fuel & pool' & removed' & Hrun & ->). simpl.
  apply pool_indexed_set_weightedTxTree.
  by eapply remove_loop_indexed.
Qed.

Lemma remove_shrinks origTx removed fRecursive pool :
  pool_shrinks pool (remove origTx removed fRecursive pool).1.
Proof.
  destruct (remove_unfold origTx removed fRecursive pool)
    as (fuel & pool' & removed' & Hrun & ->). simpl.
  apply pool_shrinks_set_weightedTxTree. by eapply remove_loop_shrinks.
Qed.

(** After [remove], the transaction is not in the pool. *)
Lemma remove_gone origTx removed fRecursive pool :
  mapTx (remove origTx removed fRecursive pool).1 !! GetHash origTx = None.
Proof.
  destruct (remove_unfold origTx removed fRecursive pool)
    as (fuel & pool' & removed' & Hrun & ->). simpl.
  eapply remove_loop_queue_gone; [exact Hrun|]. apply list_elem_of_here.
Qed.

(** ** Running the loop again *)

Lemma remove_loop_more_fuel fuel fuel' fRecursive q pool removed r :
  remove_loop fuel fRecursive q pool removed = Some r → (fuel ≤ fuel')%nat →
  remove_loop fuel' fRecursive q pool removed = Some r.
Proof.
  revert fuel' q pool removed.
  induction fuel as [|fuel IH]; intros fuel' q pool removed Hrun Hle.
  - destruct q; simplify_eq/=. by destruct fuel'.
  - destruct fuel' as [|fuel']; [lia|].
    destruct q as [|h q]; simplify_eq/=; [done|].
    destruct (mapTx pool !! h); apply IH; auto with lia.
Qed.

Lemma remove_loop_det fuel fuel' fRecursive q pool removed r r' :
  remove_loop fuel fRecursive q pool removed = Some r →
  remove_loop fuel' fRecursive q pool removed = Some r' → r = r'.
Proof.
  intros H1 H2.
  apply (remove_loop_more_fuel _ (fuel `max` fuel')) in H1; [|lia].
  apply (remove_loop_more_fuel _ (fuel `max` fuel')) in H2; [|lia].
  congruence.
Qed.

(** A queue of hashes that are not in the pool changes nothing. *)
Lemma remove_loop_absent fRecursive q pool removed :
  (∀ h, h ∈ q → mapTx pool !! h = None) →
  remove_loop (length q) fRecursive q pool removed = Some (pool, removed).
Proof.
  induction q as [|h q IH]; intros Habs; simpl; [done|].
  rewrite Habs by apply list_elem_of_here.
  apply IH. intros h' Hin. by apply Habs, list_elem_of_further.
Qed.

Lemma filter_all {A} (P : A → Prop) `{!∀ x, Decision (P x)} (l : list A) :
  (∀ x, x ∈ l → P x) → filter P l = l.
Proof.
  induction l as [|a l IH]; intros Hall; [done|].
  rewrite filter_cons_True by apply Hall, list_elem_of_here.
  f_equal. apply IH. intros x Hx. by apply Hall, list_elem_of_further.
Qed.

Lemma filter_filter_iff {A} (P Q R : A → Prop)
    `{!∀ x, Decision (P x), !∀ x, Decision (Q x), !∀ x, Decision (R x)} (l : list A) :
  (∀ x, P x ∧ Q x ↔ R x) → filter P (filter Q l) = filter R l.
Proof.
  intros Hiff. induction l as [|a l IH]; [done|].
  rewrite (filter_cons Q), (filter_cons R).
  destruct (decide (Q a)) as [HQ|HQ].
  - rewrite filter_cons. destruct (decide (P a)) as [HP|HP].
    + rewrite decide_True by (apply Hiff; done). by f_equal.
    + rewrite decide_False; [done|]. intros HR. apply Hiff in HR. tauto.
  - rewrite decide_False; [done|]. intros HR. apply Hiff in HR. tauto.
Qed.

Lemma tree_remove_all_spec removed t :
  tree_remove_all removed t = filter (λ item, item.1 ∉ GetHash <$> removed) t.
Proof.
  unfold tree_remove_all. revert t.
  induction removed as [|tx removed IH]; intros t; simpl.
  - symmetry. apply filter_all. intros item _. apply not_elem_of_nil.
  - rewrite IH. unfold WeightedTxTree_remove.
    apply filter_filter_iff. intros item. rewrite not_elem_of_cons. tauto.
Qed.

Lemma tree_remove_all_twice removed t :
  tree_remove_all removed (tree_remove_all removed t) = tree_remove_all removed t.
Proof.
  rewrite !tree_remove_all_spec. apply filter_filter_iff. tauto.
Qed.

Lemma tree_remove_all_none removed t :
  Forall (λ tx, ∀ item, item ∈ t → item.1 ≠ GetHash tx) removed →
  tree_remove_all removed t = t.
Proof.
  intros Hnone. rewrite tree_remove_all_spec.
  apply filter_all. intros item Hitem Hin.
  apply list_elem_of_fmap in Hin as (tx & Heq & Htx).
  rewrite Forall_forall in Hnone. by eapply Hnone.
Qed.

Lemma set_weightedTxTree_same pool : set_weightedTxTree (weightedTxTree pool) pool = pool.
Proof. by destruct pool. Qed.

(** [remove] of a transaction that is not in the pool, when no recursive
    search starts from its outputs: only the weighted tree is visited. *)
Lemma remove_absent origTx removed fRecursive pool :
  mapTx pool !! GetHash origTx = None →
  fRecursive = false
  ∨ spenders_of (mapNextTx pool) (GetHash origTx) (length (vout origTx)) = [] →
  remove origTx removed fRecursive pool
  = (set_weightedTxTree (tree_remove_all removed (weightedTxTree pool)) pool, removed).
Proof.
  intros Habs Hleaf.
  destruct (remove_unfold origTx removed fRecursive pool)
    as (fuel & pool' & removed' & Hrun & ->).
  assert (remove_queue origTx fRecursive pool = [GetHash origTx]) as Hq.
  { unfold remove_queue. destruct Hleaf as [->| ->]; [done|]. by case_match. }
  rewrite Hq in Hrun.
  assert ((pool', removed') = (pool, removed)) as [= -> ->]; [|done].
  eapply remove_loop_det; [exact Hrun|].
  apply remove_loop_absent.
  intros h Hin. by apply list_elem_of_singleton in Hin as ->.
Qed.

(** After a recursive [remove], no row of [mapNextTx] is left for an output
    of the transaction. *)
Lemma remove_loop_outputs_unspent fuel origTx q pool removed pool' removed' :
  pool_indexed pool →
  (∀ e, mapTx pool !! GetHash origTx = Some e → GetTx e = origTx) →
  (∀ i ip, (i < length (vout origTx))%nat →
     mapNextTx pool !! mkCOutPoint (GetHash origTx) i = Some ip →
     GetHash (ptx ip) ∈ q
     ∨ (GetHash origTx ∈ q ∧ is_Some (mapTx pool !! GetHash origTx))) →
  remove_loop fuel true q pool removed = Some (pool', removed') →
  ∀ i, (i < length (vout origTx))%nat →
    mapNextTx pool' !! mkCOutPoint (GetHash origTx) i = None.
Proof.
  intros Hidx Hsame Hrows Hrun.
  apply (remove_loop_inv true (λ q p _,
           pool_indexed p
           ∧ (∀ e, mapTx p !! GetHash origTx = Some e → GetTx e = origTx)
           ∧ ∀ i ip, (i < length (vout origTx))%nat →
               mapNextTx p !! mkCOutPoint (GetHash origTx) i = Some ip →
               GetHash (ptx ip) ∈ q
               ∨ (GetHash origTx ∈ q ∧ is_Some (mapTx p !! GetHash origTx))))
    in Hrun.
  - destruct Hrun as (_ & _ & Hend). intros i Hi.
    destruct (mapNextTx pool' !! _) as [ip|] eqn:Hrow; [|done].
    destruct (Hend i ip Hi Hrow) as [Hin|[Hin _]]; by apply elem_of_nil in Hin.
  - intros h rest p r (Hi & Hs & Hr) Hnone. split_and!; [done|done|].
    intros i ip Hlt Hrow. destruct (Hr i ip Hlt Hrow) as [Hin|[Hin Hsome]].
    + apply elem_of_cons in Hin as [Heq|Hin]; [|by left].
      destruct (idx_next_sound _ Hi _ _ Hrow) as (e & He & _).
      rewrite Heq in He. congruence.
    + apply elem_of_cons in Hin as [Heq|Hin]; [|by right].
      rewrite Heq, Hnone in Hsome. by destruct Hsome.
  - intros h rest p r e (Hi & Hs & Hr) Hin. split_and!.
    + by apply pool_indexed_erase_entry.
    + intros e' He'. simpl in He'. apply lookup_delete_Some in He' as [_ He']. auto.
    + intros i ip Hlt Hrow. simpl in Hrow.
      apply erase_all_Some in Hrow as [Hkeep Hrow].
      destruct (decide (h = GetHash origTx)) as [->|Hne].
      { left. apply elem_of_app. right.
        apply elem_of_spenders_of. exists i, ip. by rewrite (Hs _ Hin). }
      destruct (Hr i ip Hlt Hrow) as [Hq|[Hq Hsome]].
      * apply elem_of_cons in Hq as [Heq|Hq]; [|left; apply elem_of_app; by left].
        exfalso. apply Hkeep.
        destruct (idx_next_sound _ Hi _ _ Hrow) as (e' & He' & Htx & Hkey).
        rewrite Heq in He'. simplify_eq. by rewrite Htx.
      * apply elem_of_cons in Hq as [Heq|Hq]; [done|].
        right. split; [apply elem_of_app; by left|]. simpl.
        destruct Hsome as [e' He']. exists e'.
        by apply lookup_delete_Some.
  - done.
Qed.

(** ** A recursive removal takes the descendants *)

(** A parent and child of the larger pool that are both still in the
    smaller one are parent and child there. *)
Lemma spends_from_restrict pool p parent child :
  pool_indexed pool → pool_indexed p → pool_shrinks pool p →
  spends_from pool parent child →
  is_Some (mapTx p !! parent) → is_Some (mapTx p !! child) →
  spends_from p parent child.
Proof.
  intros Hidx Hidxp Hs (e & i & ip & He & Hi & Hrow & Hchild) [e' He'] [ec Hec].
  assert (e' = e) as ->.
  { pose proof (lookup_weaken _ _ _ _ He' (shr_tx _ _ Hs)). congruence. }
  destruct (idx_next_sound _ Hidx _ _ Hrow) as (ec0 & Hec0 & Htx0 & Hkey).
  assert (ec0 = ec) as ->.
  { pose proof (lookup_weaken _ _ _ _ Hec (shr_tx _ _ Hs)) as Hec'.
    rewrite Hchild in Hec0. congruence. }
  pose proof (idx_next_covers _ Hidxp child ec (mkCOutPoint parent i) Hec) as Hcov.
  rewrite Htx0 in Hcov. specialize (Hcov Hkey).
  destruct (mapNextTx p !! mkCOutPoint parent i) as [ip'|] eqn:Hrow'; [|done].
  injection Hcov as Hptx. exists e, i, ip'. split_and!; [done|done|done|].
  by rewrite Hptx.
Qed.

Lemma remove_loop_closed fuel q pool removed pool' removed' :
  pool_indexed pool →
  remove_loop fuel true q pool removed = Some (pool', removed') →
  descendant_closed pool pool'.
Proof.
  intros Hidx Hrun.
  apply (remove_loop_inv true (λ q p _,
           pool_indexed p ∧ pool_shrinks pool p
           ∧ ∀ parent child, spends_from pool parent child →
               mapTx p !! parent = None → child ∈ q ∨ mapTx p !! child = None)) in Hrun.
  - destruct Hrun as (_ & _ & Hend). intros parent child Hspends Hgone.
    destruct (Hend parent child Hspends Hgone) as [Hin|Hnone]; [|done].
    by apply elem_of_nil in Hin.
  - intros h rest p r (Hi & Hs & Hq) Hnone. split_and!; [done|done|].
    intros parent child Hspends Hgone.
    destruct (Hq parent child Hspends Hgone) as [[->|Hin]%elem_of_cons|Hc]; auto.
  - intros h rest p r e (Hi & Hs & Hq) Hin. split_and!.
    + by apply pool_indexed_erase_entry.
    + etrans; [exact Hs | apply pool_shrinks_erase_entry].
    + intros parent child Hspends Hgone. simpl in Hgone. simpl.
      rewrite lookup_delete_None.
      apply lookup_delete_None in Hgone as [<-|Hgone].
      * destruct (mapTx p !! child) as [ec|] eqn:Hec; [|by right; right].
        left. apply elem_of_app. right.
        destruct (spends_from_restrict pool p h child Hidx Hi Hs Hspends)
          as (e' & i & ip & He' & Hlt & Hrow & Hchild); [by eexists..|].
        apply elem_of_spenders_of. exists i, ip. by simplify_eq.
      * destruct (Hq parent child Hspends Hgone) as [[->|Hrest]%elem_of_cons|Hc].
        -- right. by left.
        -- left. apply elem_of_app. by left.
        -- right. by right.
  - split_and!; [done|done|].
    intros parent child (e & _ & _ & He & _) Hgone. congruence.
Qed.

Lemma remove_closed origTx removed pool :
  pool_indexed pool → descendant_closed pool (remove origTx removed true pool).1.
Proof.
  intros Hidx.
  destruct (remove_unfold origTx removed true pool)
    as (fuel & p1 & r1 & Hrun & ->). simpl.
  pose proof (remove_loop_closed _ _ _ _ _ _ Hidx Hrun) as Hclosed.
  intros parent child Hspends Hgone. by apply (Hclosed parent child).
Qed.

Lemma descendant_closed_trans pool p p' :
  pool_indexed pool → pool_indexed p → pool_shrinks pool p → pool_shrinks p p' →
  descendant_closed pool p → descendant_closed p p' → descendant_closed pool p'.
Proof.
  intros Hidx Hidxp Hs Hs' Hc Hc' parent child Hspends Hgone.
  destruct (mapTx p !! parent) as [e|] eqn:Hparent.
  - destruct (mapTx p !! child) as [ec|] eqn:Hchild.
    + eapply Hc'; [|exact Hgone].
      eapply spends_from_restrict; [exact Hidx|exact Hidxp|exact Hs|exact Hspends| |];
        by eexists.
    + eapply lookup_weaken_None; [exact Hchild | apply Hs'].
  - eapply lookup_weaken_None; [by eapply Hc | apply Hs'].
Qed.

Lemma descendant_closed_refl pool : descendant_closed pool pool.
Proof. intros parent child (e & _ & _ & He & _) Hgone. congruence. Qed.

(** In a closed pool the descendants of a missing entry are missing. *)
Lemma descendant_closed_descends pool p root h :
  descendant_closed pool p → descends pool root h →
  mapTx p !! root = None → mapTx p !! h = None.
Proof.
  intros Hc Hd. induction Hd as [|x y z Hxy _ IH]; [done|].
  intros Hgone. apply IH. by eapply Hc.
Qed.

(** A recursive [remove] takes out the transaction's descendants, and, for
    a transaction that is not in the pool, the pool transactions spending
    its outputs with their descendants. *)
Lemma remove_descendants_gone origTx removed pool :
  pool_indexed pool →
  let after := (remove origTx removed true pool).1 in
  (∀ h, descends pool (GetHash origTx) h → mapTx after !! h = None)
  ∧ (mapTx pool !! GetHash origTx = None →
     ∀ i ip h, (i < length (vout origTx))%nat →
       mapNextTx pool !! mkCOutPoint (GetHash origTx) i = Some ip →
       descends pool (GetHash (ptx ip)) h → mapTx after !! h = None).
Proof.
  intros Hidx after. subst after.
  pose proof (remove_closed origTx removed pool Hidx) as Hclosed.
  destruct (remove_unfold origTx removed true pool)
    as (fuel & p1 & r1 & Hrun & Heq). rewrite Heq in *. simpl in *.
  split.
  - intros h Hd. eapply descendant_closed_descends; [exact Hclosed | exact Hd |].
    eapply remove_loop_queue_gone; [exact Hrun | apply list_elem_of_here].
  - intros Habs i ip h Hi Hrow Hd.
    eapply descendant_closed_descends; [exact Hclosed | exact Hd |].
    eapply remove_loop_queue_gone; [exact Hrun|].
    unfold remove_queue. rewrite Habs.
    rewrite bool_decide_eq_false_2 by (by intros []). simpl.
    apply list_elem_of_further, elem_of_spenders_of. by exists i, ip.
Qed.

(** ** Checking the agreement of a given pool *)

Section IndexCheck.
Context `{Countable K} {V : Type}.
Variable owner : V → CTransaction.
Variable keys : CTransaction → list K.

Lemma index_covers_check_sound txs m :
  index_covers_check owner keys txs m = true → index_covers owner keys txs m.
Proof.
  intros Hc%bool_decide_eq_true h e k Hin Hk.
  specialize (Hc h e Hin). rewrite Forall_forall in Hc. by apply Hc.
Qed.

Lemma index_sound_check_sound txs m :
  index_sound_check owner keys txs m = true → index_sound owner keys txs m.
Proof.
  intros Hc%bool_decide_eq_true k v Hrow.
  destruct (Hc k v Hrow) as [Htx Hk].
  destruct (txs !! GetHash (owner v)) as [e|]; simplify_eq/=. by exists e.
Qed.
End IndexCheck.

Lemma pool_indexed_check_sound pool :
  pool_indexed_check pool = true → pool_indexed pool.
Proof.
  unfold pool_indexed_check. rewrite !andb_true_iff.
  intros [[[[[[[[Hk H1] H2] H3] H4] H5] H6] H7] H8].
  split; auto using index_covers_check_sound, index_sound_check_sound.
  by apply bool_decide_eq_true in Hk.
Qed.

(** ** remove, applied twice *)

(** C6 (as stated, refuted): a recursive [remove] of a transaction that is
    not in the pool still removes the pool transactions that spend its
    outputs, so the pool does not stay unchanged.  Here [ex_a] is absent
    from [ex_pool_b] and its child [ex_b] is removed. *)
Lemma remove_absent_changes_pool :
  pool_indexed_check ex_pool_b = true
  ∧ mapTx ex_pool_b !! GetHash ex_a = None
  ∧ mapTx ex_pool_b !! GetHash ex_b = Some (ex_entry ex_b 1000)
  ∧ mapTx (remove ex_a [] true ex_pool_b).1 !! GetHash ex_b = None
  ∧ (remove ex_a [] true ex_pool_b).1 ≠ ex_pool_b.
Proof.
  assert (mapTx (remove ex_a [] true ex_pool_b).1 !! GetHash ex_b = None) as Hgone
    by (by vm_compute).
  split_and!; [by vm_compute | by vm_compute | by vm_compute | done |].
  intros Heq. rewrite Heq in Hgone. by vm_compute in Hgone.
Qed.

(** C6 (amended): on a pool whose cross maps agree with its entries, and
    for a transaction that is the one stored under its txid when the pool
    has an entry for it, applying [remove(tx, out, recursive)] a second time
    changes neither the pool nor the out-list.  [remove] of a transaction
    that is not in the pool leaves the pool and the out-list unchanged when
    [recursive] is false or no pool transaction spends one of its outputs
    (the out-list passed in naming no item of the weighted tree).  With
    [recursive] true, [remove] takes out every pool transaction that spends
    one of the transaction's outputs, and every pool descendant of such a
    transaction, whether the transaction itself is in the pool or not. *)
Theorem remove_twice (origTx : CTransaction) (removed : list CTransaction)
    (fRecursive : bool) (pool : CTxMemPool) :
  pool_indexed pool →
  (∀ e, mapTx pool !! GetHash origTx = Some e → GetTx e = origTx) →
  let once := remove origTx removed fRecursive pool in
  remove origTx once.2 fRecursive once.1 = once
  ∧ (mapTx pool !! GetHash origTx = None →
     fRecursive = false
     ∨ spenders_of (mapNextTx pool) (GetHash origTx) (length (vout origTx)) = [] →
     Forall (λ tx, ∀ item, item ∈ weightedTxTree pool → item.1 ≠ GetHash tx) removed →
     once = (pool, removed))
  ∧ (fRecursive = true →
     ∀ i ip h, (i < length (vout origTx))%nat →
       mapNextTx pool !! mkCOutPoint (GetHash origTx) i = Some ip →
       descends pool (GetHash (ptx ip)) h →
       mapTx once.1 !! h = None).
Proof.
  intros Hidx Hsame once. split_and!.
  - subst once.
    destruct (remove_unfold origTx removed fRecursive pool)
      as (fuel & p1 & r1 & Hrun & ->). simpl.
    rewrite remove_absent; simpl.
    + by rewrite tree_remove_all_twice.
    + eapply remove_loop_queue_gone; [exact Hrun | apply list_elem_of_here].
    + destruct fRecursive; [right | by left].
      apply spenders_of_nil.
      eapply remove_loop_outputs_unspent; [exact Hidx | exact Hsame | | exact Hrun].
      intros i ip Hi Hrow. unfold remove_queue. simpl.
      destruct (mapTx pool !! GetHash origTx) as [e|] eqn:Hin.
      * right. split; [apply list_elem_of_here | by eexists].
      * left. rewrite bool_decide_eq_false_2 by (by intros []). simpl.
        apply list_elem_of_further, elem_of_spenders_of. by exists i, ip.
  - intros Habs Hleaf Htree. subst once.
    rewrite remove_absent by done.
    by rewrite tree_remove_all_none, set_weightedTxTree_same.
  - intros -> i ip h Hi Hrow Hd. subst once.
    destruct (remove_descendants_gone origTx removed pool Hidx) as [Hin Hout].
    destruct (mapTx pool !! GetHash origTx) as [e|] eqn:He.
    + apply Hin. eapply rtc_l; [|exact Hd].
      exists e, i, ip. rewrite (Hsame e eq_refl). by split_and!.
    + by eapply Hout.
Qed.

Lemma remove_twice_witness :
  let once := remove ex_a [] true ex_pool_b in
  remove ex_a once.2 true once.1 = once
  ∧ (mapTx ex_pool_b !! GetHash ex_a = None →
     true = false
     ∨ spenders_of (mapNextTx ex_pool_b) (GetHash ex_a) (length (vout ex_a)) = [] →
     Forall (λ tx, ∀ item, item ∈ weightedTxTree ex_pool_b → item.1 ≠ GetHash tx) [] →
     once = (ex_pool_b, []))
  ∧ (true = true →
     ∀ i ip h, (i < length (vout ex_a))%nat →
       mapNextTx ex_pool_b !! mkCOutPoint (GetHash ex_a) i = Some ip →
       descends ex_pool_b (GetHash (ptx ip)) h →
       mapTx once.1 !! h = None).
Proof.
  apply (remove_twice ex_a [] true ex_pool_b).
  - apply pool_indexed_check_sound. vm_compute. reflexivity.
  - intros e He. vm_compute in He. discriminate.
Defined.

(** ** removeConflicts *)

Lemma spends_from_mono pool pool' parent child :
  pool_shrinks pool pool' → spends_from pool' parent child → spends_from pool parent child.
Proof.
  intros [] (e & i & ip & He & Hi & Hrow & Hc).
  exists e, i, ip. split_and!; try done; by eapply lookup_weaken.
Qed.

Lemma descends_mono pool pool' root h :
  pool_shrinks pool pool' → descends pool' root h → descends pool root h.
Proof.
  intros Hs. apply rtc_subrel. intros ??. by apply spends_from_mono.
Qed.

(** Whatever [remove] takes out of the pool is the transaction or one of
    its descendants. *)
Lemma remove_removes_descendants origTx removed fRecursive pool h :
  is_Some (mapTx pool !! GetHash origTx) →
  is_Some (mapTx pool !! h) →
  mapTx (remove origTx removed fRecursive pool).1 !! h = None →
  descends pool (GetHash origTx) h.
Proof.
  intros Hroot Hin Hout.
  destruct (remove_unfold origTx removed fRecursive pool)
    as (fuel & p1 & r1 & Hrun & Heq). rewrite Heq in Hout. simpl in Hout.
  apply (remove_loop_inv fRecursive (λ q p _,
           pool_shrinks pool p
           ∧ (∀ h', h' ∈ q → descends pool (GetHash origTx) h')
           ∧ ∀ h', is_Some (mapTx pool !! h') → mapTx p !! h' = None →
               descends pool (GetHash origTx) h')) in Hrun.
  - destruct Hrun as (_ & _ & Hend). by apply Hend.
  - intros h' rest p r (Hs & Hq & Hr) _. split_and!; [done| |done].
    intros h'' Hin'. by apply Hq, list_elem_of_further.
  - intros h' rest p r e (Hs & Hq & Hr) He. split_and!.
    + etrans; [exact Hs | apply pool_shrinks_erase_entry].
    + intros h'' Hin'.
      assert (h'' ∈ rest ∨ h'' ∈ spenders_of (mapNextTx p) h' (length (vout (GetTx e))))
        as [Hrest|Hkid].
      { destruct fRecursive; [by apply elem_of_app | by left]. }
      * by apply Hq, list_elem_of_further.
      * apply elem_of_spenders_of in Hkid as (i & ip & Hi & Hrow & Hkid).
        eapply rtc_r; [apply Hq, list_elem_of_here|].
        eapply spends_from_mono; [exact Hs|]. by exists e, i, ip.
    + intros h'' Hsome Hnone. simpl in Hnone.
      apply lookup_delete_None in Hnone as [->|Hnone]; [|by apply Hr].
      apply Hq, list_elem_of_here.
  - split_and!; [done| |].
    + unfold remove_queue. rewrite bool_decide_eq_true_2 by done.
      rewrite andb_false_r. intros h' ->%list_elem_of_singleton. apply rtc_refl.
    + intros h' [e He] Hnone. congruence.
Qed.

Section ConflictFold.
Context `{Countable K} {V : Type}.
Variable getm : CTxMemPool → gmap K V.
Variable owner : V → CTransaction.
Variable keys : CTransaction → list K.
Hypothesis getm_sound :
  ∀ p, pool_indexed p → index_sound owner keys (mapTx p) (getm p).
Hypothesis getm_covers :
  ∀ p, pool_indexed p → index_covers owner keys (mapTx p) (getm p).
Hypothesis getm_shrinks : ∀ p p', pool_shrinks p p' → getm p' ⊆ getm p.
Hypothesis keys_overlap : ∀ a b k, k ∈ keys a → k ∈ keys b → overlaps a b.

Variable tx : CTransaction.
Variable pool : CTxMemPool.

Lemma rows_own_shrinks ks p p' : pool_shrinks p p' → rows_own getm owner tx ks p → rows_own getm owner tx ks p'.
Proof.
  intros Hs Hown k v Hk Hrow. eapply Hown; [done|].
  eapply lookup_weaken; [exact Hrow | by apply getm_shrinks].
Qed.

Lemma conflict_step_shrinks st k : pool_shrinks st.1 ((conflict_step getm owner tx) st k).1.
Proof.
  unfold conflict_step, remove_conflict.
  destruct (owner <$> getm st.1 !! k) as [c|]; [|done].
  destruct (tx_ne c tx); [apply remove_shrinks | done].
Qed.

Lemma conflict_fold_shrinks ks st :
  pool_shrinks st.1 (foldl (conflict_step getm owner tx) st ks).1.
Proof.
  revert st. induction ks as [|k ks IH]; intros st; simpl; [done|].
  etrans; [apply conflict_step_shrinks | apply IH].
Qed.

Lemma conflict_step_inv st k :
  k ∈ keys tx → conflict_inv tx pool st.1 →
  conflict_inv tx pool ((conflict_step getm owner tx) st k).1 ∧ rows_own getm owner tx [k] ((conflict_step getm owner tx) st k).1.
Proof.
  intros Hk (Hidx & Hs & Htrace). unfold conflict_step, remove_conflict.
  destruct (getm st.1 !! k) as [v|] eqn:Hrow; simpl.
  - destruct (getm_sound _ Hidx _ _ Hrow) as (e & He & Htx & Hkc).
    unfold tx_ne. destruct (N.eqb_spec (GetHash (owner v)) (GetHash tx)) as [Heq|Hne]; simpl.
    + split; [done|]. intros k' v' ->%list_elem_of_singleton Hrow'. congruence.
    + pose proof (remove_shrinks (owner v) st.2 true st.1) as Hs'.
      split; [split_and!|].
      * by apply remove_indexed.
      * by etrans.
      * intros h Hsome Hnone.
        destruct (mapTx st.1 !! h) as [eh|] eqn:Hh; [|by apply Htrace].
        exists (GetHash (owner v)). split.
        -- exists e. split_and!; [|done|].
           ++ eapply lookup_weaken; [exact He | apply Hs].
           ++ rewrite Htx. by eapply keys_overlap.
        -- eapply descends_mono; [exact Hs|].
           eapply remove_removes_descendants; [by eexists | by eexists | exact Hnone].
      * intros k' v' ->%list_elem_of_singleton Hrow'. exfalso.
        pose proof (lookup_weaken _ _ _ _ Hrow' (getm_shrinks _ _ Hs')) as Hrow''.
        rewrite Hrow in Hrow''. simplify_eq.
        destruct (getm_sound _ (remove_indexed (owner v') st.2 true st.1 Hidx) _ _ Hrow')
          as (e' & He' & _).
        by rewrite remove_gone in He'.
  - split; [done|]. intros k' v' ->%list_elem_of_singleton Hrow'. congruence.
Qed.

Lemma conflict_fold_inv ks st :
  (∀ k, k ∈ ks → k ∈ keys tx) → conflict_inv tx pool st.1 →
  conflict_inv tx pool (foldl (conflict_step getm owner tx) st ks).1 ∧ rows_own getm owner tx ks (foldl (conflict_step getm owner tx) st ks).1.
Proof.
  revert st. induction ks as [|k ks IH]; intros st Hks Hinv; simpl.
  - split; [done|]. intros k v Hk. by apply elem_of_nil in Hk.
  - destruct (conflict_step_inv st k) as [Hinv' Hown]; [apply Hks, list_elem_of_here|done|].
    destruct (IH ((conflict_step getm owner tx) st k)) as [Hinv'' Hown'];
      [intros k' Hk'; by apply Hks, list_elem_of_further | done |].
    split; [done|]. intros k' v' Hk' Hrow.
    apply elem_of_cons in Hk' as [->|Hk']; [|by eapply Hown'].
    eapply (rows_own_shrinks [k]); [apply conflict_fold_shrinks | exact Hown | | exact Hrow].
    apply list_elem_of_here.
Qed.

(** When [tx] itself is in the pool, every row under its keys is its own
    and the loop removes nothing. *)
Lemma conflict_fold_self ks st e :
  pool_indexed st.1 → mapTx st.1 !! GetHash tx = Some e → GetTx e = tx →
  (∀ k, k ∈ ks → k ∈ keys tx) →
  foldl (conflict_step getm owner tx) st ks = st.
Proof.
  intros Hidx He Htx. induction ks as [|k ks IH]; intros Hks; simpl; [done|].
  assert ((conflict_step getm owner tx) st k = st) as ->.
  { unfold conflict_step.
    rewrite (getm_covers _ Hidx _ _ k He), Htx by (rewrite Htx; apply Hks, list_elem_of_here).
    unfold remove_conflict, tx_ne. by rewrite N.eqb_refl. }
  apply IH. intros k' Hk'. by apply Hks, list_elem_of_further.
Qed.

(** No surviving entry other than [tx] has one of the keys [ks]. *)
Lemma rows_own_no_overlap ks p h e k :
  pool_indexed p → rows_own getm owner tx ks p →
  mapTx p !! h = Some e → h ≠ GetHash tx → k ∈ keys (GetTx e) → k ∉ ks.
Proof.
  intros Hidx Hown He Hne Hk Hin.
  pose proof (getm_covers _ Hidx _ _ _ He Hk) as Hrow.
  destruct (getm p !! k) as [v|] eqn:Hv; simplify_eq/=.
  apply Hne. rewrite <- (idx_keyed _ Hidx _ _ He).
  rewrite <- (Hown k v Hin Hv). congruence.
Qed.
End ConflictFold.

Lemma foldl_ext_eq {A B} (f g : A → B → A) (a a' : A) (l : list B) :
  (∀ a b, f a b = g a b) → a = a' → foldl f a l = foldl g a' l.
Proof.
  intros Hfg <-. revert a.
  induction l as [|b l IH]; intros a; simpl; [done|]. by rewrite Hfg, IH.
Qed.

(** [removeConflicts] as four runs of the same look-up loop. *)
Lemma removeConflicts_unfold tx removed pool :
  removeConflicts tx removed pool
  = foldl (conflict_step mapOrchardNullifiers id tx)
      (foldl (conflict_step mapSaplingNullifiers id tx)
         (foldl (conflict_step mapSproutNullifiers id tx)
            (foldl (conflict_step mapNextTx ptx tx) (pool, removed) (prevouts tx))
            (sprout_nullifiers tx))
         (sapling_nullifiers tx))
      (GetOrchardNullifiers tx).
Proof.
  assert (∀ (o : option CTransaction), id <$> o = o) as Hid by (by intros []).
  unfold removeConflicts, prevouts, conflict_step. rewrite foldl_fmap.
  repeat (apply foldl_ext_eq; [intros; by rewrite ?Hid|]).
  done.
Qed.

(** C2 (as stated, refuted): [removeConflicts] removes recursively, so an
    entry that shares nothing with [tx] goes when it spends an output of a
    conflicting entry.  [ex_a'] spends the same output as [ex_a]; [ex_b]
    spends an output of [ex_a], does not overlap [ex_a'], and is removed. *)
Lemma removeConflicts_removes_descendant :
  pool_indexed_check ex_pool_ab = true
  ∧ mapTx ex_pool_ab !! GetHash ex_b = Some (ex_entry ex_b 1000)
  ∧ ¬ overlaps ex_b ex_a'
  ∧ mapTx (removeConflicts ex_a' [] ex_pool_ab).1 !! GetHash ex_b = None.
Proof.
  split_and!; [by vm_compute | by vm_compute | | by vm_compute].
  unfold overlaps, prevouts, sprout_nullifiers, sapling_nullifiers; simpl.
  intros [(k & H1 & H2)|[(k & H1 & H2)|[(k & H1 & H2)|(k & H1 & H2)]]];
    apply list_elem_of_In in H1, H2; simpl in H1, H2;
    intuition (subst; discriminate).
Qed.

(** What the four look-up loops establish together. *)
Lemma removeConflicts_spec (tx : CTransaction) (removed : list CTransaction)
    (pool : CTxMemPool) :
  pool_indexed pool →
  let after := (removeConflicts tx removed pool).1 in
  mapTx after ⊆ mapTx pool
  ∧ (∀ h e, mapTx after !! h = Some e → h ≠ GetHash tx → ¬ overlaps (GetTx e) tx)
  ∧ (∀ h, is_Some (mapTx pool !! h) → mapTx after !! h = None →
       ∃ c, conflicts_with pool tx c ∧ descends pool c h)
  ∧ (∀ e, mapTx pool !! GetHash tx = Some e → GetTx e = tx →
       removeConflicts tx removed pool = (pool, removed)).
Proof.
  intros Hidx after. subst after. rewrite removeConflicts_unfold.
  set (s1 := foldl (conflict_step mapNextTx ptx tx) (pool, removed) (prevouts tx)).
  set (s2 := foldl (conflict_step mapSproutNullifiers id tx) s1 (sprout_nullifiers tx)).
  set (s3 := foldl (conflict_step mapSaplingNullifiers id tx) s2 (sapling_nullifiers tx)).
  set (s4 := foldl (conflict_step mapOrchardNullifiers id tx) s3 (GetOrchardNullifiers tx)).
  assert (conflict_inv tx pool pool) as H0.
  { split_and!; [done|done|]. intros h [e He] Hnone. congruence. }
  destruct (conflict_fold_inv mapNextTx ptx prevouts
              (λ p, idx_next_sound p) (λ p p', shr_next p p')
              (λ a b k Ha Hb, or_introl (ex_intro _ k (conj Ha Hb)))
              tx pool (prevouts tx) (pool, removed)) as [H1 R1]; [done|done|].
  fold s1 in H1, R1.
  destruct (conflict_fold_inv mapSproutNullifiers id sprout_nullifiers
              (λ p, idx_sprout_sound p) (λ p p', shr_sprout p p')
              (λ a b k Ha Hb, or_intror (or_introl (ex_intro _ k (conj Ha Hb))))
              tx pool (sprout_nullifiers tx) s1) as [H2 R2]; [done|done|].
  fold s2 in H2, R2.
  destruct (conflict_fold_inv mapSaplingNullifiers id sapling_nullifiers
              (λ p, idx_sapling_sound p) (λ p p', shr_sapling p p')
              (λ a b k Ha Hb, or_intror (or_intror (or_introl (ex_intro _ k (conj Ha Hb)))))
              tx pool (sapling_nullifiers tx) s2) as [H3 R3]; [done|done|].
  fold s3 in H3, R3.
  destruct (conflict_fold_inv mapOrchardNullifiers id GetOrchardNullifiers
              (λ p, idx_orchard_sound p) (λ p p', shr_orchard p p')
              (λ a b k Ha Hb, or_intror (or_intror (or_intror (ex_intro _ k (conj Ha Hb)))))
              tx pool (GetOrchardNullifiers tx) s3) as [H4 R4]; [done|done|].
  fold s4 in H4, R4.
  pose proof (conflict_fold_shrinks mapSproutNullifiers id tx (sprout_nullifiers tx) s1) as S2.
  pose proof (conflict_fold_shrinks mapSaplingNullifiers id tx (sapling_nullifiers tx) s2) as S3.
  pose proof (conflict_fold_shrinks mapOrchardNullifiers id tx (GetOrchardNullifiers tx) s3) as S4.
  fold s2 in S2. fold s3 in S3. fold s4 in S4.
  destruct H4 as (Hidx4 & Hs4 & Htrace).
  split_and!.
  - apply Hs4.
  - intros h e He Hne [(k & Ha & Hb)|[(k & Ha & Hb)|[(k & Ha & Hb)|(k & Ha & Hb)]]].
    + eapply (rows_own_no_overlap mapNextTx ptx prevouts (λ p, idx_next_covers p)
                tx (prevouts tx) s4.1); eauto.
      eapply (rows_own_shrinks mapNextTx ptx (λ p p', shr_next p p')); [|exact R1].
      etrans; [exact S2|]. etrans; [exact S3 | exact S4].
    + eapply (rows_own_no_overlap mapSproutNullifiers id sprout_nullifiers
                (λ p, idx_sprout_covers p) tx (sprout_nullifiers tx) s4.1); eauto.
      eapply (rows_own_shrinks mapSproutNullifiers id (λ p p', shr_sprout p p')); [|exact R2].
      etrans; [exact S3 | exact S4].
    + eapply (rows_own_no_overlap mapSaplingNullifiers id sapling_nullifiers
                (λ p, idx_sapling_covers p) tx (sapling_nullifiers tx) s4.1); eauto.
      eapply (rows_own_shrinks mapSaplingNullifiers id (λ p p', shr_sapling p p'));
        [exact S4 | exact R3].
    + eapply (rows_own_no_overlap mapOrchardNullifiers id GetOrchardNullifiers
                (λ p, idx_orchard_covers p) tx (GetOrchardNullifiers tx) s4.1); eauto.
  - exact Htrace.
  - intros e He Htx. subst s4 s3 s2 s1.
    rewrite (conflict_fold_self mapNextTx ptx prevouts (λ p, idx_next_covers p)
               tx (prevouts tx) (pool, removed) e) by done.
    rewrite (conflict_fold_self mapSproutNullifiers id sprout_nullifiers
               (λ p, idx_sprout_covers p) tx (sprout_nullifiers tx) (pool, removed) e) by done.
    rewrite (conflict_fold_self mapSaplingNullifiers id sapling_nullifiers
               (λ p, idx_sapling_covers p) tx (sapling_nullifiers tx) (pool, removed) e) by done.
    by rewrite (conflict_fold_self mapOrchardNullifiers id GetOrchardNullifiers
               (λ p, idx_orchard_covers p) tx (GetOrchardNullifiers tx) (pool, removed) e).
Qed.

Lemma remove_keeps_closed pool p origTx removed :
  pool_indexed pool → pool_indexed p → pool_shrinks pool p →
  descendant_closed pool p →
  descendant_closed pool (remove origTx removed true p).1.
Proof.
  intros Hidx Hidxp Hs Hc.
  eapply descendant_closed_trans; [exact Hidx|exact Hidxp|exact Hs| |exact Hc|].
  - apply remove_shrinks.
  - by apply remove_closed.
Qed.

Lemma conflict_fold_closed `{Countable K} {V} (getm : CTxMemPool → gmap K V)
    (owner : V → CTransaction) tx pool ks st :
  pool_indexed pool →
  pool_indexed st.1 ∧ pool_shrinks pool st.1 ∧ descendant_closed pool st.1 →
  let r := foldl (conflict_step getm owner tx) st ks in
  pool_indexed r.1 ∧ pool_shrinks pool r.1 ∧ descendant_closed pool r.1.
Proof.
  intros Hidx. revert st. induction ks as [|k ks IH]; intros st Hst; simpl; [done|].
  apply IH. destruct Hst as (Hi & Hs & Hc).
  unfold conflict_step, remove_conflict.
  destruct (owner <$> getm st.1 !! k) as [c|]; [|done].
  destruct (tx_ne c tx); [|done]. split_and!.
  - by apply remove_indexed.
  - etrans; [exact Hs | apply remove_shrinks].
  - by apply remove_keeps_closed.
Qed.

(** The removals of [removeConflicts] are recursive: whatever it takes out
    goes with its descendants. *)
Lemma removeConflicts_closed tx removed pool :
  pool_indexed pool → descendant_closed pool (removeConflicts tx removed pool).1.
Proof.
  intros Hidx. rewrite removeConflicts_unfold.
  apply conflict_fold_closed; [done|].
  apply conflict_fold_closed; [done|].
  apply conflict_fold_closed; [done|].
  apply conflict_fold_closed; [done|].
  split_and!; [done | done | apply descendant_closed_refl].
Qed.

(** C2 (amended): on a pool whose cross maps agree with its entries,
    [removeConflicts(tx)] adds nothing; no entry other than [tx] that
    overlaps [tx] survives; every entry it removes is an entry other than
    [tx] that overlaps [tx], or a pool descendant of such an entry; the
    removals are recursive, so every pool descendant of an overlapping
    entry other than [tx] is removed as well; and when [tx] itself is in
    the pool nothing is removed. *)
Theorem removeConflicts_removes (tx : CTransaction) (removed : list CTransaction)
    (pool : CTxMemPool) :
  pool_indexed pool →
  let after := (removeConflicts tx removed pool).1 in
  mapTx after ⊆ mapTx pool
  ∧ (∀ h e, mapTx after !! h = Some e → h ≠ GetHash tx → ¬ overlaps (GetTx e) tx)
  ∧ (∀ h, is_Some (mapTx pool !! h) → mapTx after !! h = None →
       ∃ c, conflicts_with pool tx c ∧ descends pool c h)
  ∧ (∀ c h, conflicts_with pool tx c → descends pool c h → mapTx after !! h = None)
  ∧ (∀ e, mapTx pool !! GetHash tx = Some e → GetTx e = tx →
       removeConflicts tx removed pool = (pool, removed)).
Proof.
  intros Hidx after.
  destruct (removeConflicts_spec tx removed pool Hidx) as (Hsub & Hnone & Hupper & Hself).
  fold after in Hsub, Hnone, Hupper.
  split_and!; [done | done | done | | done].
  intros c h (e & He & Hne & Hov) Hd.
  eapply descendant_closed_descends; [by apply removeConflicts_closed | exact Hd |].
  destruct (mapTx after !! c) as [e'|] eqn:Hc; [|done]. exfalso.
  pose proof (lookup_weaken _ _ _ _ Hc Hsub) as He'.
  apply (Hnone c e' Hc Hne). congruence.
Qed.

Lemma removeConflicts_removes_witness :
  let after := (removeConflicts ex_a' [] ex_pool_ab).1 in
  mapTx after ⊆ mapTx ex_pool_ab
  ∧ (∀ h e, mapTx after !! h = Some e → h ≠ GetHash ex_a' → ¬ overlaps (GetTx e) ex_a')
  ∧ (∀ h, is_Some (mapTx ex_pool_ab !! h) → mapTx after !! h = None →
       ∃ c, conflicts_with ex_pool_ab ex_a' c ∧ descends ex_pool_ab c h)
  ∧ (∀ c h, conflicts_with ex_pool_ab ex_a' c → descends ex_pool_ab c h →
       mapTx after !! h = None)
  ∧ (∀ e, mapTx ex_pool_ab !! GetHash ex_a' = Some e → GetTx e = ex_a' →
       removeConflicts ex_a' [] ex_pool_ab = (ex_pool_ab, [])).
Proof.
  apply (removeConflicts_removes ex_a' [] ex_pool_ab).
  apply pool_indexed_check_sound. vm_compute. reflexivity.
Defined.

(** ** Reachable pools keep their cross maps in agreement *)

Section AssignAll.
Context `{Countable K} {V : Type}.
Variable owner : V → CTransaction.
Variable tx : CTransaction.

Lemma assign_pairs_owner (v : nat → K → V) (l : list (nat * K)) (m : gmap K V) k :
  (∀ i k', owner (v i k') = tx) →
  owner <$> foldl (λ acc ik, <[ik.2 := v ik.1 ik.2]> acc) m l !! k
  = if decide (k ∈ l.*2) then Some tx else owner <$> m !! k.
Proof.
  intros Hv. revert m. induction l as [|[i k'] l IH]; intros m.
  - by rewrite decide_False by apply not_elem_of_nil.
  - rewrite fmap_cons. cbn [foldl snd fst]. rewrite IH.
    destruct (decide (k ∈ l.*2)) as [Hin|Hout], (decide (k ∈ k' :: l.*2)) as [Hin'|Hout'];
      try done.
    + exfalso. apply Hout'. by apply list_elem_of_further.
    + apply elem_of_cons in Hin' as [->|?]; [|done].
      rewrite lookup_insert_eq. simpl. by rewrite Hv.
    + rewrite lookup_insert_ne; [done|]. intros ->. apply Hout', list_elem_of_here.
Qed.

Lemma assign_all_owner (v : nat → K → V) (keys : list K) (m : gmap K V) k :
  (∀ i k', owner (v i k') = tx) →
  owner <$> assign_all keys v m !! k
  = if decide (k ∈ keys) then Some tx else owner <$> m !! k.
Proof.
  intros Hv. unfold assign_all. rewrite assign_pairs_owner by done.
  by rewrite snd_zip by (by rewrite length_seq).
Qed.

Lemma assign_all_other (v : nat → K → V) (keys : list K) (m : gmap K V) k :
  k ∉ keys → assign_all keys v m !! k = m !! k.
Proof.
  intros Hout. unfold assign_all.
  assert (k ∉ (zip (seq 0 (length keys)) keys).*2) as Hout'
    by (by rewrite snd_zip by (by rewrite length_seq)).
  revert m Hout'. generalize (zip (seq 0 (length keys)) keys) as l.
  induction l as [|[i k'] l IH]; intros m Hl; simpl; [done|].
  apply not_elem_of_cons in Hl as [Hne Hl]. rewrite IH by done.
  by apply lookup_insert_ne.
Qed.
End AssignAll.

Section IndexInsert.
Context `{Countable K} {V : Type}.
Variable owner : V → CTransaction.
Variable keys : CTransaction → list K.
Implicit Types (txs : gmap uint256 CTxMemPoolEntry) (m : gmap K V).

(** A new entry under a fresh txid, with its rows written over keys that
    were free. *)
Lemma index_insert txs m e (v : nat → K → V) :
  (∀ i k, owner (v i k) = GetTx e) →
  txs !! GetHash (GetTx e) = None →
  (∀ k, k ∈ keys (GetTx e) → m !! k = None) →
  index_covers owner keys txs m → index_sound owner keys txs m →
  index_covers owner keys (<[GetHash (GetTx e) := e]> txs) (assign_all (keys (GetTx e)) v m)
  ∧ index_sound owner keys (<[GetHash (GetTx e) := e]> txs) (assign_all (keys (GetTx e)) v m).
Proof.
  intros Hv Hfresh Hfree Hcov Hsnd. split.
  - intros h e' k Hin Hk. rewrite (assign_all_owner owner (GetTx e)) by done.
    apply lookup_insert_Some in Hin as [[<- <-]|[Hne Hin]].
    + by rewrite decide_True.
    + case_decide as Hk'; [|by eapply Hcov].
      pose proof (Hcov _ _ _ Hin Hk) as Hrow. by rewrite (Hfree k Hk') in Hrow.
  - intros k v' Hrow.
    pose proof (assign_all_owner owner (GetTx e) v (keys (GetTx e)) m k Hv) as Hown.
    rewrite Hrow in Hown. simpl in Hown. case_decide as Hk.
    + injection Hown as Hown. exists e. rewrite Hown.
      split_and!; [apply lookup_insert_eq | done | done].
    + rewrite assign_all_other in Hrow by done.
      destruct (Hsnd _ _ Hrow) as (e' & Hin & Htx & Hk').
      exists e'. split_and!; [|done|done].
      rewrite lookup_insert_ne; [done|]. intros Heq. by rewrite <- Heq, Hfresh in Hin.
Qed.

(** Changing an entry without touching its transaction. *)
Lemma index_alter txs m (f : CTxMemPoolEntry → CTxMemPoolEntry) h :
  (∀ e, GetTx (f e) = GetTx e) →
  (keyed_by_hash txs → keyed_by_hash (alter f h txs))
  ∧ (index_covers owner keys txs m → index_covers owner keys (alter f h txs) m)
  ∧ (index_sound owner keys txs m → index_sound owner keys (alter f h txs) m).
Proof.
  intros Hf. split_and!.
  - intros Hkey h' e Hin. apply lookup_alter_Some in Hin as [(-> & e' & Hin & ->)|[_ Hin]].
    + rewrite Hf. by apply Hkey.
    + by apply Hkey.
  - intros Hcov h' e k Hin Hk.
    apply lookup_alter_Some in Hin as [(-> & e' & Hin & ->)|[_ Hin]].
    + rewrite Hf in *. by eapply Hcov.
    + by eapply Hcov.
  - intros Hsnd k v Hrow. destruct (Hsnd _ _ Hrow) as (e & Hin & Htx & Hk).
    destruct (decide (h = GetHash (owner v))) as [->|Hne].
    + exists (f e). rewrite lookup_alter_eq, Hin, Hf. done.
    + exists e. by rewrite lookup_alter_ne.
Qed.
End IndexInsert.

Lemma pool_indexed_alter f h pool :
  (∀ e, GetTx (f e) = GetTx e) →
  pool_indexed pool → pool_indexed (set_mapTx (alter f h (mapTx pool)) pool).
Proof.
  intros Hf []. split; simpl;
    first [by apply (index_alter ptx prevouts (mapTx pool) ∅ f h Hf)
          | by apply (index_alter ptx prevouts _ _ f h Hf)
          | by apply (index_alter id sprout_nullifiers _ _ f h Hf)
          | by apply (index_alter id sapling_nullifiers _ _ f h Hf)
          | by apply (index_alter id GetOrchardNullifiers _ _ f h Hf)].
Qed.

Lemma addUnchecked_indexed tx_weight hash entry fCurrentEstimate pool :
  pool_indexed pool → admissible hash entry pool →
  pool_indexed (addUnchecked tx_weight hash entry fCurrentEstimate pool).1.
Proof.
  intros Hidx (-> & Hfresh & Hin & Hsp & Hsa & Hor).
  set (txid := GetHash (GetTx entry)) in *.
  assert (pool_indexed
            {| nCheckFrequency := nCheckFrequency pool;
               nTransactionsUpdated := wrap_u32 (nTransactionsUpdated pool + 1);
               totalTxSize := wrap_u64 (totalTxSize pool + GetTxSize entry);
               cachedInnerUsage := wrap_u64 (cachedInnerUsage pool + DynamicMemoryUsage entry);
               mapTx := <[txid := entry]> (mapTx pool);
               mapNextTx :=
                 assign_all (prevouts (GetTx entry)) (λ i _, mkCInPoint (GetTx entry) i)
                            (mapNextTx pool);
               mapDeltas := mapDeltas pool;
               mapRecentlyAddedTx :=
                 <[GetHash (GetTx entry) := GetTx entry]> (mapRecentlyAddedTx pool);
               nRecentlyAddedSequence := wrap_u64 (nRecentlyAddedSequence pool + 1);
               mapSproutNullifiers :=
                 assign_all (sprout_nullifiers (GetTx entry)) (λ _ _, GetTx entry)
                            (mapSproutNullifiers pool);
               mapSaplingNullifiers :=
                 assign_all (sapling_nullifiers (GetTx entry)) (λ _ _, GetTx entry)
                            (mapSaplingNullifiers pool);
               mapOrchardNullifiers :=
                 assign_all (GetOrchardNullifiers (GetTx entry)) (λ _ _, GetTx entry)
                            (mapOrchardNullifiers pool);
               mapAddress := mapAddress pool;
               mapAddressInserted := mapAddressInserted pool;
               mapSpent := mapSpent pool;
               mapSpentInserted := mapSpentInserted pool;
               fAddressIndex := fAddressIndex pool;
               fSpentIndex := fSpentIndex pool;
               weightedTxTree :=
                 WeightedTxTree_add (txid, tx_weight (GetTx entry) (GetFee entry))
                                    (weightedTxTree pool);
               minerPolicyEstimator :=
                 minerPolicyEstimator pool ++ [processTransaction entry fCurrentEstimate] |})
    as Hinserted.
  { destruct Hidx. split; simpl.
    - intros h e [[<- <-]|[_ He]]%lookup_insert_Some; [done | by apply idx_keyed0].
    - by apply (index_insert ptx prevouts).
    - by apply (index_insert ptx prevouts).
    - by apply (index_insert id sprout_nullifiers).
    - by apply (index_insert id sprout_nullifiers).
    - by apply (index_insert id sapling_nullifiers).
    - by apply (index_insert id sapling_nullifiers).
    - by apply (index_insert id GetOrchardNullifiers).
    - by apply (index_insert id GetOrchardNullifiers). }
  unfold addUnchecked. cbn [fst]. fold txid. rewrite Hfresh. cbn [default].
  destruct (mapDeltas pool !! txid) as [deltas|]; [|exact Hinserted].
  case_bool_decide; [|exact Hinserted].
  by apply (pool_indexed_alter (UpdateFeeDelta deltas.2) txid) in Hinserted.
Qed.

Lemma PrioritiseTransaction_indexed double_add hash dPriorityDelta nFeeDelta pool :
  pool_indexed pool →
  pool_indexed (PrioritiseTransaction double_add hash dPriorityDelta nFeeDelta pool).
Proof.
  intros Hidx. unfold PrioritiseTransaction.
  set (d := <[hash := _]> (mapDeltas pool)).
  assert (pool_indexed (set_mapDeltas d pool)) as Hd by (by destruct Hidx).
  cbn [mapTx set_mapDeltas]. destruct (mapTx pool !! hash); [|done].
  unfold modify_fee_delta. by apply pool_indexed_alter.
Qed.

Lemma conflict_fold_indexed `{Countable K} {V} (getm : CTxMemPool → gmap K V)
    (owner : V → CTransaction) tx ks st :
  pool_indexed st.1 → pool_indexed (foldl (conflict_step getm owner tx) st ks).1.
Proof.
  revert st. induction ks as [|k ks IH]; intros st Hidx; simpl; [done|].
  apply IH. unfold conflict_step, remove_conflict.
  destruct (owner <$> getm st.1 !! k) as [c|]; [|done].
  destruct (tx_ne c tx); [by apply remove_indexed | done].
Qed.

Lemma removeConflicts_indexed tx removed pool :
  pool_indexed pool → pool_indexed (removeConflicts tx removed pool).1.
Proof.
  intros Hidx. rewrite removeConflicts_unfold.
  by do 4 apply conflict_fold_indexed.
Qed.

Lemma removeForBlock_indexed vtx nBlockHeight conflicts fCurrentEstimate pool :
  pool_indexed pool →
  pool_indexed (removeForBlock vtx nBlockHeight conflicts fCurrentEstimate pool).1.
Proof.
  intros Hidx. unfold removeForBlock. cbn [fst].
  assert (pool_indexed (foldl (λ st tx, remove_block_tx tx st) (pool, conflicts) vtx).1)
    as Hswept.
  { generalize (pool, conflicts) as st, (Hidx : pool_indexed (pool, conflicts).1).
    induction vtx as [|tx vtx IH]; intros st Hst; simpl; [done|].
    apply IH. unfold remove_block_tx. cbn [fst].
    assert (pool_indexed (removeConflicts tx st.2 (remove tx [] false st.1).1).1) as Hc
      by (by apply removeConflicts_indexed, remove_indexed).
    by destruct Hc. }
  by destruct Hswept.
Qed.

(** Invariants 1 to 3 of the data model hold in every pool reached without
    [clear]. *)
Lemma reachable_indexed tx_weight double_add pool :
  reachable tx_weight double_add pool → pool_indexed pool.
Proof.
  induction 1 as [|freq pool _ IH|hash entry flag pool _ IH Hadm|tx removed rec pool _ IH
                  |tx removed pool _ IH|vtx height conflicts flag pool _ IH
                  |hash dp df pool _ IH|hash pool _ IH].
  - apply pool_indexed_check_sound. by vm_compute.
  - by destruct IH.
  - by apply addUnchecked_indexed.
  - by apply remove_indexed.
  - by apply removeConflicts_indexed.
  - by apply removeForBlock_indexed.
  - by apply PrioritiseTransaction_indexed.
  - by destruct IH.
Qed.

(** ** Sequences of recursive removals *)

(** Whatever a [remove] takes out of the pool is the transaction, a pool
    transaction spending one of its outputs, or a descendant of these. *)
Lemma remove_removes_from origTx removed fRecursive pool h :
  is_Some (mapTx pool !! h) →
  mapTx (remove origTx removed fRecursive pool).1 !! h = None →
  descends pool (GetHash origTx) h
  ∨ ∃ i ip, (i < length (vout origTx))%nat
      ∧ mapNextTx pool !! mkCOutPoint (GetHash origTx) i = Some ip
      ∧ descends pool (GetHash (ptx ip)) h.
Proof.
  intros Hin Hout.
  set (from h' := descends pool (GetHash origTx) h'
                  ∨ ∃ i ip, (i < length (vout origTx))%nat
                      ∧ mapNextTx pool !! mkCOutPoint (GetHash origTx) i = Some ip
                      ∧ descends pool (GetHash (ptx ip)) h').
  assert (∀ x y, from x → spends_from pool x y → from y) as Hstep.
  { intros x y [Hd|(i & ip & Hi & Hrow & Hd)] Hxy.
    - left. by eapply rtc_r.
    - right. exists i, ip. split_and!; [done|done|]. by eapply rtc_r. }
  destruct (remove_unfold origTx removed fRecursive pool)
    as (fuel & p1 & r1 & Hrun & Heq). rewrite Heq in Hout. simpl in Hout.
  apply (remove_loop_inv fRecursive (λ q p _,
           pool_shrinks pool p
           ∧ (∀ h', h' ∈ q → from h')
           ∧ ∀ h', is_Some (mapTx pool !! h') → mapTx p !! h' = None → from h')) in Hrun.
  - destruct Hrun as (_ & _ & Hend). by apply Hend.
  - intros h' rest p r (Hs & Hq & Hr) _. split_and!; [done| |done].
    intros h'' Hin'. by apply Hq, list_elem_of_further.
  - intros h' rest p r e (Hs & Hq & Hr) He. split_and!.
    + etrans; [exact Hs | apply pool_shrinks_erase_entry].
    + intros h'' Hin'.
      assert (h'' ∈ rest ∨ h'' ∈ spenders_of (mapNextTx p) h' (length (vout (GetTx e))))
        as [Hrest|Hkid].
      { destruct fRecursive; [by apply elem_of_app | by left]. }
      * by apply Hq, list_elem_of_further.
      * apply elem_of_spenders_of in Hkid as (i & ip & Hi & Hrow & Hkid).
        eapply Hstep; [apply Hq, list_elem_of_here|].
        eapply spends_from_mono; [exact Hs|]. by exists e, i, ip.
    + intros h'' Hsome Hnone. simpl in Hnone.
      apply lookup_delete_None in Hnone as [->|Hnone]; [|by apply Hr].
      apply Hq, list_elem_of_here.
  - split_and!; [done| |].
    + unfold remove_queue. intros h' [->|Hkid]%elem_of_cons; [left; apply rtc_refl|].
      destruct (fRecursive && _); [|by apply elem_of_nil in Hkid].
      apply elem_of_spenders_of in Hkid as (i & ip & Hi & Hrow & <-).
      right. exists i, ip. split_and!; [done|done|apply rtc_refl].
    + intros h' [e He] Hnone. congruence.
Qed.

Lemma remove_each_indexed l pool : pool_indexed pool → pool_indexed (remove_each l pool).
Proof.
  unfold remove_each. revert pool.
  induction l as [|tx l IH]; intros pool Hidx; simpl; [done|].
  by apply IH, remove_indexed.
Qed.

Lemma remove_each_shrinks l pool : pool_shrinks pool (remove_each l pool).
Proof.
  unfold remove_each. revert pool.
  induction l as [|tx l IH]; intros pool; simpl; [done|].
  etrans; [apply remove_shrinks | apply IH].
Qed.

(** A run of recursive removals leaves no child of an entry it took out. *)
Lemma remove_each_closed pool l p :
  pool_indexed pool → pool_indexed p → pool_shrinks pool p →
  descendant_closed pool p → descendant_closed pool (remove_each l p).
Proof.
  intros Hidx. unfold remove_each. revert p.
  induction l as [|tx l IH]; intros p Hi Hs Hc; simpl; [done|].
  apply IH.
  - by apply remove_indexed.
  - etrans; [exact Hs | apply remove_shrinks].
  - by apply remove_keeps_closed.
Qed.

(** And it takes out nothing but the listed pool transactions and their
    descendants. *)
Lemma remove_each_upper pool l p :
  pool_shrinks pool p →
  (∀ tx, tx ∈ l → ∃ e, mapTx pool !! GetHash tx = Some e ∧ GetTx e = tx) →
  ∀ h, is_Some (mapTx p !! h) → mapTx (remove_each l p) !! h = None →
    ∃ tx, tx ∈ l ∧ descends pool (GetHash tx) h.
Proof.
  unfold remove_each. revert p.
  induction l as [|tx l IH]; intros p Hs Hl h Hin Hout; simpl in Hout.
  - destruct Hin. congruence.
  - destruct (mapTx (remove tx [] true p).1 !! h) as [e|] eqn:Hh.
    + destruct (IH (remove tx [] true p).1) with (h := h) as (tx' & Htx' & Hd).
      * etrans; [exact Hs | apply remove_shrinks].
      * intros tx' Htx'. by apply Hl, list_elem_of_further.
      * by eexists.
      * done.
      * exists tx'. split; [by apply list_elem_of_further | done].
    + exists tx. split; [apply list_elem_of_here|].
      destruct (remove_removes_from tx [] true p h Hin Hh)
        as [Hd|(i & ip & Hi & Hrow & Hd)].
      * by eapply descends_mono.
      * destruct (Hl tx) as (e & He & Htx); [apply list_elem_of_here|].
        eapply rtc_l; [|by eapply descends_mono].
        exists e, i, ip. rewrite Htx. split_and!; [done|done| |done].
        eapply lookup_weaken; [exact Hrow | apply Hs].
Qed.

(** ** removeExpired *)

Section ExpiryProps.
Variable IsExpiredTx : CTransaction → Z → bool.

Lemma remove_each_listed (l : list CTransaction) (st : CTxMemPool * list uint256) :
  let r := foldl (λ st tx, ((remove tx [] true st.1).1, st.2 ++ [GetHash tx])) st l in
  r.2 = st.2 ++ (GetHash <$> l)
  ∧ pool_shrinks st.1 r.1
  ∧ ∀ tx, tx ∈ l → mapTx r.1 !! GetHash tx = None.
Proof.
  revert st. induction l as [|tx l IH]; intros st; simpl.
  - split_and!; [by rewrite app_nil_r | done |]. intros tx Htx. by apply elem_of_nil in Htx.
  - destruct (IH ((remove tx [] true st.1).1, st.2 ++ [GetHash tx])) as (Hids & Hs & Hgone).
    simpl in *. split_and!.
    + by rewrite Hids, <- app_assoc.
    + etrans; [apply remove_shrinks | exact Hs].
    + intros tx' [->|Hin]%elem_of_cons; [|by apply Hgone].
      eapply lookup_weaken_None; [apply remove_gone | apply Hs].
Qed.

Lemma remove_each_listed_pool (l : list CTransaction) (st : CTxMemPool * list uint256) :
  (foldl (λ st tx, ((remove tx [] true st.1).1, st.2 ++ [GetHash tx])) st l).1
  = remove_each l st.1.
Proof.
  unfold remove_each. revert st. induction l as [|tx l IH]; intros st; simpl; [done|].
  by rewrite IH.
Qed.

(** The transactions [removeExpired] collects: those of the entries of
    [mapTx] that are expired. *)
Lemma elem_of_expired nBlockHeight pool tx :
  tx ∈ filter (λ tx, IsExpiredTx tx nBlockHeight = true) (GetTx <$> mapTx_entries pool)
  ↔ ∃ h e, mapTx pool !! h = Some e ∧ GetTx e = tx
           ∧ IsExpiredTx tx nBlockHeight = true.
Proof.
  rewrite list_elem_of_filter, list_elem_of_fmap. unfold mapTx_entries. split.
  - intros [Hexp (e & -> & ([h e'] & -> & Hin%elem_of_map_to_list)%list_elem_of_fmap)].
    by exists h, e'.
  - intros (h & e & He & <- & Hexp). split; [done|]. exists e. split; [done|].
    apply list_elem_of_fmap. exists (h, e). split; [done | by apply elem_of_map_to_list].
Qed.

(** C9 (as stated, refuted): the returned vector does not hold the txids
    of all the transactions [removeExpired] removes.  With [ex_a] expired
    and its child [ex_b] not, both are removed and the vector holds the
    txid of [ex_a] only. *)
Lemma removeExpired_lists_expired_only :
  let r := removeExpired (λ tx _, N.eqb (GetHash tx) 1) 0 ex_pool_ab in
  pool_indexed_check ex_pool_ab = true
  ∧ mapTx ex_pool_ab !! GetHash ex_b = Some (ex_entry ex_b 1000)
  ∧ mapTx r.1 !! GetHash ex_b = None
  ∧ r.2 = [GetHash ex_a]
  ∧ GetHash ex_b ∉ r.2.
Proof.
  assert ((removeExpired (λ tx _, N.eqb (GetHash tx) 1) 0 ex_pool_ab).2 = [GetHash ex_a])
    as Hids by (by vm_compute).
  cbv zeta. split_and!; [by vm_compute | by vm_compute | by vm_compute | done |].
  rewrite Hids. by intros [=]%list_elem_of_singleton.
Qed.

(** C9 (amended): on a pool whose cross maps agree with its entries,
    [removeExpired(h)] takes out of the pool every entry for which
    [IsExpiredTx] holds, together with the pool descendants of these
    entries, and nothing else; the vector it returns holds the txid of each
    expired entry, once, and no other txid: the descendants that went with
    them are not listed. *)
Theorem removeExpired_removes_expired (nBlockHeight : Z) (pool : CTxMemPool) :
  pool_indexed pool →
  let r := removeExpired IsExpiredTx nBlockHeight pool in
  let expired h :=
    ∃ e, mapTx pool !! h = Some e ∧ IsExpiredTx (GetTx e) nBlockHeight = true in
  (∀ h d, expired h → descends pool h d → mapTx r.1 !! d = None)
  ∧ (∀ d, is_Some (mapTx pool !! d) → mapTx r.1 !! d = None →
       ∃ h, expired h ∧ descends pool h d)
  ∧ (∀ id, id ∈ r.2 ↔ expired id)
  ∧ NoDup r.2
  ∧ mapTx r.1 ⊆ mapTx pool.
Proof.
  intros Hidx r expired. subst r. unfold removeExpired.
  set (l := filter _ _).
  destruct (remove_each_listed l (pool, [])) as (Hids & Hs & Hgone).
  pose proof (remove_each_listed_pool l (pool, [])) as Hpool.
  cbv zeta in Hids, Hs, Hgone. simpl in Hids, Hs, Hgone, Hpool.
  rewrite Hids, Hpool in *.
  assert (∀ tx, tx ∈ l ↔ ∃ e, mapTx pool !! GetHash tx = Some e ∧ GetTx e = tx
                              ∧ IsExpiredTx tx nBlockHeight = true) as Hl.
  { intros tx. subst l. rewrite elem_of_expired. split.
    - intros (h & e & He & Htx & Hexp). exists e.
      by rewrite <- Htx, (idx_keyed _ Hidx _ _ He), Htx.
    - intros (e & He & Htx & Hexp). by exists (GetHash tx), e. }
  assert (∀ h, expired h ↔ ∃ tx, tx ∈ l ∧ GetHash tx = h) as Hexpired.
  { intros h. split.
    - intros (e & He & Hexp). exists (GetTx e).
      pose proof (idx_keyed _ Hidx _ _ He) as Hkey. split; [|done].
      apply Hl. exists e. by rewrite Hkey.
    - intros (tx & (e & He & Htx & Hexp)%Hl & <-). exists e. by rewrite Htx. }
  split_and!.
  - intros h d (tx & Htx & <-)%Hexpired Hd.
    eapply descendant_closed_descends; [|exact Hd|by apply Hgone].
    apply remove_each_closed; [done|done|done|apply descendant_closed_refl].
  - intros d Hin Hout.
    destruct (remove_each_upper pool l pool) with (h := d) as (tx & Htx & Hd); [done| |done|done|].
    + intros tx (e & He & Htx & _)%Hl. by exists e.
    + exists (GetHash tx). split; [|done]. apply Hexpired. by exists tx.
  - intros id. rewrite Hexpired, list_elem_of_fmap. split.
    + intros (tx & -> & Htx). by exists tx.
    + intros (tx & Htx & <-). by exists tx.
  - subst l. unfold mapTx_entries.
    eapply sublist_NoDup; [apply (NoDup_fst_map_to_list (mapTx pool))|].
    assert ((map_to_list (mapTx pool)).*1
            = GetHash <$> (GetTx <$> (map_to_list (mapTx pool)).*2)) as ->.
    { rewrite <- !list_fmap_compose. apply Forall_fmap_ext_1, Forall_forall.
      intros [h e] Hin%elem_of_map_to_list. simpl. symmetry.
      by apply (idx_keyed _ Hidx). }
    apply fmap_sublist, sublist_filter.
  - apply Hs.
Qed.
End ExpiryProps.

Lemma removeExpired_removes_expired_witness :
  let r := removeExpired (λ tx _, N.eqb (GetHash tx) 1) 0 ex_pool_ab in
  let expired h :=
    ∃ e, mapTx ex_pool_ab !! h = Some e ∧ N.eqb (GetHash (GetTx e)) 1 = true in
  (∀ h d, expired h → descends ex_pool_ab h d → mapTx r.1 !! d = None)
  ∧ (∀ d, is_Some (mapTx ex_pool_ab !! d) → mapTx r.1 !! d = None →
       ∃ h, expired h ∧ descends ex_pool_ab h d)
  ∧ (∀ id, id ∈ r.2 ↔ expired id)
  ∧ NoDup r.2
  ∧ mapTx r.1 ⊆ mapTx ex_pool_ab.
Proof.
  apply (removeExpired_removes_expired (λ tx _, N.eqb (GetHash tx) 1) 0 ex_pool_ab).
  apply pool_indexed_check_sound. vm_compute. reflexivity.
Defined.

(** ** Properties kept by every removal *)

Section RemovalInvariant.
Variable P : CTxMemPool → Prop.
Hypothesis P_erase : ∀ h e p, mapTx p !! h = Some e → P p → P (erase_entry h e p).
Hypothesis P_tree : ∀ t p, P p → P (set_weightedTxTree t p).
Hypothesis P_deltas : ∀ d p, P p → P (set_mapDeltas d p).
Hypothesis P_estimator : ∀ c p, P p → P (estimator_call c p).

Lemma remove_keeps origTx removed fRecursive pool :
  P pool → P (remove origTx removed fRecursive pool).1.
Proof.
  intros HP.
  destruct (remove_unfold origTx removed fRecursive pool)
    as (fuel & pool' & removed' & Hrun & ->). simpl.
  apply P_tree.
  apply (remove_loop_inv fRecursive (λ _ p _, P p)) in Hrun; [done| | |done].
  - by intros.
  - intros h rest p r e Hp Hin. by apply P_erase.
Qed.

Lemma remove_each_keeps l pool : P pool → P (remove_each l pool).
Proof.
  unfold remove_each. revert pool.
  induction l as [|tx l IH]; intros pool HP; simpl; [done|].
  by apply IH, remove_keeps.
Qed.

Lemma conflict_fold_keeps `{Countable K} {V} (getm : CTxMemPool → gmap K V)
    (owner : V → CTransaction) tx ks st :
  P st.1 → P (foldl (conflict_step getm owner tx) st ks).1.
Proof.
  revert st. induction ks as [|k ks IH]; intros st Hok; simpl; [done|].
  apply IH. unfold conflict_step, remove_conflict.
  destruct (owner <$> getm st.1 !! k) as [c|]; [|done].
  destruct (tx_ne c tx); [by apply remove_keeps | done].
Qed.

Lemma removeConflicts_keeps tx removed pool :
  P pool → P (removeConflicts tx removed pool).1.
Proof.
  intros Hok. rewrite removeConflicts_unfold. by do 4 apply conflict_fold_keeps.
Qed.

Lemma removeForBlock_keeps vtx nBlockHeight conflicts fCurrentEstimate pool :
  P pool → P (removeForBlock vtx nBlockHeight conflicts fCurrentEstimate pool).1.
Proof.
  intros Hok. unfold removeForBlock. cbn [fst]. apply P_estimator.
  generalize (pool, conflicts) as st, (Hok : P (pool, conflicts).1).
  induction vtx as [|tx vtx IH]; intros st Hst; simpl; [done|].
  apply IH. unfold remove_block_tx, ClearPrioritisation. cbn [fst].
  by apply P_deltas, removeConflicts_keeps, remove_keeps.
Qed.
End RemovalInvariant.

(** [remove] and [removeConflicts] leave the prioritisation alone. *)
Lemma remove_mapDeltas origTx removed fRecursive pool :
  mapDeltas (remove origTx removed fRecursive pool).1 = mapDeltas pool.
Proof. by apply (remove_keeps (λ p, mapDeltas p = mapDeltas pool)). Qed.

Lemma removeConflicts_mapDeltas tx removed pool :
  mapDeltas (removeConflicts tx removed pool).1 = mapDeltas pool.
Proof. by apply (removeConflicts_keeps (λ p, mapDeltas p = mapDeltas pool)). Qed.

Lemma removeForBlock_mapDeltas vtx nBlockHeight conflicts fCurrentEstimate pool :
  mapDeltas (removeForBlock vtx nBlockHeight conflicts fCurrentEstimate pool).1
  = erase_all (GetHash <$> vtx) (mapDeltas pool).
Proof.
  unfold removeForBlock. cbn [fst estimator_call mapDeltas].
  change (mapDeltas pool) with (mapDeltas (pool, conflicts).1).
  generalize (pool, conflicts) as st.
  induction vtx as [|tx vtx IH]; intros st; [done|].
  cbn [foldl]. rewrite IH. rewrite fmap_cons. unfold erase_all. cbn [foldl].
  f_equal. unfold remove_block_tx, ClearPrioritisation. cbn [fst mapDeltas set_mapDeltas].
  by rewrite removeConflicts_mapDeltas, remove_mapDeltas.
Qed.

(** ** What the out-list receives *)

(** The entries the loop takes out, in the order it takes them out: the
    out-list receives their transactions and the estimator hears of their
    txids in that order. *)
Lemma remove_loop_taken fuel fRecursive q pool removed pool' removed' :
  remove_loop fuel fRecursive q pool removed = Some (pool', removed') →
  ∃ taken : list (uint256 * CTxMemPoolEntry),
    removed' = removed ++ (GetTx <$> taken.*2)
    ∧ minerPolicyEstimator pool' = minerPolicyEstimator pool ++ (removeTx <$> taken.*1)
    ∧ NoDup taken.*1
    ∧ (∀ h e, (h, e) ∈ taken ↔ mapTx pool !! h = Some e ∧ mapTx pool' !! h = None)
    ∧ wrap_u32 (nTransactionsUpdated pool')
      = wrap_u32 (nTransactionsUpdated pool + Z.of_nat (length taken)).
Proof.
  intros Hrun.
  apply (remove_loop_inv fRecursive (λ _ p out,
           ∃ taken : list (uint256 * CTxMemPoolEntry),
             out = removed ++ (GetTx <$> taken.*2)
             ∧ minerPolicyEstimator p = minerPolicyEstimator pool ++ (removeTx <$> taken.*1)
             ∧ NoDup taken.*1
             ∧ mapTx p ⊆ mapTx pool
             ∧ (∀ h e, (h, e) ∈ taken ↔ mapTx pool !! h = Some e ∧ mapTx p !! h = None)
             ∧ wrap_u32 (nTransactionsUpdated p)
               = wrap_u32 (nTransactionsUpdated pool + Z.of_nat (length taken)))) in Hrun.
  - destruct Hrun as (taken & ? & ? & ? & ? & ? & ?). by exists taken.
  - by intros.
  - intros h rest p out e (taken & -> & Hlog & Hnd & Hsub & Htaken & Hcount) Hin.
    exists (taken ++ [(h, e)]). split_and!.
    + by rewrite !fmap_app, app_assoc.
    + simpl. by rewrite Hlog, !fmap_app, app_assoc.
    + rewrite fmap_app. apply NoDup_app. split_and!; [done| |apply NoDup_singleton].
      intros h' Hh' Hh. simpl in Hh. apply list_elem_of_singleton in Hh as ->.
      apply list_elem_of_fmap in Hh' as ([h'' e'] & Heq & Hin'). simpl in Heq. subst h''.
      apply Htaken in Hin' as [_ Hnone]. congruence.
    + simpl. etrans; [apply delete_subseteq | done].
    + intros h' e'. rewrite elem_of_app, list_elem_of_singleton, Htaken. simpl.
      rewrite lookup_delete_None. split.
      * intros [[Hp Hnone]|[= -> ->]].
        -- split; [done | by right].
        -- split; [by eapply lookup_weaken | by left].
      * intros [Hp [->|Hnone]]; [|by left].
        right. pose proof (lookup_weaken _ _ _ _ Hin Hsub). congruence.
    + simpl. unfold wrap_u32 in *. rewrite Z.mod_mod by done.
      rewrite <- Zplus_mod_idemp_l, Hcount, Zplus_mod_idemp_l.
      rewrite length_app. simpl. f_equal. lia.
  - exists []. split_and!.
    + by rewrite app_nil_r.
    + by rewrite app_nil_r.
    + constructor.
    + done.
    + intros h e. split; [by intros ?%elem_of_nil | intros [? ?]; congruence].
    + simpl. by rewrite Z.add_0_r.
Qed.






(** A non-recursive [remove] of a pool transaction: one pass of the loop. *)
Lemma remove_single origTx removed pool e :
  mapTx pool !! GetHash origTx = Some e →
  remove origTx removed false pool
  = (set_weightedTxTree
       (tree_remove_all (removed ++ [GetTx e]) (weightedTxTree pool))
       (erase_entry (GetHash origTx) e pool),
     removed ++ [GetTx e]).
Proof.
  intros Hin.
  destruct (remove_unfold origTx removed false pool)
    as (fuel & p1 & r1 & Hrun & ->).
  assert ((p1, r1) = (erase_entry (GetHash origTx) e pool, removed ++ [GetTx e]))
    as [= -> ->]; [|done].
  eapply remove_loop_det; [exact Hrun|].
  instantiate (1 := 1%nat). unfold remove_queue. simpl. by rewrite Hin.
Qed.

(** A recursive [remove] of a pool transaction none of whose outputs is
    spent in the pool does what the plain one does. *)
Lemma remove_single_unspent origTx removed fRecursive pool e :
  mapTx pool !! GetHash origTx = Some e →
  (fRecursive = true →
   ∀ i, (i < length (vout (GetTx e)))%nat →
     mapNextTx pool !! mkCOutPoint (GetHash origTx) i = None) →
  remove origTx removed fRecursive pool
  = (set_weightedTxTree
       (tree_remove_all (removed ++ [GetTx e]) (weightedTxTree pool))
       (erase_entry (GetHash origTx) e pool),
     removed ++ [GetTx e]).
Proof.
  intros Hin Hunspent.
  destruct fRecursive; [|by apply remove_single].
  assert (spenders_of (mapNextTx pool) (GetHash origTx) (length (vout (GetTx e))) = [])
    as Hnone.
  { apply elem_of_nil_inv. intros h (i & ip & Hi & Hrow & _)%elem_of_spenders_of.
    by rewrite (Hunspent eq_refl i Hi) in Hrow. }
  destruct (remove_unfold origTx removed true pool)
    as (fuel & p1 & r1 & Hrun & ->).
  assert ((p1, r1) = (erase_entry (GetHash origTx) e pool, removed ++ [GetTx e]))
    as [= -> ->]; [|done].
  eapply remove_loop_det; [exact Hrun|].
  instantiate (1 := 1%nat). unfold remove_queue.
  rewrite bool_decide_eq_true_2 by (by eexists). simpl. by rewrite Hin, Hnone.
Qed.



(** ** removeForBlock *)

#[global] Instance only_removeTx_preorder : PreOrder only_removeTx.
Proof.
  split.
  - intros p. exists []. by rewrite app_nil_r.
  - intros p1 p2 p3 (c1 & E1 & F1) (c2 & E2 & F2). exists (c1 ++ c2). split.
    + by rewrite E2, E1, app_assoc.
    + by apply Forall_app.
Qed.

Lemma remove_only_removeTx origTx removed fRecursive pool :
  only_removeTx pool (remove origTx removed fRecursive pool).1.
Proof.
  destruct (remove_unfold origTx removed fRecursive pool)
    as (fuel & p1 & r1 & Hrun & ->). simpl.
  apply (remove_loop_inv fRecursive (λ _ p _, only_removeTx pool p)) in Hrun.
  - destruct Hrun as (calls & E & F). by exists calls.
  - by intros.
  - intros h rest p r e Hp _. etrans; [exact Hp|].
    exists [removeTx h]. split; [done|]. repeat constructor. by exists h.
  - done.
Qed.

Lemma removeConflicts_only_removeTx tx removed pool :
  only_removeTx pool (removeConflicts tx removed pool).1
  ∧ pool_shrinks pool (removeConflicts tx removed pool).1.
Proof.
  rewrite removeConflicts_unfold.
  assert (∀ `{Countable K} {V} (getm : CTxMemPool → gmap K V) owner ks st,
            only_removeTx st.1 (foldl (conflict_step getm owner tx) st ks).1) as Hfold.
  { intros K ?? V getm owner ks. induction ks as [|k ks IH]; intros st; simpl; [done|].
    etrans; [|apply IH]. unfold conflict_step, remove_conflict.
    destruct (owner <$> getm st.1 !! k) as [c|]; [|done].
    destruct (tx_ne c tx); [apply remove_only_removeTx | done]. }
  split.
  - etrans; [|apply Hfold]. etrans; [|apply Hfold]. etrans; [|apply Hfold].
    apply (Hfold _ _ _ _ mapNextTx ptx (prevouts tx) (pool, removed)).
  - etrans; [|apply conflict_fold_shrinks]. etrans; [|apply conflict_fold_shrinks].
    etrans; [|apply conflict_fold_shrinks].
    apply (conflict_fold_shrinks mapNextTx ptx tx (prevouts tx) (pool, removed)).
Qed.

Lemma remove_block_tx_spec tx st :
  only_removeTx st.1 (remove_block_tx tx st).1
  ∧ pool_shrinks st.1 (remove_block_tx tx st).1
  ∧ mapTx (remove_block_tx tx st).1 !! GetHash tx = None.
Proof.
  unfold remove_block_tx. simpl.
  destruct (removeConflicts_only_removeTx tx st.2 (remove tx [] false st.1).1) as [Hc Hs].
  split_and!.
  - etrans; [apply remove_only_removeTx|]. destruct Hc as (calls & E & F). by exists calls.
  - etrans; [apply remove_shrinks|]. by destruct Hs.
  - simpl. eapply lookup_weaken_None; [apply remove_gone | apply Hs].
Qed.

Lemma remove_block_fold vtx st :
  let r := foldl (λ st tx, remove_block_tx tx st) st vtx in
  only_removeTx st.1 r.1 ∧ pool_shrinks st.1 r.1
  ∧ ∀ tx, tx ∈ vtx → mapTx r.1 !! GetHash tx = None.
Proof.
  revert st. induction vtx as [|tx vtx IH]; intros st; simpl.
  - split_and!; [done|done|]. intros tx Htx. by apply elem_of_nil in Htx.
  - destruct (remove_block_tx_spec tx st) as (L1 & S1 & G1).
    destruct (IH (remove_block_tx tx st)) as (L2 & S2 & G2).
    split_and!; [by etrans | by etrans |].
    intros tx' [->|Hin]%elem_of_cons; [|by apply G2].
    eapply lookup_weaken_None; [exact G1 | apply S2].
Qed.




(** ** removeWithAnchor *)

Lemma remove_each_gone (l : list CTransaction) (pool : CTxMemPool) :
  pool_shrinks pool (remove_each l pool)
  ∧ ∀ tx, tx ∈ l → mapTx (remove_each l pool) !! GetHash tx = None.
Proof.
  unfold remove_each. revert pool. induction l as [|tx l IH]; intros pool; simpl.
  - split; [done|]. intros tx Htx. by apply elem_of_nil in Htx.
  - destruct (IH (remove tx [] true pool).1) as [Hs Hgone]. split.
    + etrans; [apply remove_shrinks | exact Hs].
    + intros tx' [->|Hin]%elem_of_cons; [|by apply Hgone].
      eapply lookup_weaken_None; [apply remove_gone | apply Hs].
Qed.

Lemma anchor_scan_returns invalidRoot type entries :
  type = SPROUT ∨ type = SAPLING →
  ∃ hits, anchor_scan invalidRoot type entries = Returns hits
    ∧ ∀ e, e ∈ entries → spends_anchor invalidRoot type (GetTx e) = Returns true →
        GetTx e ∈ hits.
Proof.
  intros Htype. induction entries as [|e rest (hits & Hscan & Hhits)]; simpl.
  - exists []. split; [done|]. intros e He. by apply elem_of_nil in He.
  - rewrite Hscan.
    assert (∃ hit, spends_anchor invalidRoot type (GetTx e) = Returns hit) as [hit Hhit]
      by (destruct Htype as [-> | ->]; by eexists).
    rewrite Hhit. eexists. split; [done|].
    intros e' [->|Hin]%elem_of_cons Hspends.
    + rewrite Hspends in Hhit. injection Hhit as <-. apply list_elem_of_here.
    + destruct hit; [apply list_elem_of_further|]; by apply Hhits.
Qed.

Lemma anchor_scan_hits invalidRoot type entries hits :
  anchor_scan invalidRoot type entries = Returns hits →
  ∀ tx, tx ∈ hits →
    ∃ e, e ∈ entries ∧ GetTx e = tx
         ∧ spends_anchor invalidRoot type (GetTx e) = Returns true.
Proof.
  revert hits. induction entries as [|e rest IH]; intros hits Hscan tx Htx; simpl in Hscan.
  - injection Hscan as <-. by apply elem_of_nil in Htx.
  - destruct (spends_anchor invalidRoot type (GetTx e)) as [hit| |] eqn:Hhit; [|done..].
    destruct (anchor_scan invalidRoot type rest) as [more| |]; [|done..].
    simpl in Hscan. injection Hscan as <-.
    assert (tx ∈ more → ∃ e', e' ∈ e :: rest ∧ GetTx e' = tx
              ∧ spends_anchor invalidRoot type (GetTx e') = Returns true) as Hmore.
    { intros Hin. destruct (IH more eq_refl tx Hin) as (e' & He' & Heq & Hsp).
      exists e'. split; [by apply list_elem_of_further | done]. }
    destruct hit; [|by apply Hmore].
    apply elem_of_cons in Htx as [->|Htx]; [|by apply Hmore].
    exists e. split; [apply list_elem_of_here | done].
Qed.

(** What the [switch] of [removeWithAnchor] looks for, spelled out. *)
Lemma spends_anchor_true invalidRoot type tx :
  spends_anchor invalidRoot type tx = Returns true
  ↔ (type = SPROUT ∧ ∃ joinsplit, joinsplit ∈ vJoinSplit tx
                                   ∧ js_anchor joinsplit = invalidRoot)
    ∨ (type = SAPLING ∧ ∃ sd, sd ∈ vShieldedSpend tx ∧ sd_anchor sd = invalidRoot).
Proof.
  split.
  - destruct type; simpl; intros Hsp; try done; [left|right];
      injection Hsp as Hsp; apply existsb_exists in Hsp as (x & Hx & Heq%N.eqb_eq);
      (split; [done|]); exists x; by rewrite list_elem_of_In.
  - intros [[-> (x & Hx & Heq)]|[-> (x & Hx & Heq)]]; simpl; f_equal;
      apply existsb_exists; exists x; by rewrite <- list_elem_of_In, N.eqb_eq.
Qed.

(** X25: for SPROUT and SAPLING, [removeWithAnchor] returns, adds nothing,
    and takes out of the pool every entry whose transaction has a JoinSplit
    (for SPROUT) or a shielded spend (for SAPLING) anchored at
    [invalidRoot]; on a pool whose cross maps agree with its entries, what
    it takes out is such an entry or a pool descendant of one. *)
Lemma removeWithAnchor_sprout_sapling invalidRoot type pool :
  type = SPROUT ∨ type = SAPLING →
  ∃ pool', removeWithAnchor invalidRoot type pool = Returns pool'
    ∧ pool_shrinks pool pool'
    ∧ (∀ h e, mapTx pool !! h = Some e →
         (type = SPROUT ∧ ∃ joinsplit, joinsplit ∈ vJoinSplit (GetTx e)
                                        ∧ js_anchor joinsplit = invalidRoot)
         ∨ (type = SAPLING ∧ ∃ sd, sd ∈ vShieldedSpend (GetTx e)
                                    ∧ sd_anchor sd = invalidRoot) →
         mapTx pool' !! GetHash (GetTx e) = None
         ∧ (keyed_by_hash (mapTx pool) → mapTx pool' !! h = None))
    ∧ (pool_indexed pool →
       ∀ d, is_Some (mapTx pool !! d) → mapTx pool' !! d = None →
         ∃ h e, mapTx pool !! h = Some e
           ∧ ((type = SPROUT ∧ ∃ joinsplit, joinsplit ∈ vJoinSplit (GetTx e)
                                             ∧ js_anchor joinsplit = invalidRoot)
              ∨ (type = SAPLING ∧ ∃ sd, sd ∈ vShieldedSpend (GetTx e)
                                         ∧ sd_anchor sd = invalidRoot))
           ∧ descends pool h d).
Proof.
  intros Htype. unfold removeWithAnchor.
  destruct (anchor_scan_returns invalidRoot type (mapTx_entries pool) Htype)
    as (hits & Hscan & Hhits).
  pose proof (anchor_scan_hits _ _ _ _ Hscan) as Hfrom. rewrite Hscan.
  destruct (remove_each_gone hits pool) as [Hs Hgone].
  eexists. split_and!; [done | done | |].
  - intros h e He Hanchored.
    assert (mapTx (remove_each hits pool) !! GetHash (GetTx e) = None) as Hout.
    { apply Hgone, Hhits; [|by apply spends_anchor_true].
      unfold mapTx_entries. apply list_elem_of_fmap. exists (h, e).
      split; [done | by apply elem_of_map_to_list]. }
    split; [done|]. intros Hkeyed. by rewrite (Hkeyed h e He) in Hout.
  - intros Hidx d Hin Hout. simpl in Hout.
    destruct (remove_each_upper pool hits pool) with (h := d) as (tx & Htx & Hd);
      [done| |done|done|].
    + intros tx Htx. destruct (Hfrom tx Htx) as (e & He & Heq & _).
      unfold mapTx_entries in He.
      apply list_elem_of_fmap in He as ([h e'] & -> & He%elem_of_map_to_list).
      simpl in Heq. exists e'. split; [|done].
      by rewrite <- Heq, (idx_keyed _ Hidx _ _ He).
    + destruct (Hfrom tx Htx) as (e & He & Heq & Hsp).
      unfold mapTx_entries in He.
      apply list_elem_of_fmap in He as ([h e'] & -> & He%elem_of_map_to_list).
      simpl in Heq, Hsp. exists h, e'. split_and!; [done | by apply spends_anchor_true |].
      by rewrite <- (idx_keyed _ Hidx _ _ He), Heq.
Qed.

(** C3 (the code at the failing input): with [ORCHARD], one of the three
    supported kinds, [removeWithAnchor] throws "Unknown shielded type" as
    soon as the pool holds an entry, and removes nothing. *)
Theorem removeWithAnchor_orchard_throws (invalidRoot : uint256) (pool : CTxMemPool) :
  mapTx pool ≠ ∅ →
  removeWithAnchor invalidRoot ORCHARD pool = Throws "Unknown shielded type".
Proof.
  intros Hne. unfold removeWithAnchor, mapTx_entries.
  destruct (map_to_list (mapTx pool)) as [|[h e] rest] eqn:Hl.
  - by apply map_to_list_empty_iff in Hl.
  - done.
Qed.

Lemma removeWithAnchor_orchard_throws_witness :
  removeWithAnchor 9%N ORCHARD ex_pool_c = Throws "Unknown shielded type".
Proof.
  apply (removeWithAnchor_orchard_throws 9%N ex_pool_c).
  intros Hempty. apply (f_equal (λ m, m !! 3%N)) in Hempty.
  vm_compute in Hempty. discriminate.
Defined.

(** ** clear and the checker *)

Section CheckerProps.
Variable CCoinsViewCache : Type.
Variable SproutMerkleTree : Type.
Variable coins_IsAvailable : CCoinsViewCache → uint256 → nat → bool.
Variable GetNullifier : CCoinsViewCache → uint256 → ShieldedType → bool.
Variable GetSproutAnchorAt : CCoinsViewCache → uint256 → option SproutMerkleTree.
Variable GetSaplingAnchorAt : CCoinsViewCache → uint256 → bool.
Variable tree_append : uint256 → SproutMerkleTree → SproutMerkleTree.
Variable tree_root : SproutMerkleTree → uint256.
Variable HaveInputs : CCoinsViewCache → CTransaction → bool.
Variable CheckTxInputs : CCoinsViewCache → CTransaction → bool.
Variable UpdateCoins : CTransaction → CCoinsViewCache → CCoinsViewCache.
Variable IsCoinBase : CTransaction → bool.
Variable CTxOut_IsNull : CTxOut → bool.

(** C1 (the code at the failing input): after [addUnchecked] of [ex_b] and
    [clear()] the pool has no entry and its counters are zero, but the
    sprout nullifier of [ex_b] is still mapped and the weighted tree still
    holds the item of [ex_b]; [checkNullifiers], and with it [check] under
    any coin view, fails its assertion on this pool.  [remove] of [ex_b],
    in place of [clear()], erases the nullifier and the item. *)
Theorem clear_keeps_nullifiers (pcoins : CCoinsViewCache) :
  mapTx ex_pool_b_cleared = ∅
  ∧ totalTxSize ex_pool_b_cleared = 0
  ∧ cachedInnerUsage ex_pool_b_cleared = 0
  ∧ mapSproutNullifiers ex_pool_b_cleared !! 55%N = Some ex_b
  ∧ weightedTxTree ex_pool_b_cleared = [(GetHash ex_b, 4000)]
  ∧ checkNullifiers SPROUT ex_pool_b_cleared = AssertFails
  ∧ check CCoinsViewCache SproutMerkleTree coins_IsAvailable GetNullifier
          GetSproutAnchorAt GetSaplingAnchorAt tree_append tree_root HaveInputs
          CheckTxInputs UpdateCoins IsCoinBase CTxOut_IsNull
          0 pcoins ex_pool_b_cleared
    = Some AssertFails
  ∧ (let removed := (remove ex_b [] false (ex_add ex_b ex_checked)).1 in
     mapTx removed = ∅
     ∧ mapSproutNullifiers removed = ∅
     ∧ weightedTxTree removed = []).
Proof.
  split_and!; by vm_compute.
Qed.

(** C4 (the code at the failing input): in [ex_pool_c_cleared] the
    orchard nullifier 77 points to [ex_c], which is not in the pool, and
    [checkNullifiers(ORCHARD)] fails on it; yet [check], run with any
    coin view and any random draw below the check frequency, passes:
    it calls [checkNullifiers] for SPROUT and SAPLING only. *)
Theorem check_skips_orchard (rand : Z) (pcoins : CCoinsViewCache) :
  0 ≤ rand < 4294967295 →
  mapOrchardNullifiers ex_pool_c_cleared !! 77%N = Some ex_c
  ∧ exists_ (GetHash ex_c) ex_pool_c_cleared = false
  ∧ checkNullifiers ORCHARD ex_pool_c_cleared = AssertFails
  ∧ check CCoinsViewCache SproutMerkleTree coins_IsAvailable GetNullifier
          GetSproutAnchorAt GetSaplingAnchorAt tree_append tree_root HaveInputs
          CheckTxInputs UpdateCoins IsCoinBase CTxOut_IsNull
          rand pcoins ex_pool_c_cleared
    = Some (Returns tt).
Proof.
  intros Hrand. split_and!; [by vm_compute | by vm_compute | by vm_compute |].
  unfold check.
  change (nCheckFrequency ex_pool_c_cleared) with 4294967295.
  rewrite bool_decide_eq_false_2 by done.
  rewrite bool_decide_eq_false_2 by lia.
  by vm_compute.
Qed.
End CheckerProps.

Lemma check_skips_orchard_witness :
  mapOrchardNullifiers ex_pool_c_cleared !! 77%N = Some ex_c
  ∧ exists_ (GetHash ex_c) ex_pool_c_cleared = false
  ∧ checkNullifiers ORCHARD ex_pool_c_cleared = AssertFails
  ∧ check unit unit (λ _ _ _, true) (λ _ _ _, false) (λ _ _, Some tt) (λ _ _, true)
          (λ _ t, t) (λ _, 0%N) (λ _ _, true) (λ _ _, true) (λ _ v, v) (λ _, false)
          (λ _, false) 0 tt ex_pool_c_cleared
    = Some (Returns tt).
Proof.
  apply (check_skips_orchard unit unit (λ _ _ _, true) (λ _ _ _, false) (λ _ _, Some tt)
           (λ _ _, true) (λ _ t, t) (λ _, 0%N) (λ _ _, true) (λ _ _, true) (λ _ v, v)
           (λ _, false) (λ _, false) 0 tt).
  lia.
Defined.

(** ** The coin view overlay *)

Section CoinsViewProps.
Variable CCoins : Type.
Variable CCoins_of : CTransaction → Z → CCoins.
Variable IsPruned : CCoins → bool.
Variable MEMPOOL_HEIGHT : Z.

(** C7: for a txid of the pool, [GetCoins] succeeds with the coins made
    from the pool transaction at [MEMPOOL_HEIGHT], whatever the base view
    holds; for any other txid it succeeds exactly when the base view
    succeeds with coins that are not pruned, and then hands out the
    coins of the base view. *)
Theorem GetCoins_prefers_pool (base_GetCoins : uint256 → CCoins → bool * CCoins)
    (mempool : CTxMemPool) (txid : uint256) (coins : CCoins) :
  let r := GetCoins CCoins CCoins_of IsPruned MEMPOOL_HEIGHT base_GetCoins
                    mempool txid coins in
  (∀ e, mapTx mempool !! txid = Some e →
     r = (true, CCoins_of (GetTx e) MEMPOOL_HEIGHT))
  ∧ (mapTx mempool !! txid = None →
     (r.1 = true ↔
        (base_GetCoins txid coins).1 = true
        ∧ IsPruned (base_GetCoins txid coins).2 = false)
     ∧ (r.1 = true → r.2 = (base_GetCoins txid coins).2)).
Proof.
  intros r. subst r. unfold GetCoins, get. split.
  - intros e ->. done.
  - intros ->. simpl. rewrite andb_true_iff, negb_true_iff. done.
Qed.
End CoinsViewProps.

(** ** Prioritisation and admission *)

Lemma wrap_i64_id z : - 2 ^ 63 ≤ z < 2 ^ 63 → wrap_i64 z = z.
Proof. intros Hz. unfold wrap_i64. rewrite Z.mod_small; lia. Qed.

Lemma UpdateFeeDelta_same e : UpdateFeeDelta (feeDelta e) e = e.
Proof. by destruct e. Qed.

Lemma CTxMemPoolEntry_new_feeDelta size modsize usage1 usage2 tx fee time prio height
    clear coinbase sigops branch :
  feeDelta (CTxMemPoolEntry_new size modsize usage1 usage2 tx fee time prio height
              clear coinbase sigops branch) = 0.
Proof. done. Qed.

(** C8 (as stated, refuted): the effective fee after
    [PrioritiseTransaction(h, dp, df)] and [addUnchecked(h, e)] is not
    [fee + df] for every pool.  With a fee delta of 7 recorded for the txid
    beforehand, prioritising by 1000 and adding an entry of fee 100 gives
    the effective fee 1107 in either order. *)
Lemma prioritise_add_earlier_delta :
  let pool := PrioritiseTransaction Z.add 1%N 0 7 CTxMemPool_new in
  let prio_add :=
    (addUnchecked ex_weight 1%N (ex_entry ex_a 100) true
       (PrioritiseTransaction Z.add 1%N 0 1000 pool)).1 in
  let add_prio :=
    PrioritiseTransaction Z.add 1%N 0 1000
      (addUnchecked ex_weight 1%N (ex_entry ex_a 100) true pool).1 in
  mapTx pool !! 1%N = None
  ∧ GetHash (GetTx (ex_entry ex_a 100)) = 1%N
  ∧ nFee (ex_entry ex_a 100) = 100
  ∧ feeDelta (ex_entry ex_a 100) = 0
  ∧ ∃ e', mapTx prio_add !! 1%N = Some e' ∧ mapTx add_prio !! 1%N = Some e'
          ∧ GetModifiedFee e' = 1107
          ∧ GetModifiedFee e' ≠ nFee (ex_entry ex_a 100) + 1000.
Proof.
  cbv zeta. split_and!; [by vm_compute..|].
  eexists. split_and!; [by vm_compute | by vm_compute | by vm_compute | by vm_compute].
Qed.

Section PrioritiseProps.
Variable double_add : double → double → double.
Variable tx_weight : CTransaction → CAmount → Z.

(** C8 (amended): for a transaction [h] that is not in the pool and an
    entry built by the constructor (fee delta 0), when the delta recorded
    for [h] before plus [df] fits a 64-bit signed integer,
    [PrioritiseTransaction(h, dp, df)] followed by [addUnchecked(h, e)] and
    [addUnchecked(h, e)] followed by [PrioritiseTransaction(h, dp, df)] end
    in the same pool.  In it the entry of [h] carries the fee delta recorded
    for [h], which is [df] added to what was recorded before, and its
    effective fee is [fee] plus that sum; only with nothing (or 0) recorded
    before is the effective fee its score is computed from [fee + df]. *)
Theorem prioritise_add_commute (h : uint256) (dPriorityDelta : double) (df : CAmount)
    (e : CTxMemPoolEntry) (fCurrentEstimate : bool) (pool : CTxMemPool) :
  let before := (default (0, 0) (mapDeltas pool !! h)).2 in
  GetHash (GetTx e) = h →
  feeDelta e = 0 →
  mapTx pool !! h = None →
  - 2 ^ 63 ≤ before + df < 2 ^ 63 →
  let prio_add :=
    (addUnchecked tx_weight h e fCurrentEstimate
       (PrioritiseTransaction double_add h dPriorityDelta df pool)).1 in
  let add_prio :=
    PrioritiseTransaction double_add h dPriorityDelta df
      (addUnchecked tx_weight h e fCurrentEstimate pool).1 in
  prio_add = add_prio
  ∧ mapTx prio_add !! h = Some (UpdateFeeDelta (before + df) e)
  ∧ GetModifiedFee (UpdateFeeDelta (before + df) e) = nFee e + before + df
  ∧ (before = 0 →
     ∃ e', mapTx prio_add !! h = Some e' ∧ mapTx add_prio !! h = Some e'
           ∧ GetModifiedFee e' = nFee e + df).
Proof.
  intros before <- Hzero Hfresh Hrange prio_add add_prio.
  set (h := GetHash (GetTx e)) in *.
  assert (wrap_i64 (before + df) = before + df) as Hsum by (by apply wrap_i64_id).
  assert (∀ d, (if bool_decide (d ≠ 0)
                then alter (UpdateFeeDelta d) h (<[h:=e]> (mapTx pool))
                else <[h:=e]> (mapTx pool))
               = <[h:=UpdateFeeDelta d e]> (mapTx pool)) as Hmod.
  { intros d. case_bool_decide as Hd; [apply alter_insert_eq|].
    assert (d = 0) as -> by (destruct (decide (d = 0)); done).
    by rewrite <- Hzero, UpdateFeeDelta_same. }
  assert (mapTx (addUnchecked tx_weight h e fCurrentEstimate pool).1
          = <[h:=UpdateFeeDelta before e]> (mapTx pool)) as Hadd.
  { unfold addUnchecked. simpl. fold h. rewrite Hfresh. subst before.
    destruct (mapDeltas pool !! h) as [d|]; simpl; [apply Hmod|].
    by rewrite <- Hzero, UpdateFeeDelta_same. }
  assert (mapDeltas (addUnchecked tx_weight h e fCurrentEstimate pool).1 = mapDeltas pool)
    as Hdeltas by done.
  assert (prio_add = add_prio) as Heq.
  { subst prio_add add_prio.
    unfold PrioritiseTransaction, modify_fee_delta, set_mapTx, set_mapDeltas.
    cbn [mapTx mapDeltas fst snd]. rewrite Hdeltas. fold before.
    rewrite Hsum, Hadd, lookup_insert_eq, Hfresh, alter_insert_eq.
    unfold addUnchecked. cbn -[wrap_u32 wrap_u64]. fold h.
    rewrite !Hfresh. cbn -[wrap_u32 wrap_u64].
    rewrite lookup_insert_eq. cbn -[wrap_u32 wrap_u64].
    by rewrite Hmod. }
  assert (mapTx add_prio !! h = Some (UpdateFeeDelta (before + df) e)) as Hlook.
  { subst add_prio.
    unfold PrioritiseTransaction, modify_fee_delta, set_mapTx, set_mapDeltas.
    cbn [mapTx mapDeltas fst snd]. rewrite Hdeltas. fold before.
    rewrite Hsum, Hadd, lookup_insert_eq. cbn [mapTx].
    by rewrite alter_insert_eq, lookup_insert_eq. }
  split_and!.
  - done.
  - by rewrite Heq.
  - unfold GetModifiedFee. simpl. lia.
  - intros Hnone. exists (UpdateFeeDelta (before + df) e).
    split_and!; [by rewrite Heq | done |]. unfold GetModifiedFee. simpl. lia.
Qed.
End PrioritiseProps.

Lemma prioritise_add_commute_witness :
  let prio_add :=
    (addUnchecked ex_weight 1%N (ex_entry ex_a 100) true
       (PrioritiseTransaction Z.add 1%N 0 1000 CTxMemPool_new)).1 in
  let add_prio :=
    PrioritiseTransaction Z.add 1%N 0 1000
      (addUnchecked ex_weight 1%N (ex_entry ex_a 100) true CTxMemPool_new).1 in
  prio_add = add_prio
  ∧ mapTx prio_add !! 1%N = Some (UpdateFeeDelta (0 + 1000) (ex_entry ex_a 100))
  ∧ GetModifiedFee (UpdateFeeDelta (0 + 1000) (ex_entry ex_a 100))
    = nFee (ex_entry ex_a 100) + 0 + 1000
  ∧ (0 = 0 →
     ∃ e', mapTx prio_add !! 1%N = Some e' ∧ mapTx add_prio !! 1%N = Some e'
           ∧ GetModifiedFee e' = nFee (ex_entry ex_a 100) + 1000).
Proof.
  apply (prioritise_add_commute Z.add ex_weight 1%N 0 1000 (ex_entry ex_a 100) true
           CTxMemPool_new).
  - reflexivity.
  - reflexivity.
  - reflexivity.
  - vm_compute. split; [discriminate | reflexivity].
Defined.

(** ** CompareDepthAndScore *)

(** C10: [CompareDepthAndScore(a, b)] is false when [a] is not in the
    pool, true when [a] is and [b] is not, and otherwise what the score
    comparator says of the two entries; nothing else enters the result. *)
Theorem CompareDepthAndScore_cases
    (CompareTxMemPoolEntryByScore : CTxMemPoolEntry → CTxMemPoolEntry → bool)
    (hasha hashb : uint256) (pool : CTxMemPool) :
  (exists_ hasha pool = false →
     CompareDepthAndScore CompareTxMemPoolEntryByScore hasha hashb pool = false)
  ∧ (exists_ hasha pool = true → exists_ hashb pool = false →
     CompareDepthAndScore CompareTxMemPoolEntryByScore hasha hashb pool = true)
  ∧ (∀ i j, mapTx pool !! hasha = Some i → mapTx pool !! hashb = Some j →
     CompareDepthAndScore CompareTxMemPoolEntryByScore hasha hashb pool
     = CompareTxMemPoolEntryByScore i j).
Proof.
  unfold CompareDepthAndScore, exists_. split_and!.
  - intros Ha%bool_decide_eq_false. destruct (mapTx pool !! hasha); [|done].
    exfalso. apply Ha. by eexists.
  - intros [i ->]%bool_decide_eq_true Hb%bool_decide_eq_false.
    destruct (mapTx pool !! hashb); [|done]. exfalso. apply Hb. by eexists.
  - by intros i j -> ->.
Qed.

(** * Further properties of the pool *)

(** ** What [remove] hands back *)

(** X1: the transactions [remove] appends to the out-list are exactly the
    transactions of the entries it takes out of [mapTx], each once and in
    the order in which the entries are erased, which is the order of the
    [removeTx] calls the estimator receives; [nTransactionsUpdated] grows
    by their number (modulo 2^32). *)
Theorem remove_out_list (origTx : CTransaction) (removed : list CTransaction)
    (fRecursive : bool) (pool : CTxMemPool) :
  let r := remove origTx removed fRecursive pool in
  ∃ taken : list (uint256 * CTxMemPoolEntry),
    r.2 = removed ++ (GetTx <$> taken.*2)
    ∧ minerPolicyEstimator r.1 = minerPolicyEstimator pool ++ (removeTx <$> taken.*1)
    ∧ NoDup taken.*1
    ∧ (∀ h e, (h, e) ∈ taken ↔ mapTx pool !! h = Some e ∧ mapTx r.1 !! h = None)
    ∧ wrap_u32 (nTransactionsUpdated r.1)
      = wrap_u32 (nTransactionsUpdated pool + Z.of_nat (length taken)).
Proof.
  intros r. subst r.
  destruct (remove_unfold origTx removed fRecursive pool)
    as (fuel & p1 & r1 & Hrun & ->). simpl.
  by apply remove_loop_taken in Hrun.
Qed.

Lemma remove_recursive_new_unspent (origTx : CTransaction) (removed : list CTransaction)
    (pool : CTxMemPool) :
  pool_indexed pool →
  let r := remove origTx removed true pool in
  ∃ new, r.2 = removed ++ new
    ∧ ∀ tx i, tx ∈ new → (i < length (vout tx))%nat →
        mapNextTx r.1 !! mkCOutPoint (GetHash tx) i = None.
Proof.
  intros Hidx r. subst r.
  destruct (remove_unfold origTx removed true pool)
    as (fuel & p1 & r1 & Hrun & ->). simpl.
  apply (remove_loop_inv true (λ q p out,
           pool_indexed p
           ∧ ∃ new, out = removed ++ new
             ∧ ∀ tx i ip, tx ∈ new → (i < length (vout tx))%nat →
                 mapNextTx p !! mkCOutPoint (GetHash tx) i = Some ip →
                 GetHash (ptx ip) ∈ q)) in Hrun.
  - destruct Hrun as (_ & new & -> & Hend). exists new. split; [done|].
    intros tx i Htx Hi.
    destruct (mapNextTx p1 !! _) as [ip|] eqn:Hrow; [|done].
    by apply (Hend tx i ip Htx Hi), elem_of_nil in Hrow.
  - intros h rest p out (Hi & new & -> & Hq) Hnone. split; [done|].
    exists new. split; [done|]. intros tx i ip Htx Hlt Hrow.
    apply (Hq tx i ip Htx Hlt) in Hrow as Hin.
    apply elem_of_cons in Hin as [Heq|Hin]; [|done].
    destruct (idx_next_sound _ Hi _ _ Hrow) as (e & He & _).
    rewrite Heq in He. congruence.
  - intros h rest p out e (Hi & new & -> & Hq) Hin. split.
    + by apply pool_indexed_erase_entry.
    + exists (new ++ [GetTx e]). split; [by rewrite app_assoc|].
      intros tx i ip Htx Hlt Hrow. simpl in Hrow.
      apply erase_all_Some in Hrow as [Hkeep Hrow].
      apply elem_of_app in Htx as [Htx| ->%list_elem_of_singleton].
      * apply (Hq tx i ip Htx Hlt) in Hrow as Hspender.
        apply elem_of_cons in Hspender as [Heq|Hspender];
          [|apply elem_of_app; by left].
        exfalso. apply Hkeep.
        destruct (idx_next_sound _ Hi _ _ Hrow) as (e' & He' & Htx' & Hkey).
        rewrite Heq in He'. simplify_eq. by rewrite Htx'.
      * apply elem_of_app. right. apply elem_of_spenders_of.
        exists i, ip. by rewrite <- (idx_keyed _ Hi _ _ Hin).
  - split; [done|]. exists []. split; [by rewrite app_nil_r|].
    intros tx i ip Htx. by apply elem_of_nil in Htx.
Qed.

(** X2: on a pool whose cross maps agree with its entries, and for a
    transaction that is the one the pool stores under its txid when it
    stores one, a recursive [remove] leaves no row of [mapNextTx] for an
    output of that transaction, whether it was in the pool or not, and none
    for an output of a transaction the call appended to the out-list; no
    entry is left that spends an output of the transaction; the pool
    spenders of its outputs, and every pool descendant of these, are out of
    the pool afterwards. *)
Theorem remove_recursive_closed (origTx : CTransaction) (removed : list CTransaction)
    (pool : CTxMemPool) :
  pool_indexed pool →
  (∀ e, mapTx pool !! GetHash origTx = Some e → GetTx e = origTx) →
  let r := remove origTx removed true pool in
  (∀ i, (i < length (vout origTx))%nat →
     mapNextTx r.1 !! mkCOutPoint (GetHash origTx) i = None)
  ∧ (∀ h e i, mapTx r.1 !! h = Some e → (i < length (vout origTx))%nat →
       mkCOutPoint (GetHash origTx) i ∉ prevouts (GetTx e))
  ∧ (∃ new, r.2 = removed ++ new
       ∧ ∀ tx i, tx ∈ new → (i < length (vout tx))%nat →
           mapNextTx r.1 !! mkCOutPoint (GetHash tx) i = None)
  ∧ (∀ h, descends pool (GetHash origTx) h → mapTx r.1 !! h = None)
  ∧ (∀ i ip h, (i < length (vout origTx))%nat →
       mapNextTx pool !! mkCOutPoint (GetHash origTx) i = Some ip →
       descends pool (GetHash (ptx ip)) h → mapTx r.1 !! h = None).
Proof.
  intros Hidx Hself r. subst r.
  destruct (remove_descendants_gone origTx removed pool Hidx) as [Hdesc Habsent].
  pose proof (remove_indexed origTx removed true pool Hidx) as Hidx'.
  assert (∀ i ip h, (i < length (vout origTx))%nat →
            mapNextTx pool !! mkCOutPoint (GetHash origTx) i = Some ip →
            descends pool (GetHash (ptx ip)) h →
            mapTx (remove origTx removed true pool).1 !! h = None) as Hkids.
  { intros i ip h Hi Hrow Hd.
    destruct (mapTx pool !! GetHash origTx) as [e|] eqn:He; [|by eapply Habsent].
    apply Hdesc. eapply rtc_l; [|exact Hd].
    exists e, i, ip. by rewrite (Hself e eq_refl). }
  assert (∀ i, (i < length (vout origTx))%nat →
            mapNextTx (remove origTx removed true pool).1
              !! mkCOutPoint (GetHash origTx) i = None) as Hrows.
  { intros i Hi.
    destruct (mapNextTx (remove origTx removed true pool).1 !! _) as [ip|] eqn:Hrow; [|done].
    exfalso.
    destruct (idx_next_sound _ Hidx' _ _ Hrow) as (e & He & _).
    pose proof (lookup_weaken _ _ _ _ Hrow
                  (shr_next _ _ (remove_shrinks origTx removed true pool))) as Hrow'.
    rewrite (Hkids i ip (GetHash (ptx ip)) Hi Hrow' (rtc_refl _ _)) in He. done. }
  split_and!.
  - done.
  - intros h e i He Hi Hspends.
    pose proof (idx_next_covers _ Hidx' h e _ He Hspends) as Hrow.
    by rewrite (Hrows i Hi) in Hrow.
  - by apply remove_recursive_new_unspent.
  - done.
  - done.
Qed.

Lemma remove_recursive_closed_witness :
  let r := remove ex_a [] true ex_pool_b in
  (∀ i, (i < length (vout ex_a))%nat →
     mapNextTx r.1 !! mkCOutPoint (GetHash ex_a) i = None)
  ∧ (∀ h e i, mapTx r.1 !! h = Some e → (i < length (vout ex_a))%nat →
       mkCOutPoint (GetHash ex_a) i ∉ prevouts (GetTx e))
  ∧ (∃ new, r.2 = [] ++ new
       ∧ ∀ tx i, tx ∈ new → (i < length (vout tx))%nat →
           mapNextTx r.1 !! mkCOutPoint (GetHash tx) i = None)
  ∧ (∀ h, descends ex_pool_b (GetHash ex_a) h → mapTx r.1 !! h = None)
  ∧ (∀ i ip h, (i < length (vout ex_a))%nat →
       mapNextTx ex_pool_b !! mkCOutPoint (GetHash ex_a) i = Some ip →
       descends ex_pool_b (GetHash (ptx ip)) h → mapTx r.1 !! h = None).
Proof.
  apply (remove_recursive_closed ex_a [] ex_pool_b).
  - apply pool_indexed_check_sound. vm_compute. reflexivity.
  - intros e He. vm_compute in He. discriminate.
Defined.

Lemma erase_assign_all `{Countable K} {A} (keys : list K) (v : nat → K → A) (m : gmap K A) :
  (∀ k, k ∈ keys → m !! k = None) → erase_all keys (assign_all keys v m) = m.
Proof.
  intros Hfree. apply map_eq. intros k. rewrite lookup_erase_all.
  case_decide as Hk; [by rewrite Hfree | by apply assign_all_other].
Qed.

Lemma filter_snoc_drop {A} (P : A → Prop) `{!∀ x, Decision (P x)} (l : list A) (x : A) :
  (∀ y, y ∈ l → P y) → ¬ P x → filter P (l ++ [x]) = l.
Proof.
  intros Hall Hx. induction l as [|a l IH]; simpl.
  - by rewrite filter_cons_False.
  - rewrite filter_cons_True by apply Hall, list_elem_of_here.
    f_equal. apply IH. intros y Hy. by apply Hall, list_elem_of_further.
Qed.

Lemma wrap_u64_add_sub t s :
  0 ≤ t < 2 ^ 64 → wrap_u64 (wrap_u64 (t + s) - s) = t.
Proof.
  intros Ht. unfold wrap_u64. rewrite Zminus_mod_idemp_l.
  replace (t + s - s) with t by lia. by apply Z.mod_small.
Qed.

(** ** Admission followed by removal *)

Section RoundTrip.
Variable tx_weight : CTransaction → CAmount → Z.

(** X3: on a pool that holds no recently-added row and no weighted-tree
    item for the txid, and whose two size counters are 64-bit values,
    admitting a transaction (under the conditions admission has checked:
    the key is its txid, the txid is not in [mapTx], none of its inputs and
    nullifiers is mapped) and removing it again non-recursively hands back
    exactly that transaction and restores the entry set, the spend map, the
    three nullifier maps, the recently-added map, the weighted tree and
    both size counters to what they were. *)
Theorem add_remove_round_trip (hash : uint256) (entry : CTxMemPoolEntry)
    (fCurrentEstimate : bool) (pool : CTxMemPool) :
  admissible hash entry pool →
  mapRecentlyAddedTx pool !! hash = None →
  (∀ item, item ∈ weightedTxTree pool → item.1 ≠ hash) →
  0 ≤ totalTxSize pool < 2 ^ 64 →
  0 ≤ cachedInnerUsage pool < 2 ^ 64 →
  let added := (addUnchecked tx_weight hash entry fCurrentEstimate pool).1 in
  let r := remove (GetTx entry) [] false added in
  exists_ hash added = true
  ∧ r.2 = [GetTx entry]
  ∧ mapTx r.1 = mapTx pool
  ∧ mapNextTx r.1 = mapNextTx pool
  ∧ mapSproutNullifiers r.1 = mapSproutNullifiers pool
  ∧ mapSaplingNullifiers r.1 = mapSaplingNullifiers pool
  ∧ mapOrchardNullifiers r.1 = mapOrchardNullifiers pool
  ∧ mapRecentlyAddedTx r.1 = mapRecentlyAddedTx pool
  ∧ weightedTxTree r.1 = weightedTxTree pool
  ∧ totalTxSize r.1 = totalTxSize pool
  ∧ cachedInnerUsage r.1 = cachedInnerUsage pool.
Proof.
  intros (-> & Hfresh & Hin & Hsp & Hsa & Hor) Hrecent Htree Htotal Husage added r.
  set (txid := GetHash (GetTx entry)) in *.
  assert (∃ e', mapTx added = <[txid := e']> (mapTx pool)
                ∧ GetTx e' = GetTx entry ∧ GetTxSize e' = GetTxSize entry
                ∧ DynamicMemoryUsage e' = DynamicMemoryUsage entry)
    as (e' & Hmap & Htx & Hsize & Huse).
  { subst added. unfold addUnchecked. cbn [fst mapTx]. fold txid. rewrite Hfresh.
    destruct (mapDeltas pool !! txid) as [deltas|]; [|by exists entry].
    case_bool_decide; [|by exists entry].
    exists (UpdateFeeDelta deltas.2 entry). by rewrite alter_insert_eq. }
  assert (mapTx added !! txid = Some e') as Hlook by (by rewrite Hmap, lookup_insert_eq).
  assert (mapNextTx added
          = assign_all (prevouts (GetTx entry)) (λ i _, mkCInPoint (GetTx entry) i)
                       (mapNextTx pool)
          ∧ mapSproutNullifiers added
            = assign_all (sprout_nullifiers (GetTx entry)) (λ _ _, GetTx entry)
                         (mapSproutNullifiers pool)
          ∧ mapSaplingNullifiers added
            = assign_all (sapling_nullifiers (GetTx entry)) (λ _ _, GetTx entry)
                         (mapSaplingNullifiers pool)
          ∧ mapOrchardNullifiers added
            = assign_all (GetOrchardNullifiers (GetTx entry)) (λ _ _, GetTx entry)
                         (mapOrchardNullifiers pool)
          ∧ mapRecentlyAddedTx added = <[txid := GetTx entry]> (mapRecentlyAddedTx pool)
          ∧ weightedTxTree added
            = weightedTxTree pool ++ [(txid, tx_weight (GetTx entry) (GetFee entry))]
          ∧ totalTxSize added = wrap_u64 (totalTxSize pool + GetTxSize entry)
          ∧ cachedInnerUsage added
            = wrap_u64 (cachedInnerUsage pool + DynamicMemoryUsage entry))
    as (Hnext & Hsprout & Hsapling & Horchard & Hrec & Hwt & Htot & Hcache).
  { subst added. unfold addUnchecked. cbn [fst]. fold txid. rewrite Hfresh. done. }
  clearbody added. subst r. rewrite (remove_single (GetTx entry) [] added e' Hlook).
  fold txid. cbn [fst snd app].
  split_and!.
  - unfold exists_. rewrite Hlook. by apply bool_decide_eq_true_2.
  - by rewrite Htx.
  - simpl. rewrite Hmap. by apply delete_insert_id.
  - simpl. rewrite Htx, Hnext. by apply erase_assign_all.
  - simpl. rewrite Htx, Hsprout. by apply erase_assign_all.
  - simpl. rewrite Htx, Hsapling. by apply erase_assign_all.
  - simpl. rewrite Htx, Horchard. by apply erase_assign_all.
  - simpl. rewrite Hrec. by apply delete_insert_id.
  - cbn [weightedTxTree set_weightedTxTree erase_entry].
    rewrite tree_remove_all_spec, Hwt, Htx. apply filter_snoc_drop.
    + intros item Hitem Hh%list_elem_of_singleton. by eapply Htree.
    + simpl. intros Hnot. apply Hnot, list_elem_of_here.
  - simpl. rewrite Hsize, Htot. by apply wrap_u64_add_sub.
  - simpl. rewrite Huse, Hcache. by apply wrap_u64_add_sub.
Qed.
End RoundTrip.

Lemma add_remove_round_trip_witness :
  let added := (addUnchecked ex_weight 1%N (ex_entry ex_a 1000) true CTxMemPool_new).1 in
  let r := remove (GetTx (ex_entry ex_a 1000)) [] false added in
  exists_ 1%N added = true
  ∧ r.2 = [GetTx (ex_entry ex_a 1000)]
  ∧ mapTx r.1 = mapTx CTxMemPool_new
  ∧ mapNextTx r.1 = mapNextTx CTxMemPool_new
  ∧ mapSproutNullifiers r.1 = mapSproutNullifiers CTxMemPool_new
  ∧ mapSaplingNullifiers r.1 = mapSaplingNullifiers CTxMemPool_new
  ∧ mapOrchardNullifiers r.1 = mapOrchardNullifiers CTxMemPool_new
  ∧ mapRecentlyAddedTx r.1 = mapRecentlyAddedTx CTxMemPool_new
  ∧ weightedTxTree r.1 = weightedTxTree CTxMemPool_new
  ∧ totalTxSize r.1 = totalTxSize CTxMemPool_new
  ∧ cachedInnerUsage r.1 = cachedInnerUsage CTxMemPool_new.
Proof.
  apply (add_remove_round_trip ex_weight 1%N (ex_entry ex_a 1000) true CTxMemPool_new).
  - repeat split; intros; reflexivity.
  - reflexivity.
  - intros item Hitem. vm_compute in Hitem. by apply elem_of_nil in Hitem.
  - vm_compute. split; [discriminate | reflexivity].
  - vm_compute. split; [discriminate | reflexivity].
Defined.

(** ** The size counters follow the entries *)

Lemma entries_sum_insert f txs h e :
  txs !! h = None → entries_sum f (<[h:=e]> txs) = f e + entries_sum f txs.
Proof.
  intros Hfresh. unfold entries_sum.
  apply (map_fold_insert_L (λ _ e acc, f e + acc)); [intros; lia | done].
Qed.

Lemma entries_sum_delete f txs h e :
  txs !! h = Some e → entries_sum f txs = f e + entries_sum f (delete h txs).
Proof.
  intros Hin. unfold entries_sum.
  apply (map_fold_delete_L (λ _ e acc, f e + acc)); [intros; lia | done].
Qed.

Lemma entries_sum_alter f g txs h :
  (∀ e, f (g e) = f e) → entries_sum f (alter g h txs) = entries_sum f txs.
Proof.
  intros Hfg. destruct (txs !! h) as [e|] eqn:Hin.
  - rewrite (entries_sum_delete f txs h e Hin).
    rewrite <- (insert_delete_id txs h e Hin) at 1.
    rewrite alter_insert_eq, entries_sum_insert by apply lookup_delete_eq.
    by rewrite Hfg.
  - by rewrite alter_id' by (by rewrite Hin).
Qed.

Lemma wrap_u64_plus_l a b : wrap_u64 (wrap_u64 a + b) = wrap_u64 (a + b).
Proof. unfold wrap_u64. apply Zplus_mod_idemp_l. Qed.

Lemma wrap_u64_minus_l a b : wrap_u64 (wrap_u64 a - b) = wrap_u64 (a - b).
Proof. unfold wrap_u64. apply Zminus_mod_idemp_l. Qed.

Lemma totals_agree_erase_entry h e pool :
  mapTx pool !! h = Some e → totals_agree pool → totals_agree (erase_entry h e pool).
Proof.
  intros Hin [Ht Hu]. split; simpl.
  - rewrite Ht, wrap_u64_minus_l, (entries_sum_delete GetTxSize _ h e Hin). f_equal. lia.
  - rewrite Hu, wrap_u64_minus_l, (entries_sum_delete DynamicMemoryUsage _ h e Hin).
    f_equal. lia.
Qed.

Lemma remove_totals_agree origTx removed fRecursive pool :
  totals_agree pool → totals_agree (remove origTx removed fRecursive pool).1.
Proof.
  intros Hok.
  destruct (remove_unfold origTx removed fRecursive pool)
    as (fuel & p1 & r1 & Hrun & ->). simpl.
  apply (remove_loop_inv fRecursive (λ _ p _, totals_agree p)) in Hrun; [done| | |done].
  - by intros.
  - intros h rest p out e Hp Hin. by apply totals_agree_erase_entry.
Qed.

Lemma conflict_fold_totals_agree `{Countable K} {V} (getm : CTxMemPool → gmap K V)
    (owner : V → CTransaction) tx ks st :
  totals_agree st.1 → totals_agree (foldl (conflict_step getm owner tx) st ks).1.
Proof.
  revert st. induction ks as [|k ks IH]; intros st Hok; simpl; [done|].
  apply IH. unfold conflict_step, remove_conflict.
  destruct (owner <$> getm st.1 !! k) as [c|]; [|done].
  destruct (tx_ne c tx); [by apply remove_totals_agree | done].
Qed.

Lemma removeConflicts_totals_agree tx removed pool :
  totals_agree pool → totals_agree (removeConflicts tx removed pool).1.
Proof.
  intros Hok. rewrite removeConflicts_unfold. by do 4 apply conflict_fold_totals_agree.
Qed.

Lemma removeForBlock_totals_agree vtx nBlockHeight conflicts fCurrentEstimate pool :
  totals_agree pool →
  totals_agree (removeForBlock vtx nBlockHeight conflicts fCurrentEstimate pool).1.
Proof.
  intros Hok. unfold removeForBlock. cbn [fst].
  assert (totals_agree (foldl (λ st tx, remove_block_tx tx st) (pool, conflicts) vtx).1)
    as Hswept; [|done].
  generalize (pool, conflicts) as st, (Hok : totals_agree (pool, conflicts).1).
  induction vtx as [|tx vtx IH]; intros st Hst; simpl; [done|].
  apply IH. unfold remove_block_tx. cbn [fst].
  assert (totals_agree (removeConflicts tx st.2 (remove tx [] false st.1).1).1) as Hc
    by (by apply removeConflicts_totals_agree, remove_totals_agree).
  by destruct Hc.
Qed.

Lemma addUnchecked_totals_agree tx_weight hash entry fCurrentEstimate pool :
  mapTx pool !! GetHash (GetTx entry) = None →
  totals_agree pool →
  totals_agree (addUnchecked tx_weight hash entry fCurrentEstimate pool).1.
Proof.
  intros Hfresh [Ht Hu].
  assert (∀ f, (∀ d e, f (UpdateFeeDelta d e) = f e) →
            entries_sum f (mapTx (addUnchecked tx_weight hash entry fCurrentEstimate pool).1)
            = f entry + entries_sum f (mapTx pool)) as Hsum.
  { intros f Hf. unfold addUnchecked. cbn [fst mapTx]. rewrite Hfresh.
    destruct (mapDeltas pool !! hash) as [deltas|]; [|by apply entries_sum_insert].
    case_bool_decide; [|by apply entries_sum_insert].
    rewrite entries_sum_alter by apply Hf. by apply entries_sum_insert. }
  split.
  - rewrite Hsum by done. cbn [addUnchecked fst totalTxSize].
    rewrite Ht, wrap_u64_plus_l. f_equal. lia.
  - rewrite Hsum by done. cbn [addUnchecked fst cachedInnerUsage].
    rewrite Hu, wrap_u64_plus_l. f_equal. lia.
Qed.

Lemma PrioritiseTransaction_totals_agree double_add hash dPriorityDelta nFeeDelta pool :
  totals_agree pool →
  totals_agree (PrioritiseTransaction double_add hash dPriorityDelta nFeeDelta pool).
Proof.
  intros [Ht Hu]. unfold PrioritiseTransaction. cbn [mapTx set_mapDeltas].
  destruct (mapTx pool !! hash); [|done].
  split; simpl; by rewrite entries_sum_alter.
Qed.

(** X4: [totalTxSize] and [cachedInnerUsage] stay the sums over the entries
    (modulo 2^64) under [remove], [removeConflicts], [removeForBlock],
    [clear], [PrioritiseTransaction], [ClearPrioritisation] and, for a txid
    that is not yet in the pool, [addUnchecked]. *)
Theorem totals_agree_kept (tx_weight : CTransaction → CAmount → Z)
    (double_add : double → double → double) (pool : CTxMemPool) :
  totals_agree pool →
  (∀ origTx removed fRecursive,
     totals_agree (remove origTx removed fRecursive pool).1)
  ∧ (∀ tx removed, totals_agree (removeConflicts tx removed pool).1)
  ∧ (∀ vtx nBlockHeight conflicts fCurrentEstimate,
       totals_agree (removeForBlock vtx nBlockHeight conflicts fCurrentEstimate pool).1)
  ∧ totals_agree (clear pool)
  ∧ (∀ hash dPriorityDelta nFeeDelta,
       totals_agree (PrioritiseTransaction double_add hash dPriorityDelta nFeeDelta pool))
  ∧ (∀ hash, totals_agree (ClearPrioritisation hash pool))
  ∧ (∀ hash entry fCurrentEstimate,
       mapTx pool !! GetHash (GetTx entry) = None →
       totals_agree (addUnchecked tx_weight hash entry fCurrentEstimate pool).1).
Proof.
  intros Hok. split_and!.
  - intros. by apply remove_totals_agree.
  - intros. by apply removeConflicts_totals_agree.
  - intros. by apply removeForBlock_totals_agree.
  - by split.
  - intros. by apply PrioritiseTransaction_totals_agree.
  - intros. by destruct Hok.
  - intros. by apply addUnchecked_totals_agree.
Qed.

Lemma totals_agree_kept_witness :
  (∀ origTx removed fRecursive,
     totals_agree (remove origTx removed fRecursive ex_pool_ab).1)
  ∧ (∀ tx removed, totals_agree (removeConflicts tx removed ex_pool_ab).1)
  ∧ (∀ vtx nBlockHeight conflicts fCurrentEstimate,
       totals_agree
         (removeForBlock vtx nBlockHeight conflicts fCurrentEstimate ex_pool_ab).1)
  ∧ totals_agree (clear ex_pool_ab)
  ∧ (∀ hash dPriorityDelta nFeeDelta,
       totals_agree (PrioritiseTransaction Z.add hash dPriorityDelta nFeeDelta ex_pool_ab))
  ∧ (∀ hash, totals_agree (ClearPrioritisation hash ex_pool_ab))
  ∧ (∀ hash entry fCurrentEstimate,
       mapTx ex_pool_ab !! GetHash (GetTx entry) = None →
       totals_agree (addUnchecked ex_weight hash entry fCurrentEstimate ex_pool_ab).1).
Proof.
  apply (totals_agree_kept ex_weight Z.add ex_pool_ab).
  split; vm_compute; reflexivity.
Defined.

(** ** What a passing check establishes *)

Section CheckerSound.
Variable CCoinsViewCache : Type.
Variable SproutMerkleTree : Type.
Variable coins_IsAvailable : CCoinsViewCache → uint256 → nat → bool.
Variable GetNullifier : CCoinsViewCache → uint256 → ShieldedType → bool.
Variable GetSproutAnchorAt : CCoinsViewCache → uint256 → option SproutMerkleTree.
Variable GetSaplingAnchorAt : CCoinsViewCache → uint256 → bool.
Variable tree_append : uint256 → SproutMerkleTree → SproutMerkleTree.
Variable tree_root : SproutMerkleTree → uint256.
Variable HaveInputs : CCoinsViewCache → CTransaction → bool.
Variable CheckTxInputs : CCoinsViewCache → CTransaction → bool.
Variable UpdateCoins : CTransaction → CCoinsViewCache → CCoinsViewCache.
Variable IsCoinBase : CTransaction → bool.
Variable CTxOut_IsNull : CTxOut → bool.

Local Abbreviation check_inputs' :=
  (check_inputs CCoinsViewCache coins_IsAvailable CTxOut_IsNull).
Local Abbreviation check_entries' :=
  (check_entries CCoinsViewCache SproutMerkleTree coins_IsAvailable GetNullifier
     GetSproutAnchorAt GetSaplingAnchorAt tree_append tree_root CheckTxInputs
     UpdateCoins IsCoinBase CTxOut_IsNull).
Local Abbreviation check' :=
  (check CCoinsViewCache SproutMerkleTree coins_IsAvailable GetNullifier
     GetSproutAnchorAt GetSaplingAnchorAt tree_append tree_root HaveInputs
     CheckTxInputs UpdateCoins IsCoinBase CTxOut_IsNull).

Lemma assertion_returns b u : assertion b = Returns u → b = true.
Proof. by destruct b. Qed.

Lemma obind_returns {A B} (m : Outcome A) (k : A → Outcome B) b :
  m ≫= k = Returns b → ∃ a, m = Returns a ∧ k a = Returns b.
Proof. destruct m; try done. intros Hk. by eexists. Qed.

Lemma check_inputs_returns pcoins pool tx start ins wait b :
  check_inputs' pcoins pool tx start ins wait = Returns b →
  ∀ i txin, ins !! i = Some txin →
    mapNextTx pool !! prevout txin = Some (mkCInPoint tx (start + i)).
Proof.
  revert start wait. induction ins as [|txin0 ins IH]; intros start wait Hret i txin Hi.
  - done.
  - simpl in Hret. apply obind_returns in Hret as (fromPool & Hone & Hrest).
    destruct i as [|i]; simpl in Hi.
    + injection Hi as ->. unfold check_input in Hone.
      apply obind_returns in Hone as (? & _ & Hone).
      apply obind_returns in Hone as (? & Hrow%assertion_returns & _).
      destruct (mapNextTx pool !! prevout txin) as [[p n]|]; [|done].
      apply andb_true_iff in Hrow as [Hp%bool_decide_eq_true Hn%bool_decide_eq_true].
      simpl in *. subst. by rewrite Nat.add_0_r.
    + rewrite <- Nat.add_succ_comm. by eapply IH.
Qed.

Lemma check_entries_returns pcoins pool entries acc acc' :
  check_entries' pcoins pool entries acc = Returns acc' →
  (∀ e i txin, e ∈ entries → vin (GetTx e) !! i = Some txin →
     mapNextTx pool !! prevout txin = Some (mkCInPoint (GetTx e) i))
  ∧ wrap_u64 acc'.1.1.1 = wrap_u64 (acc.1.1.1 + foldr (λ e s, GetTxSize e + s) 0 entries)
  ∧ wrap_u64 acc'.1.1.2
    = wrap_u64 (acc.1.1.2 + foldr (λ e s, DynamicMemoryUsage e + s) 0 entries)
  ∧ (entries = [] → acc' = acc)
  ∧ (entries ≠ [] → wrap_u64 acc'.1.1.1 = acc'.1.1.1 ∧ wrap_u64 acc'.1.1.2 = acc'.1.1.2).
Proof.
  revert acc. induction entries as [|it rest IH]; intros acc Hret.
  - injection Hret as <-. rewrite !Z.add_0_r. split_and!; try done.
    intros e i txin []%elem_of_nil.
  - destruct acc as [[[t u] dup] wait]. cbn [check_entries] in Hret.
    apply obind_returns in Hret as (fDependsWait & Hins & Hret).
    apply obind_returns in Hret as (? & _ & Hret).
    apply obind_returns in Hret as (? & _ & Hret).
    assert (∃ acc1, check_entries' pcoins pool rest acc1 = Returns acc'
              ∧ acc1.1.1.1 = wrap_u64 (t + GetTxSize it)
              ∧ acc1.1.1.2 = wrap_u64 (u + DynamicMemoryUsage it)) as (acc1 & Hrest & Ht & Hu).
    { destruct fDependsWait.
      - by eexists.
      - apply obind_returns in Hret as (dup' & _ & Hret). by eexists. }
    destruct (IH _ Hrest) as (Hrows & Hsum & Husage & Hnil & Hcons).
    cbn [fst snd foldr]. split_and!.
    + intros e i txin [->|He]%elem_of_cons Hi.
      * by apply (check_inputs_returns _ _ _ 0%nat _ _ _ Hins).
      * by eapply Hrows.
    + rewrite Hsum, Ht. unfold wrap_u64.
      rewrite Zplus_mod_idemp_l. f_equal. lia.
    + rewrite Husage, Hu. unfold wrap_u64.
      rewrite Zplus_mod_idemp_l. f_equal. lia.
    + done.
    + intros _. destruct rest as [|it' rest'].
      * rewrite (Hnil eq_refl), Ht, Hu. unfold wrap_u64. by rewrite !Z.mod_mod.
      * by apply Hcons.
Qed.

Lemma entries_sum_foldr f (txs : gmap uint256 CTxMemPoolEntry) :
  entries_sum f txs = foldr (λ e s, f e + s) 0 (map_to_list txs).*2.
Proof.
  unfold entries_sum. rewrite map_fold_foldr.
  induction (map_to_list txs) as [|[h e] l IH]; [done|].
  simpl. by rewrite IH.
Qed.

Lemma checkNullifiers_returns type pool u :
  checkNullifiers type pool = Returns u →
  ∀ nf tx,
    match type with
    | SPROUT => mapSproutNullifiers pool !! nf = Some tx
    | SAPLING => mapSaplingNullifiers pool !! nf = Some tx
    | ORCHARD => mapOrchardNullifiers pool !! nf = Some tx
    | UnknownShieldedType _ => False
    end →
    ∃ e, mapTx pool !! GetHash tx = Some e ∧ GetTx e = tx.
Proof.
  unfold checkNullifiers. intros Hret nf tx Hrow.
  apply obind_returns in Hret as (m & Hm & Hall%assertion_returns).
  rewrite forallb_forall in Hall.
  assert (m !! nf = Some tx) as Hnf.
  { destruct type; try done; by injection Hm as <-. }
  apply elem_of_map_to_list, list_elem_of_In, Hall in Hnf.
  unfold nullifier_row_ok in Hnf. simpl in Hnf.
  destruct (mapTx pool !! GetHash tx) as [e|]; [|done].
  apply bool_decide_eq_true in Hnf. by exists e.
Qed.

(** X5: a check that is switched on, is drawn, and returns normally has
    established that every transparent input of every entry is recorded in
    [mapNextTx] with its spender and position, that every row of
    [mapNextTx] and of the sprout and sapling nullifier maps points to the
    transaction of an entry, and that both size counters are the sums over
    the entries. *)
Theorem check_returns_sound rand pcoins pool :
  nCheckFrequency pool ≠ 0 → rand < nCheckFrequency pool →
  check' rand pcoins pool = Some (Returns tt) →
  (∀ h e i txin, mapTx pool !! h = Some e → vin (GetTx e) !! i = Some txin →
     mapNextTx pool !! prevout txin = Some (mkCInPoint (GetTx e) i))
  ∧ (∀ op ip, mapNextTx pool !! op = Some ip →
       ∃ e, mapTx pool !! GetHash (ptx ip) = Some e ∧ GetTx e = ptx ip
            ∧ prevout <$> vin (ptx ip) !! in_n ip = Some op)
  ∧ (∀ nf tx, mapSproutNullifiers pool !! nf = Some tx →
       ∃ e, mapTx pool !! GetHash tx = Some e ∧ GetTx e = tx)
  ∧ (∀ nf tx, mapSaplingNullifiers pool !! nf = Some tx →
       ∃ e, mapTx pool !! GetHash tx = Some e ∧ GetTx e = tx)
  ∧ totals_agree pool.
Proof.
  intros Hon Hdrawn. unfold check.
  rewrite bool_decide_eq_false_2 by done.
  rewrite bool_decide_eq_false_2 by lia.
  destruct (check_entries' _ _ _ _) as [[[[t u] dup] wait]| |] eqn:Hentries; try done.
  destruct (check_waiting _ _ _ _ _) as [[[]| |]|]; try done.
  intros [= Hret].
  apply obind_returns in Hret as (? & Hnext%assertion_returns & Hret).
  apply obind_returns in Hret as (? & Hsprout & Hret).
  apply obind_returns in Hret as (? & Hsapling & Hret).
  apply obind_returns in Hret as (? & Ht%assertion_returns & Hu%assertion_returns).
  apply bool_decide_eq_true in Ht, Hu.
  apply check_entries_returns in Hentries as (Hrows & Hsum & Husage & Hnil & Hcons).
  cbn [fst snd] in *. split_and!.
  - intros h e i txin He Hi. eapply Hrows; [|done].
    unfold mapTx_entries. apply list_elem_of_fmap. exists (h, e).
    split; [done|]. by apply elem_of_map_to_list.
  - intros op ip Hrow. rewrite forallb_forall in Hnext.
    apply elem_of_map_to_list, list_elem_of_In, Hnext in Hrow.
    unfold next_row_ok in Hrow. simpl in Hrow.
    destruct (mapTx pool !! GetHash (ptx ip)) as [e|]; [|done].
    apply andb_true_iff in Hrow as [[He%bool_decide_eq_true _]%andb_true_iff
                                      Hop%bool_decide_eq_true].
    by exists e.
  - intros nf tx. by apply (checkNullifiers_returns SPROUT pool _ Hsprout).
  - intros nf tx. by apply (checkNullifiers_returns SAPLING pool _ Hsapling).
  - unfold totals_agree. rewrite !entries_sum_foldr. fold (mapTx_entries pool).
    rewrite !Z.add_0_l in *. rewrite Ht, <- Hu, <- Hsum, <- Husage.
    destruct (mapTx_entries pool) as [|e l] eqn:Hl.
    + injection (Hnil eq_refl) as -> -> _ _. done.
    + destruct Hcons as [-> ->]; done.
Qed.
End CheckerSound.

Lemma check_returns_sound_witness :
  nCheckFrequency ex_pool_ab_checked ≠ 0
  ∧ 0 < nCheckFrequency ex_pool_ab_checked
  ∧ (∀ h e i txin, mapTx ex_pool_ab_checked !! h = Some e →
       vin (GetTx e) !! i = Some txin →
       mapNextTx ex_pool_ab_checked !! prevout txin = Some (mkCInPoint (GetTx e) i))
  ∧ (∀ op ip, mapNextTx ex_pool_ab_checked !! op = Some ip →
       ∃ e, mapTx ex_pool_ab_checked !! GetHash (ptx ip) = Some e ∧ GetTx e = ptx ip
            ∧ prevout <$> vin (ptx ip) !! in_n ip = Some op)
  ∧ (∀ nf tx, mapSproutNullifiers ex_pool_ab_checked !! nf = Some tx →
       ∃ e, mapTx ex_pool_ab_checked !! GetHash tx = Some e ∧ GetTx e = tx)
  ∧ (∀ nf tx, mapSaplingNullifiers ex_pool_ab_checked !! nf = Some tx →
       ∃ e, mapTx ex_pool_ab_checked !! GetHash tx = Some e ∧ GetTx e = tx)
  ∧ totals_agree ex_pool_ab_checked.
Proof.
  split; [by vm_compute|]. split; [by vm_compute|].
  apply (check_returns_sound unit unit (λ _ _ _, true) (λ _ _ _, false)
           (λ _ _, Some tt) (λ _ _, true) (λ _ _, tt) (λ _, 7%N) (λ _ _, true)
           (λ _ _, true) (λ _ _, tt) (λ _, false) (λ _, false)
           0 tt ex_pool_ab_checked).
  - by vm_compute.
  - by vm_compute.
  - by vm_compute.
Defined.

(** ** Invariants of reachable pools *)

Lemma recent_sound_erase h e p :
  mapTx p !! h = Some e → recent_sound p → recent_sound (erase_entry h e p).
Proof.
  intros _ Hr h' tx. simpl. intros [Hne Hrow]%lookup_delete_Some.
  rewrite lookup_delete_ne by done. by apply Hr.
Qed.

Lemma next_positions_shrinks p p' :
  pool_shrinks p p' → next_positions p → next_positions p'.
Proof.
  intros Hs Hp op ip Hrow. apply Hp.
  eapply lookup_weaken; [exact Hrow | apply Hs].
Qed.

Lemma removeForBlock_shrinks vtx nBlockHeight conflicts fCurrentEstimate pool :
  pool_shrinks pool (removeForBlock vtx nBlockHeight conflicts fCurrentEstimate pool).1.
Proof.
  destruct (remove_block_fold vtx (pool, conflicts)) as (_ & Hs & _).
  by destruct Hs.
Qed.

(** What [addUnchecked] stores for a txid that is not yet in the pool. *)
Lemma addUnchecked_fresh_mapTx tx_weight hash entry fCurrentEstimate pool :
  mapTx pool !! GetHash (GetTx entry) = None →
  let pool' := (addUnchecked tx_weight hash entry fCurrentEstimate pool).1 in
  (∃ e', mapTx pool' !! GetHash (GetTx entry) = Some e' ∧ GetTx e' = GetTx entry)
  ∧ (∀ h, h ≠ GetHash (GetTx entry) → mapTx pool' !! h = mapTx pool !! h)
  ∧ mapNextTx pool'
    = assign_all (prevouts (GetTx entry)) (λ i _, mkCInPoint (GetTx entry) i)
                 (mapNextTx pool)
  ∧ mapRecentlyAddedTx pool'
    = <[GetHash (GetTx entry) := GetTx entry]> (mapRecentlyAddedTx pool).
Proof.
  intros Hfresh. unfold addUnchecked. cbn [fst mapTx mapNextTx mapRecentlyAddedTx].
  rewrite Hfresh. cbn [default]. split_and!; [| |done|done].
  - destruct (mapDeltas pool !! hash) as [deltas|];
      [case_bool_decide|]; rewrite ?lookup_alter_eq, lookup_insert_eq; by eexists.
  - intros h Hne.
    destruct (mapDeltas pool !! hash) as [deltas|];
      [case_bool_decide|]; rewrite ?lookup_alter_ne by done; by rewrite lookup_insert_ne.
Qed.

Lemma assign_pairs_lookup `{Countable K} {V} (v : nat → K → V) (l : list (nat * K))
    (m : gmap K V) k x :
  foldl (λ acc ik, <[ik.2 := v ik.1 ik.2]> acc) m l !! k = Some x →
  (∃ i, (i, k) ∈ l ∧ x = v i k) ∨ m !! k = Some x.
Proof.
  revert m. induction l as [|[i k'] l IH]; intros m; simpl; [by right|].
  intros [(j & Hj & ->)|Hrow]%IH.
  - left. exists j. split; [by apply list_elem_of_further | done].
  - apply lookup_insert_Some in Hrow as [[<- <-]|[_ Hrow]]; [|by right].
    left. exists i. split; [apply list_elem_of_here | done].
Qed.

Lemma assign_all_lookup `{Countable K} {V} (v : nat → K → V) (keys : list K)
    (m : gmap K V) k x :
  assign_all keys v m !! k = Some x →
  (∃ i, keys !! i = Some k ∧ x = v i k) ∨ m !! k = Some x.
Proof.
  unfold assign_all. intros [(i & Hin & ->)|Hrow]%assign_pairs_lookup; [|by right].
  left. exists i. split; [|done].
  apply list_elem_of_lookup in Hin as [j Hj].
  apply lookup_zip_with_Some in Hj as (i' & k' & [= <- <-] & Hi & Hk).
  apply lookup_seq in Hi as [-> _]. done.
Qed.

Lemma addUnchecked_next_positions tx_weight hash entry fCurrentEstimate pool :
  mapTx pool !! GetHash (GetTx entry) = None →
  next_positions pool →
  next_positions (addUnchecked tx_weight hash entry fCurrentEstimate pool).1.
Proof.
  intros Hfresh Hp op ip.
  destruct (addUnchecked_fresh_mapTx tx_weight hash entry fCurrentEstimate pool Hfresh)
    as (_ & _ & -> & _).
  intros [(i & Hi & ->)|Hrow]%assign_all_lookup; [|by apply Hp].
  simpl. unfold prevouts in Hi. by rewrite list_lookup_fmap in Hi.
Qed.

Lemma addUnchecked_recent_sound tx_weight hash entry fCurrentEstimate pool :
  mapTx pool !! GetHash (GetTx entry) = None →
  recent_sound pool →
  recent_sound (addUnchecked tx_weight hash entry fCurrentEstimate pool).1.
Proof.
  intros Hfresh Hr h tx.
  destruct (addUnchecked_fresh_mapTx tx_weight hash entry fCurrentEstimate pool Hfresh)
    as ((e' & He' & Htx) & Hother & _ & ->).
  intros [[<- <-]|[Hne Hrow]]%lookup_insert_Some.
  - by exists e'.
  - rewrite Hother by done. by apply Hr.
Qed.

Lemma PrioritiseTransaction_recent_sound double_add hash dPriorityDelta nFeeDelta pool :
  recent_sound pool →
  recent_sound (PrioritiseTransaction double_add hash dPriorityDelta nFeeDelta pool).
Proof.
  intros Hr h tx Hrow. unfold PrioritiseTransaction in *. cbn [mapTx set_mapDeltas] in *.
  assert (mapRecentlyAddedTx pool !! h = Some tx) as (e & He & Htx)%Hr
    by (by destruct (mapTx pool !! hash)).
  destruct (mapTx pool !! hash) eqn:Hin; [|by exists e].
  cbn [modify_fee_delta set_mapTx set_mapDeltas mapTx].
  destruct (decide (h = hash)) as [->|Hne].
  - rewrite lookup_alter_eq, He. by eexists.
  - rewrite lookup_alter_ne by done. by exists e.
Qed.

Lemma PrioritiseTransaction_mapNextTx double_add hash dPriorityDelta nFeeDelta pool :
  mapNextTx (PrioritiseTransaction double_add hash dPriorityDelta nFeeDelta pool)
  = mapNextTx pool.
Proof. unfold PrioritiseTransaction. cbn [mapTx set_mapDeltas]. by destruct (mapTx pool !! hash). Qed.

Lemma reachable_recent_sound tx_weight double_add pool :
  reachable tx_weight double_add pool → recent_sound pool.
Proof.
  induction 1 as [|freq pool _ IH|hash entry flag pool _ IH Hadm|tx removed rec pool _ IH
                  |tx removed pool _ IH|vtx height conflicts flag pool _ IH
                  |hash dp df pool _ IH|hash pool _ IH].
  - intros h tx Hrow. by vm_compute in Hrow.
  - exact IH.
  - destruct Hadm as (-> & Hfresh & _). by apply addUnchecked_recent_sound.
  - by apply (remove_keeps recent_sound recent_sound_erase).
  - by apply (removeConflicts_keeps recent_sound recent_sound_erase).
  - by apply (removeForBlock_keeps recent_sound recent_sound_erase).
  - by apply PrioritiseTransaction_recent_sound.
  - exact IH.
Qed.

Lemma reachable_next_positions tx_weight double_add pool :
  reachable tx_weight double_add pool → next_positions pool.
Proof.
  induction 1 as [|freq pool _ IH|hash entry flag pool _ IH Hadm|tx removed rec pool _ IH
                  |tx removed pool _ IH|vtx height conflicts flag pool _ IH
                  |hash dp df pool _ IH|hash pool _ IH].
  - intros op ip Hrow. by vm_compute in Hrow.
  - exact IH.
  - destruct Hadm as (-> & Hfresh & _). by apply addUnchecked_next_positions.
  - eapply next_positions_shrinks; [apply remove_shrinks | done].
  - eapply next_positions_shrinks; [apply removeConflicts_only_removeTx | done].
  - eapply next_positions_shrinks; [apply removeForBlock_shrinks | done].
  - intros op ip. rewrite PrioritiseTransaction_mapNextTx. apply IH.
  - exact IH.
Qed.

Lemma reachable_totals_agree tx_weight double_add pool :
  reachable tx_weight double_add pool → totals_agree pool.
Proof.
  induction 1 as [|freq pool _ IH|hash entry flag pool _ IH Hadm|tx removed rec pool _ IH
                  |tx removed pool _ IH|vtx height conflicts flag pool _ IH
                  |hash dp df pool _ IH|hash pool _ IH].
  - split; by vm_compute.
  - exact IH.
  - destruct Hadm as (-> & Hfresh & _). by apply addUnchecked_totals_agree.
  - by apply remove_totals_agree.
  - by apply removeConflicts_totals_agree.
  - by apply removeForBlock_totals_agree.
  - by apply PrioritiseTransaction_totals_agree.
  - exact IH.
Qed.

Lemma pool_indexed_checkNullifiers pool type :
  pool_indexed pool →
  type = SPROUT ∨ type = SAPLING ∨ type = ORCHARD →
  checkNullifiers type pool = Returns tt.
Proof.
  intros Hidx Htype. unfold checkNullifiers.
  assert (∀ m : gmap uint256 CTransaction,
            (∀ k v, m !! k = Some v →
               ∃ e, mapTx pool !! GetHash v = Some e ∧ GetTx e = v) →
            forallb (nullifier_row_ok pool) (map_to_list m) = true) as Hall.
  { intros m Hm. apply forallb_forall.
    intros [nf tx] Hrow%list_elem_of_In%elem_of_map_to_list.
    destruct (Hm nf tx Hrow) as (e & He & Htx).
    unfold nullifier_row_ok. simpl. rewrite He. by apply bool_decide_eq_true. }
  destruct Hidx.
  destruct Htype as [-> | [-> | ->]]; simpl; rewrite Hall; try done; intros k v Hrow.
  - destruct (idx_sprout_sound0 k v Hrow) as (e & He & Htx & _). by exists e.
  - destruct (idx_sapling_sound0 k v Hrow) as (e & He & Htx & _). by exists e.
  - destruct (idx_orchard_sound0 k v Hrow) as (e & He & Htx & _). by exists e.
Qed.

Lemma next_rows_ok pool :
  pool_indexed pool → next_positions pool →
  forallb (next_row_ok pool) (map_to_list (mapNextTx pool)) = true.
Proof.
  intros Hidx Hpos. apply forallb_forall.
  intros [op ip] Hrow%list_elem_of_In%elem_of_map_to_list.
  destruct (idx_next_sound _ Hidx op ip Hrow) as (e & He & Htx & _).
  specialize (Hpos op ip Hrow).
  unfold next_row_ok. simpl. rewrite He.
  rewrite !andb_true_iff, !bool_decide_eq_true. split_and!; [done| |done].
  apply lookup_lt_is_Some. destruct (vin (ptx ip) !! in_n ip); [by eexists | done].
Qed.

(** X6: in every pool reached from a new one by admissions, removals,
    block sweeps and prioritisation (without [clear]) the cross maps agree
    with the entries, the size counters are the sums over the entries,
    every recently added transaction is still an entry, and the assertions
    of [check] that do not consult the coin view hold: the loop over
    [mapNextTx] and [checkNullifiers] for each of the three kinds. *)
Theorem reachable_invariants tx_weight double_add pool :
  reachable tx_weight double_add pool →
  pool_indexed pool
  ∧ next_positions pool
  ∧ recent_sound pool
  ∧ totals_agree pool
  ∧ forallb (next_row_ok pool) (map_to_list (mapNextTx pool)) = true
  ∧ checkNullifiers SPROUT pool = Returns tt
  ∧ checkNullifiers SAPLING pool = Returns tt
  ∧ checkNullifiers ORCHARD pool = Returns tt.
Proof.
  intros Hreach.
  assert (pool_indexed pool) as Hidx by (by eapply reachable_indexed).
  assert (next_positions pool) as Hpos by (by eapply reachable_next_positions).
  split_and!; try done.
  - by eapply reachable_recent_sound.
  - by eapply reachable_totals_agree.
  - by apply next_rows_ok.
  - apply pool_indexed_checkNullifiers; auto.
  - apply pool_indexed_checkNullifiers; auto.
  - apply pool_indexed_checkNullifiers; auto.
Qed.

Lemma ex_pool_ab_reachable : reachable ex_weight Z.add ex_pool_ab.
Proof.
  unfold ex_pool_ab, ex_add.
  do 2 (apply reach_add;
        [|split_and!; try reflexivity;
          intros k Hk; vm_compute in Hk;
          repeat (apply elem_of_cons in Hk as [->|Hk]; [reflexivity|]);
          by apply elem_of_nil in Hk]).
  apply reach_new.
Qed.

Lemma reachable_invariants_witness :
  pool_indexed ex_pool_ab
  ∧ next_positions ex_pool_ab
  ∧ recent_sound ex_pool_ab
  ∧ totals_agree ex_pool_ab
  ∧ forallb (next_row_ok ex_pool_ab) (map_to_list (mapNextTx ex_pool_ab)) = true
  ∧ checkNullifiers SPROUT ex_pool_ab = Returns tt
  ∧ checkNullifiers SAPLING ex_pool_ab = Returns tt
  ∧ checkNullifiers ORCHARD ex_pool_ab = Returns tt.
Proof.
  apply (reachable_invariants ex_weight Z.add ex_pool_ab).
  apply ex_pool_ab_reachable.
Defined.

(** ** The check ends *)

Section CheckerTotal.
Variable CCoinsViewCache : Type.
Variable SproutMerkleTree : Type.
Variable coins_IsAvailable : CCoinsViewCache → uint256 → nat → bool.
Variable GetNullifier : CCoinsViewCache → uint256 → ShieldedType → bool.
Variable GetSproutAnchorAt : CCoinsViewCache → uint256 → option SproutMerkleTree.
Variable GetSaplingAnchorAt : CCoinsViewCache → uint256 → bool.
Variable tree_append : uint256 → SproutMerkleTree → SproutMerkleTree.
Variable tree_root : SproutMerkleTree → uint256.
Variable HaveInputs : CCoinsViewCache → CTransaction → bool.
Variable CheckTxInputs : CCoinsViewCache → CTransaction → bool.
Variable UpdateCoins : CTransaction → CCoinsViewCache → CCoinsViewCache.
Variable IsCoinBase : CTransaction → bool.
Variable CTxOut_IsNull : CTxOut → bool.

(** A pass either takes an entry off the waiting list or moves it to the
    back and counts a step; the assertion stops the loop before the steps
    reach the length of the list. *)
Lemma check_waiting_total fuel waitingOnDependants stepsSinceLastRemove mempoolDuplicate :
  (waitingOnDependants = [] ∨ stepsSinceLastRemove < length waitingOnDependants)%nat →
  (length waitingOnDependants * (length waitingOnDependants + 1)
   ≤ 2 * fuel + 2 * stepsSinceLastRemove)%nat →
  ∃ o, check_waiting CCoinsViewCache HaveInputs CheckTxInputs UpdateCoins IsCoinBase
         fuel waitingOnDependants stepsSinceLastRemove mempoolDuplicate = Some o.
Proof.
  revert waitingOnDependants stepsSinceLastRemove mempoolDuplicate.
  induction fuel as [|fuel IH]; intros wait s dup Hs Hfuel.
  - destruct wait as [|entry rest]; [by eexists|].
    destruct Hs as [?|Hs]; [done|]. simpl in *. nia.
  - destruct wait as [|entry rest]; [by eexists|].
    destruct Hs as [?|Hs]; [done|]. cbn [check_waiting].
    destruct (HaveInputs dup (GetTx entry)).
    + destruct (connect_tx _ _ _ _ _ _) as [dup'| |]; [|by eexists..].
      apply IH.
      * destruct rest; [by left | right; simpl; lia].
      * simpl in *. nia.
    + case_bool_decide as Hsteps; [|by eexists].
      apply IH.
      * by right.
      * rewrite length_app in *. simpl in *. nia.
Qed.

(** X7: [check] ends on every pool, coin view and random draw: the passes
    of its waiting loop are bounded by the square of the list's length,
    which is the bound the model runs it with. *)
Theorem check_terminates (rand : Z) (pcoins : CCoinsViewCache) (pool : CTxMemPool) :
  ∃ o, check CCoinsViewCache SproutMerkleTree coins_IsAvailable GetNullifier
         GetSproutAnchorAt GetSaplingAnchorAt tree_append tree_root HaveInputs
         CheckTxInputs UpdateCoins IsCoinBase CTxOut_IsNull rand pcoins pool = Some o.
Proof.
  unfold check.
  case_bool_decide; [by eexists|]. case_bool_decide; [by eexists|].
  destruct (check_entries _ _ _ _ _ _ _ _ _ _ _ _ _ _ _ _) as [[[[t u] dup] wait]| |];
    [|by eexists..].
  destruct (check_waiting_total (S (length wait) * S (length wait)) wait 0 dup) as [o Ho].
  - destruct wait; [by left | right; simpl; lia].
  - nia.
  - rewrite Ho. destruct o as [[]| |]; by eexists.
Qed.
End CheckerTotal.

(** ** The sweeps: removeExpired, removeWithoutBranchId, removeWithAnchor, removeForReorg *)

Lemma remove_each_kept l pool : invariants_kept pool (remove_each l pool).
Proof.
  destruct (remove_each_gone l pool) as [Hs _].
  split_and!; [| | | |done].
  - apply remove_each_keeps; [|apply pool_indexed_set_weightedTxTree].
    intros h e p Hin Hp. by apply pool_indexed_erase_entry.
  - by apply next_positions_shrinks.
  - apply remove_each_keeps; [apply recent_sound_erase | by intros].
  - apply remove_each_keeps; [apply totals_agree_erase_entry | by intros].
Qed.

#[global] Instance invariants_kept_preorder : PreOrder invariants_kept.
Proof.
  split.
  - intros p. by split_and!.
  - intros p1 p2 p3 (A1 & B1 & C1 & D1 & E1) (A2 & B2 & C2 & D2 & E2).
    split_and!; [auto..|by etrans].
Qed.

Lemma remove_kept origTx removed fRecursive pool :
  invariants_kept pool (remove origTx removed fRecursive pool).1.
Proof.
  split_and!.
  - apply remove_indexed.
  - apply next_positions_shrinks, remove_shrinks.
  - apply remove_keeps; [apply recent_sound_erase | by intros].
  - apply remove_totals_agree.
  - apply remove_shrinks.
Qed.

Section SweepProps.
Variable IsExpiredTx : CTransaction → Z → bool.
Variable CCoinsViewCache : Type.
Variable CCoins : Type.
Variable CheckFinalTx : CTransaction → Z → bool.
Variable AccessCoins : CCoinsViewCache → uint256 → option CCoins.
Variable coins_IsCoinBase : CCoins → bool.
Variable coins_nHeight : CCoins → Z.
Variable COINBASE_MATURITY : Z.

Local Abbreviation removeForReorg' :=
  (removeForReorg CCoinsViewCache CCoins CheckFinalTx AccessCoins coins_IsCoinBase
     coins_nHeight COINBASE_MATURITY).
Local Abbreviation reorg_scan' :=
  (reorg_scan CCoinsViewCache CCoins CheckFinalTx AccessCoins coins_IsCoinBase
     coins_nHeight COINBASE_MATURITY).
Local Abbreviation reorg_entry' :=
  (reorg_entry CCoinsViewCache CCoins CheckFinalTx AccessCoins coins_IsCoinBase
     coins_nHeight COINBASE_MATURITY).
Local Abbreviation reorg_inputs' :=
  (reorg_inputs CCoinsViewCache CCoins AccessCoins coins_IsCoinBase
     coins_nHeight COINBASE_MATURITY).
Local Abbreviation immature' := (immature CCoins coins_IsCoinBase coins_nHeight COINBASE_MATURITY).

Lemma removeExpired_kept nBlockHeight pool :
  invariants_kept pool (removeExpired IsExpiredTx nBlockHeight pool).1.
Proof.
  unfold removeExpired.
  generalize (filter (λ tx, IsExpiredTx tx nBlockHeight = true) (GetTx <$> mapTx_entries pool)).
  intros l. change pool with (pool, @nil uint256).1 at 1.
  generalize (pool, @nil uint256) as st.
  induction l as [|tx l IH]; intros st; simpl; [done|].
  etrans; [|apply IH]. apply remove_kept.
Qed.

Lemma removeWithAnchor_returns invalidRoot type pool pool' :
  removeWithAnchor invalidRoot type pool = Returns pool' →
  ∃ hits, anchor_scan invalidRoot type (mapTx_entries pool) = Returns hits
          ∧ pool' = remove_each hits pool.
Proof.
  unfold removeWithAnchor. intros (hits & Hscan & [= <-])%obind_returns. by exists hits.
Qed.

Lemma removeForReorg_returns pcoins nMemPoolHeight flags pool pool' :
  removeForReorg' pcoins nMemPoolHeight flags pool = Returns pool' →
  ∃ hits, reorg_scan' pcoins nMemPoolHeight flags pool (mapTx_entries pool) = Returns hits
          ∧ pool' = remove_each hits pool.
Proof.
  unfold removeForReorg. intros (hits & Hscan & [= <-])%obind_returns. by exists hits.
Qed.

(** X8: each sweep keeps what held before it: the agreement of the cross
    maps with the entries, the input positions in [mapNextTx], the
    recently-added rows, and the size counters; and it adds no entry and
    no row.  [removeWithAnchor] and [removeForReorg] are considered when
    they return. *)
Theorem sweeps_keep_invariants (pool : CTxMemPool) :
  (∀ nBlockHeight, invariants_kept pool (removeExpired IsExpiredTx nBlockHeight pool).1)
  ∧ (∀ nMemPoolBranchId, invariants_kept pool (removeWithoutBranchId nMemPoolBranchId pool))
  ∧ (∀ invalidRoot type pool',
       removeWithAnchor invalidRoot type pool = Returns pool' → invariants_kept pool pool')
  ∧ (∀ pcoins nMemPoolHeight flags pool',
       removeForReorg' pcoins nMemPoolHeight flags pool = Returns pool' →
       invariants_kept pool pool').
Proof.
  split_and!.
  - intros h. apply removeExpired_kept.
  - intros b. apply remove_each_kept.
  - intros root type pool' (hits & _ & ->)%removeWithAnchor_returns. apply remove_each_kept.
  - intros pcoins h flags pool' (hits & _ & ->)%removeForReorg_returns.
    apply remove_each_kept.
Qed.

Lemma reorg_inputs_hit pcoins nMemPoolHeight pool ins b :
  reorg_inputs' pcoins nMemPoolHeight pool ins = Returns b →
  (∃ txin, txin ∈ ins ∧ mapTx pool !! op_hash (prevout txin) = None
           ∧ immature' nMemPoolHeight (AccessCoins pcoins (op_hash (prevout txin))) = true) →
  b = true.
Proof.
  induction ins as [|txin0 rest IH]; simpl; intros Hret (txin & Hin & Hfree & Him).
  - by apply elem_of_nil in Hin.
  - destruct (mapTx pool !! op_hash (prevout txin0)) eqn:Hparent.
    + apply IH; [done|]. exists txin. split; [|done].
      apply elem_of_cons in Hin as [->|Hin]; [congruence | done].
    + apply obind_returns in Hret as (? & _ & Hret).
      destruct (immature' nMemPoolHeight (AccessCoins pcoins (op_hash (prevout txin0))))
        eqn:Him0; [congruence|].
      apply IH; [done|]. exists txin. split; [|done].
      apply elem_of_cons in Hin as [->|Hin]; [congruence | done].
Qed.

Lemma reorg_inputs_miss pcoins nMemPoolHeight pool ins b :
  reorg_inputs' pcoins nMemPoolHeight pool ins = Returns b →
  b = true →
  ∃ txin, txin ∈ ins ∧ mapTx pool !! op_hash (prevout txin) = None
          ∧ immature' nMemPoolHeight (AccessCoins pcoins (op_hash (prevout txin))) = true.
Proof.
  induction ins as [|txin0 rest IH]; simpl; intros Hret ->; [done|].
  destruct (mapTx pool !! op_hash (prevout txin0)) eqn:Hparent.
  - destruct (IH Hret eq_refl) as (txin & Hin & H1 & H2).
    exists txin. split; [by apply list_elem_of_further | done].
  - apply obind_returns in Hret as (? & _ & Hret).
    destruct (immature' nMemPoolHeight (AccessCoins pcoins (op_hash (prevout txin0))))
      eqn:Him0.
    + exists txin0. split; [apply list_elem_of_here | done].
    + destruct (IH Hret eq_refl) as (txin & Hin & H1 & H2).
      exists txin. split; [by apply list_elem_of_further | done].
Qed.

Lemma reorg_scan_hits pcoins nMemPoolHeight flags pool entries hits :
  reorg_scan' pcoins nMemPoolHeight flags pool entries = Returns hits →
  ∀ tx, tx ∈ hits ↔
    ∃ e, e ∈ entries ∧ GetTx e = tx
         ∧ reorg_entry' pcoins nMemPoolHeight flags pool e = Returns true.
Proof.
  revert hits. induction entries as [|it rest IH]; simpl; intros hits Hret tx.
  - injection Hret as <-. split; [by intros ?%elem_of_nil|].
    by intros (e & ?%elem_of_nil & _).
  - apply obind_returns in Hret as (hit & Hhit & Hret).
    apply obind_returns in Hret as (more & Hmore & [= <-]).
    specialize (IH more Hmore tx). split.
    + intros Htx.
      assert ((hit = true ∧ tx = GetTx it) ∨ tx ∈ more) as [[-> ->]|Hin].
      { destruct hit; [|by right].
        apply elem_of_cons in Htx as [->|Htx]; [by left | by right]. }
      * exists it. split; [apply list_elem_of_here | done].
      * apply IH in Hin as (e & He & Hx & Hr). exists e.
        split; [by apply list_elem_of_further | done].
    + intros (e & [->|He]%elem_of_cons & <- & Hr).
      * rewrite Hr in Hhit. injection Hhit as <-. apply list_elem_of_here.
      * assert (GetTx e ∈ more) as Hin by (apply IH; by exists e).
        destruct hit; [by apply list_elem_of_further | done].
Qed.

Lemma reorg_scan_each pcoins nMemPoolHeight flags pool entries hits :
  reorg_scan' pcoins nMemPoolHeight flags pool entries = Returns hits →
  ∀ e, e ∈ entries → ∃ b, reorg_entry' pcoins nMemPoolHeight flags pool e = Returns b.
Proof.
  revert hits. induction entries as [|it rest IH]; simpl; intros hits Hret e He.
  - by apply elem_of_nil in He.
  - apply obind_returns in Hret as (hit & Hhit & Hret).
    apply obind_returns in Hret as (more & Hmore & _).
    apply elem_of_cons in He as [->|He]; [by exists hit | by eapply IH].
Qed.

(** X9: when [removeForReorg] returns, no entry is left whose transaction
    is not final, nor one that spends a coinbase and has an input, with no
    parent in the pool, whose coins are missing or are a coinbase less than
    [COINBASE_MATURITY] blocks deep. *)
Theorem removeForReorg_removes pcoins nMemPoolHeight flags pool pool' :
  removeForReorg' pcoins nMemPoolHeight flags pool = Returns pool' →
  ∀ e, e ∈ mapTx_entries pool →
    CheckFinalTx (GetTx e) flags = false
    ∨ (spendsCoinbase e = true
       ∧ ∃ txin, txin ∈ vin (GetTx e) ∧ mapTx pool !! op_hash (prevout txin) = None
           ∧ immature' nMemPoolHeight (AccessCoins pcoins (op_hash (prevout txin))) = true) →
    mapTx pool' !! GetHash (GetTx e) = None.
Proof.
  intros (hits & Hscan & ->)%removeForReorg_returns e He Hbad.
  apply remove_each_gone.
  apply (reorg_scan_hits _ _ _ _ _ _ Hscan). exists e. split_and!; [done|done|].
  destruct (reorg_scan_each _ _ _ _ _ _ Hscan e He) as [b Hb].
  rewrite Hb. f_equal. unfold reorg_entry in Hb.
  destruct Hbad as [Hfinal|[Hcb Hin]].
  - rewrite Hfinal in Hb. by injection Hb.
  - destruct (CheckFinalTx (GetTx e) flags); simpl in Hb; [|by injection Hb].
    rewrite Hcb in Hb. by eapply reorg_inputs_hit.
Qed.

(** X10: [removeForReorg] removes nothing else at the top: a pool whose
    entries are all final and do not spend a coinbase is returned as it
    is. *)
Theorem removeForReorg_unchanged pcoins nMemPoolHeight flags pool :
  (∀ e, e ∈ mapTx_entries pool →
     CheckFinalTx (GetTx e) flags = true ∧ spendsCoinbase e = false) →
  removeForReorg' pcoins nMemPoolHeight flags pool = Returns pool.
Proof.
  intros Hall. unfold removeForReorg.
  assert (reorg_scan' pcoins nMemPoolHeight flags pool (mapTx_entries pool) = Returns [])
    as ->; [|done].
  induction (mapTx_entries pool) as [|it rest IH]; simpl; [done|].
  destruct (Hall it) as [Hfinal Hcb]; [apply list_elem_of_here|].
  unfold reorg_entry. rewrite Hfinal, Hcb. simpl.
  rewrite IH; [done|]. intros e He. by apply Hall, list_elem_of_further.
Qed.

(** X11: with the checker switched off [removeForReorg] never fails: it
    returns a pool. *)
Theorem removeForReorg_total pcoins nMemPoolHeight flags pool :
  nCheckFrequency pool = 0 →
  ∃ pool',
    removeForReorg CCoinsViewCache CCoins CheckFinalTx AccessCoins coins_IsCoinBase
      coins_nHeight COINBASE_MATURITY pcoins nMemPoolHeight flags pool
    = Returns pool'.
Proof.
  intros Hoff. unfold removeForReorg.
  assert (∃ hits, reorg_scan' pcoins nMemPoolHeight flags pool (mapTx_entries pool)
                  = Returns hits) as [hits ->]; [|by eexists].
  induction (mapTx_entries pool) as [|it rest [more IH]]; simpl; [by eexists|].
  assert (∃ b, reorg_entry' pcoins nMemPoolHeight flags pool it = Returns b) as [b ->].
  { unfold reorg_entry. destruct (negb _); [by eexists|].
    destruct (spendsCoinbase it); [|by eexists].
    induction (vin (GetTx it)) as [|txin ins [b IHins]]; simpl; [by eexists|].
    destruct (mapTx pool !! op_hash (prevout txin)); [by eexists|].
    rewrite bool_decide_eq_false_2 by (intros Hne; apply Hne, Hoff). simpl.
    destruct (immature' _ _); by eexists. }
  rewrite IH. by eexists.
Qed.
End SweepProps.

Lemma removeForReorg_removes_witness :
  mapTx (remove ex_b [] true ex_pool_ab).1 !! GetHash (GetTx (ex_entry ex_b 1000)) = None.
Proof.
  apply (removeForReorg_removes unit (bool * Z)
           (λ tx _, negb (N.eqb (GetHash tx) 2)) (λ _ _, None) fst snd 100
           tt 0 0 ex_pool_ab (remove ex_b [] true ex_pool_ab).1).
  - by vm_compute.
  - vm_compute. repeat constructor.
  - left. reflexivity.
Defined.

Lemma removeForReorg_unchanged_witness :
  removeForReorg unit (bool * Z) (λ _ _, true) (λ _ _, None) fst snd 100 tt 0 0 ex_pool_ab
  = Returns ex_pool_ab.
Proof.
  apply (removeForReorg_unchanged unit (bool * Z) (λ _ _, true) (λ _ _, None) fst snd 100
           tt 0 0 ex_pool_ab).
  intros e He. vm_compute in He.
  repeat (apply elem_of_cons in He as [->|He]; [by split|]).
  by apply elem_of_nil in He.
Defined.

Lemma removeForReorg_total_witness :
  ∃ pool',
    removeForReorg unit (bool * Z) (λ _ _, false) (λ _ _, None) fst snd 100 tt 0 0 ex_pool_ab
    = Returns pool'.
Proof.
  apply (removeForReorg_total unit (bool * Z) (λ _ _, false) (λ _ _, None) fst snd 100
           tt 0 0 ex_pool_ab).
  reflexivity.
Defined.

(** ** removeWithoutBranchId and removeWithAnchor *)

(** X12: on a pool whose entries are stored under their txids,
    [removeWithoutBranchId(id)] takes every entry validated under another
    branch out of the pool and adds none: every entry of the pool afterwards
    was validated under the branch [id]. *)
Theorem removeWithoutBranchId_leaves (nMemPoolBranchId : Z) (pool : CTxMemPool) :
  keyed_by_hash (mapTx pool) →
  let after := removeWithoutBranchId nMemPoolBranchId pool in
  (∀ h e, mapTx after !! h = Some e → nBranchId e = nMemPoolBranchId)
  ∧ (∀ h e, mapTx pool !! h = Some e → nBranchId e ≠ nMemPoolBranchId →
       mapTx after !! h = None)
  ∧ mapTx after ⊆ mapTx pool.
Proof.
  intros Hkeyed after. subst after. unfold removeWithoutBranchId.
  set (l := GetTx <$> filter (λ e, nBranchId e ≠ nMemPoolBranchId) (mapTx_entries pool)).
  destruct (remove_each_gone l pool) as [Hs Hgone].
  assert (∀ h e, mapTx pool !! h = Some e → nBranchId e ≠ nMemPoolBranchId →
            mapTx (remove_each l pool) !! h = None) as Hother.
  { intros h e Hin Hne.
    assert (GetTx e ∈ l) as Hl.
    { apply list_elem_of_fmap. exists e. split; [done|].
      apply list_elem_of_filter. split; [done|].
      unfold mapTx_entries. apply list_elem_of_fmap. exists (h, e).
      split; [done | by apply elem_of_map_to_list]. }
    apply Hgone in Hl. by rewrite (Hkeyed h e Hin) in Hl. }
  split_and!.
  - intros h e Hleft.
    destruct (decide (nBranchId e = nMemPoolBranchId)) as [|Hne]; [done|].
    assert (mapTx pool !! h = Some e) as Hin
      by (eapply lookup_weaken; [exact Hleft | apply Hs]).
    rewrite (Hother h e Hin Hne) in Hleft. done.
  - done.
  - apply Hs.
Qed.

Lemma removeWithoutBranchId_leaves_witness :
  let after := removeWithoutBranchId 1 ex_pool_mixed in
  (mapTx ex_pool_mixed !! GetHash ex_c = Some (ex_entry_branch2 ex_c 1000)
   ∧ nBranchId (ex_entry_branch2 ex_c 1000) = 2
   ∧ mapTx after !! GetHash ex_c = None
   ∧ mapTx after !! GetHash ex_a = Some (ex_entry ex_a 1000))
  ∧ (∀ h e, mapTx after !! h = Some e → nBranchId e = 1)
  ∧ (∀ h e, mapTx ex_pool_mixed !! h = Some e → nBranchId e ≠ 1 →
       mapTx after !! h = None)
  ∧ mapTx after ⊆ mapTx ex_pool_mixed.
Proof.
  pose proof (removeWithoutBranchId_leaves 1 ex_pool_mixed) as H. cbv zeta in H.
  destruct H as (Hleft & Hgone & Hsub).
  { apply idx_keyed, pool_indexed_check_sound. vm_compute. reflexivity. }
  split; [|by split_and!].
  split_and!.
  - vm_compute. reflexivity.
  - vm_compute. reflexivity.
  - apply (Hgone 3%N (ex_entry_branch2 ex_c 1000)).
    + vm_compute. reflexivity.
    + vm_compute. discriminate.
  - vm_compute. reflexivity.
Defined.

(** X13: on a pool without entries [removeWithAnchor] returns the pool as
    it is, whatever the kind: the throw for a kind other than SPROUT and
    SAPLING sits inside the loop over the entries. *)
Theorem removeWithAnchor_empty (invalidRoot : uint256) (type : ShieldedType)
    (pool : CTxMemPool) :
  mapTx pool = ∅ → removeWithAnchor invalidRoot type pool = Returns pool.
Proof.
  intros Hempty. unfold removeWithAnchor, mapTx_entries.
  by rewrite Hempty, map_to_list_empty.
Qed.

Lemma removeWithAnchor_empty_witness :
  removeWithAnchor 9%N ORCHARD CTxMemPool_new = Returns CTxMemPool_new.
Proof.
  apply (removeWithAnchor_empty 9%N ORCHARD CTxMemPool_new). reflexivity.
Defined.

Lemma removeWithAnchor_sprout_sapling_witness :
  ∃ pool', removeWithAnchor 7%N SPROUT ex_pool_ab = Returns pool'
    ∧ pool_shrinks ex_pool_ab pool'
    ∧ (mapTx ex_pool_ab !! GetHash ex_b = Some (ex_entry ex_b 1000)
       ∧ mapTx pool' !! GetHash ex_b = None)
    ∧ (∀ h e, mapTx ex_pool_ab !! h = Some e →
         (SPROUT = SPROUT ∧ ∃ joinsplit, joinsplit ∈ vJoinSplit (GetTx e)
                                          ∧ js_anchor joinsplit = 7%N)
         ∨ (SPROUT = SAPLING ∧ ∃ sd, sd ∈ vShieldedSpend (GetTx e) ∧ sd_anchor sd = 7%N) →
         mapTx pool' !! GetHash (GetTx e) = None
         ∧ (keyed_by_hash (mapTx ex_pool_ab) → mapTx pool' !! h = None)).
Proof.
  destruct (removeWithAnchor_sprout_sapling 7%N SPROUT ex_pool_ab) as (pool' & Hret & Hs & Hall & _).
  { by left. }
  exists pool'. split; [done|]. split; [done|]. split; [|done].
  assert (mapTx ex_pool_ab !! GetHash ex_b = Some (ex_entry ex_b 1000)) as Hb
    by (vm_compute; reflexivity).
  split; [done|].
  destruct (Hall _ _ Hb) as [Hout _]; [|exact Hout].
  left. split; [done|].
  exists (mkJSDescription 7%N [55%N] []). split; [apply list_elem_of_here | done].
Defined.

(** ** The insight explorer indexes *)

Lemma insert_new_all_other `{Countable K} {A} (rows : list (K * A)) (m : gmap K A) k :
  k ∉ rows.*1 → insert_new_all rows m !! k = m !! k.
Proof.
  unfold insert_new_all. revert m.
  induction rows as [|[k' v] rows IH]; intros m Hout; simpl; [done|].
  rewrite fmap_cons in Hout. apply not_elem_of_cons in Hout as [Hne Hout].
  rewrite IH by done. unfold insert_new. simpl.
  destruct (m !! k'); [done | by rewrite lookup_insert_ne].
Qed.

Lemma erase_insert_new_all `{Countable K} {A} (rows : list (K * A)) (m : gmap K A) :
  (∀ k, k ∈ rows.*1 → m !! k = None) → erase_all rows.*1 (insert_new_all rows m) = m.
Proof.
  intros Hfree. apply map_eq. intros k. rewrite lookup_erase_all.
  case_decide as Hk; [by rewrite Hfree | by apply insert_new_all_other].
Qed.

Lemma insert_new_all_first `{Countable K} {A} (rows : list (K * A)) (m : gmap K A) k v :
  NoDup rows.*1 → (∀ k, k ∈ rows.*1 → m !! k = None) → (k, v) ∈ rows →
  insert_new_all rows m !! k = Some v.
Proof.
  unfold insert_new_all. revert m.
  induction rows as [|[k0 v0] rows IH]; intros m Hnd Hfree Hin; simpl.
  - by apply elem_of_nil in Hin.
  - rewrite fmap_cons in Hnd, Hfree. apply NoDup_cons in Hnd as [Hk0 Hnd].
    unfold insert_new at 2. simpl. rewrite (Hfree k0) by apply list_elem_of_here.
    apply elem_of_cons in Hin as [[= -> ->]|Hin].
    + fold (insert_new_all rows (<[k0:=v0]> m)).
      by rewrite insert_new_all_other, lookup_insert_eq.
    + apply IH; [done| |done]. intros k' Hk'.
      rewrite lookup_insert_ne by (by intros ->).
      by apply Hfree, list_elem_of_further.
Qed.

Lemma insert_new_fresh `{Countable K} {A} (k : K) (v : A) (m : gmap K A) :
  m !! k = None → insert_new k v m = <[k := v]> m.
Proof. intros Hfresh. unfold insert_new. by rewrite Hfresh. Qed.

Section InsightProps.
Variable CCoinsViewCache : Type.
Variable GetOutputFor : CCoinsViewCache → CTxIn → CTxOut.
Variable GetType : list N → N.
Variable AddressHash : list N → N.
Variable UNKNOWN : N.
Variable CMempoolAddressDelta_received : Z → CAmount → CMempoolAddressDelta.

Local Abbreviation spent_rows' := (spent_rows CCoinsViewCache GetOutputFor GetType AddressHash).
Local Abbreviation addSpentIndex' :=
  (addSpentIndex CCoinsViewCache GetOutputFor GetType AddressHash).
Local Abbreviation address_rows' :=
  (address_rows CCoinsViewCache GetOutputFor GetType AddressHash UNKNOWN
     CMempoolAddressDelta_received).
Local Abbreviation addAddressIndex' :=
  (addAddressIndex CCoinsViewCache GetOutputFor GetType AddressHash UNKNOWN
     CMempoolAddressDelta_received).

Lemma spent_rows_keys entry view : (spent_rows' entry view).*1 = prevouts (GetTx entry).
Proof.
  unfold spent_rows, prevouts. rewrite fmap_imap.
  etrans; [|apply imap_const]. by apply imap_ext.
Qed.

Lemma address_rows_txhash entry view k :
  k ∈ (address_rows' entry view).*1 → ak_txhash k = GetHash (GetTx entry).
Proof.
  intros ([k' d] & -> & Hrow)%list_elem_of_fmap. simpl.
  unfold address_rows in Hrow.
  apply elem_of_app in Hrow as [Hrow|Hrow];
    apply list_elem_of_omap in Hrow as (o & Ho & Hsome);
    apply elem_of_lookup_imap in Ho as (j & x & -> & _);
    simpl in Hsome; destruct (N.eqb _ UNKNOWN); by simplify_eq/=.
Qed.

Lemma removeSpentIndex_addSpentIndex entry view pool :
  mapSpentInserted pool !! GetHash (GetTx entry) = None →
  (∀ txin, txin ∈ vin (GetTx entry) → mapSpent pool !! prevout txin = None) →
  removeSpentIndex (GetHash (GetTx entry)) (addSpentIndex' entry view pool)
  = (mapSpent pool, mapSpentInserted pool).
Proof.
  intros Hfresh Hfree. unfold removeSpentIndex, addSpentIndex.
  cbn [mapSpentInserted mapSpent set_spent_index].
  rewrite !insert_new_fresh by done. rewrite lookup_insert_eq.
  rewrite delete_insert_eq, delete_id by done.
  rewrite erase_insert_new_all; [done|].
  rewrite spent_rows_keys. intros k (txin & -> & Hin)%list_elem_of_fmap. by apply Hfree.
Qed.

(** X14: [addSpentIndex] followed by [removeSpentIndex] of the same txid
    gives the pool back, when the index had no row for the txid and none
    for an outpoint the transaction spends. *)
Theorem spent_index_round_trip entry view pool :
  mapSpentInserted pool !! GetHash (GetTx entry) = None →
  (∀ txin, txin ∈ vin (GetTx entry) → mapSpent pool !! prevout txin = None) →
  removeSpentIndex_pool (GetHash (GetTx entry)) (addSpentIndex' entry view pool) = pool.
Proof.
  intros Hfresh Hfree. unfold removeSpentIndex_pool.
  rewrite removeSpentIndex_addSpentIndex by done. by destruct pool.
Qed.

(** X15: after [addSpentIndex], under the same conditions and for a
    transaction that spends no outpoint twice, [getSpentIndex] finds for
    the outpoint of input [j] the row naming this transaction and [j]. *)
Theorem addSpentIndex_lookup entry view pool j txin value :
  NoDup (prevouts (GetTx entry)) →
  (∀ txin, txin ∈ vin (GetTx entry) → mapSpent pool !! prevout txin = None) →
  vin (GetTx entry) !! j = Some txin →
  getSpentIndex (prevout txin) value (addSpentIndex' entry view pool)
  = (true,
     mkSpentValue (GetHash (GetTx entry)) j (-1)
                  (nValue (GetOutputFor view txin))
                  (GetType (scriptPubKey (GetOutputFor view txin)))
                  (AddressHash (scriptPubKey (GetOutputFor view txin)))).
Proof.
  intros Hnd Hfree Hj. unfold getSpentIndex, addSpentIndex.
  cbn [mapSpent set_spent_index].
  erewrite insert_new_all_first; [done| | |].
  - by rewrite spent_rows_keys.
  - rewrite spent_rows_keys. intros k (txin' & -> & Hin)%list_elem_of_fmap. by apply Hfree.
  - unfold spent_rows. apply elem_of_lookup_imap. by exists j, txin.
Qed.

Lemma removeAddressIndex_addAddressIndex entry view pool :
  mapAddressInserted pool !! GetHash (GetTx entry) = None →
  (∀ k, ak_txhash k = GetHash (GetTx entry) → mapAddress pool !! k = None) →
  removeAddressIndex (GetHash (GetTx entry)) (addAddressIndex' entry view pool)
  = (mapAddress pool, mapAddressInserted pool).
Proof.
  intros Hfresh Hfree. unfold removeAddressIndex, addAddressIndex.
  cbn [mapAddressInserted mapAddress set_address_index].
  rewrite !insert_new_fresh by done. rewrite lookup_insert_eq.
  rewrite delete_insert_eq, delete_id by done.
  rewrite erase_insert_new_all; [done|].
  intros k Hk. by eapply Hfree, address_rows_txhash.
Qed.

(** X16: [addAddressIndex] followed by [removeAddressIndex] of the same
    txid gives the pool back, when the index had no row for the txid. *)
Theorem address_index_round_trip entry view pool :
  mapAddressInserted pool !! GetHash (GetTx entry) = None →
  (∀ k, ak_txhash k = GetHash (GetTx entry) → mapAddress pool !! k = None) →
  removeAddressIndex_pool (GetHash (GetTx entry)) (addAddressIndex' entry view pool) = pool.
Proof.
  intros Hfresh Hfree. unfold removeAddressIndex_pool.
  rewrite removeAddressIndex_addAddressIndex by done. by destruct pool.
Qed.

Lemma insert_new_all_lookup `{Countable K} {A} (rows : list (K * A)) (m : gmap K A) k v :
  m !! k = None ∨ m !! k = Some v →
  (k, v) ∈ rows ∨ m !! k = Some v →
  (∀ v', (k, v') ∈ rows → v' = v) →
  insert_new_all rows m !! k = Some v.
Proof.
  unfold insert_new_all. revert m.
  induction rows as [|[k0 v0] rows IH]; intros m Hm Hin Hfun; simpl.
  - destruct Hin as [Hin|Hin]; [by apply elem_of_nil in Hin | done].
  - assert (insert_new k0 v0 m !! k = Some v
            ∨ (k0 ≠ k ∧ insert_new k0 v0 m !! k = m !! k)) as Hstep.
    { unfold insert_new. destruct (decide (k0 = k)) as [->|Hne].
      - left. destruct Hm as [Hm|Hm]; rewrite Hm; [|done].
        rewrite lookup_insert_eq. f_equal. apply Hfun, list_elem_of_here.
      - right. split; [done|]. destruct (m !! k0); [done|]. by rewrite lookup_insert_ne. }
    apply IH.
    + destruct Hstep as [Hs|[_ ->]]; [by right | done].
    + destruct Hstep as [Hs|[Hne Hs]]; [by right|]. rewrite Hs.
      destruct Hin as [[[= ? ?]|Hin]%elem_of_cons|Hin]; [done | by left | by right].
    + intros v' Hv'. by apply Hfun, list_elem_of_further.
Qed.

Lemma elem_of_address_rows entry view k d :
  (k, d) ∈ address_rows' entry view ↔
  (∃ j input,
     vin (GetTx entry) !! j = Some input
     ∧ GetType (scriptPubKey (GetOutputFor view input)) ≠ UNKNOWN
     ∧ k = mkAddressKey (GetType (scriptPubKey (GetOutputFor view input)))
                        (AddressHash (scriptPubKey (GetOutputFor view input)))
                        (GetHash (GetTx entry)) j true
     ∧ d = mkAddressDelta (GetTime entry)
                          (wrap_i64 (nValue (GetOutputFor view input) * -1))
                          (op_hash (prevout input)) (op_n (prevout input)))
  ∨ (∃ j out,
       vout (GetTx entry) !! j = Some out
       ∧ GetType (scriptPubKey out) ≠ UNKNOWN
       ∧ k = mkAddressKey (GetType (scriptPubKey out)) (AddressHash (scriptPubKey out))
                          (GetHash (GetTx entry)) j false
       ∧ d = CMempoolAddressDelta_received (GetTime entry) (nValue out)).
Proof.
  unfold address_rows. rewrite elem_of_app, !list_elem_of_omap.
  split.
  - intros [(o & Ho & Hsome)|(o & Ho & Hsome)];
      apply elem_of_lookup_imap in Ho as (j & x & -> & Hx); simpl in Hsome;
      match type of Hsome with
      | context [N.eqb ?a ?b] => destruct (N.eqb_spec a b) as [|Hne]
      end;
      simplify_eq/=; [left | right]; by exists j, x.
  - intros [(j & x & Hx & Hne & -> & ->)|(j & x & Hx & Hne & -> & ->)]; [left | right].
    + eexists. split; [apply elem_of_lookup_imap; by exists j, x|]. simpl.
      by destruct (N.eqb_spec (GetType (scriptPubKey (GetOutputFor view x))) UNKNOWN).
    + eexists. split; [apply elem_of_lookup_imap; by exists j, x|]. simpl.
      by destruct (N.eqb_spec (GetType (scriptPubKey x)) UNKNOWN).
Qed.

(** X26: after [addAddressIndex], for a txid the index had no row of,
    [getAddressIndex] of the address and script type of an output of the
    transaction lists the row of that output (with the entry's time and
    the output's value), and of the address of a spent output the row of
    that input (with the negated value and the outpoint); outputs of
    unknown script type have no row. *)
Theorem getAddressIndex_finds entry view pool :
  (∀ k, ak_txhash k = GetHash (GetTx entry) → mapAddress pool !! k = None) →
  let pool' := addAddressIndex' entry view pool in
  (∀ j out,
     vout (GetTx entry) !! j = Some out → GetType (scriptPubKey out) ≠ UNKNOWN →
     (mkAddressKey (GetType (scriptPubKey out)) (AddressHash (scriptPubKey out))
                   (GetHash (GetTx entry)) j false,
      CMempoolAddressDelta_received (GetTime entry) (nValue out))
     ∈ getAddressIndex [(AddressHash (scriptPubKey out), GetType (scriptPubKey out))] []
                       pool')
  ∧ (∀ j input,
       vin (GetTx entry) !! j = Some input →
       GetType (scriptPubKey (GetOutputFor view input)) ≠ UNKNOWN →
       (mkAddressKey (GetType (scriptPubKey (GetOutputFor view input)))
                     (AddressHash (scriptPubKey (GetOutputFor view input)))
                     (GetHash (GetTx entry)) j true,
        mkAddressDelta (GetTime entry) (wrap_i64 (nValue (GetOutputFor view input) * -1))
                       (op_hash (prevout input)) (op_n (prevout input)))
       ∈ getAddressIndex [(AddressHash (scriptPubKey (GetOutputFor view input)),
                           GetType (scriptPubKey (GetOutputFor view input)))] []
                         pool')
  ∧ (∀ k d, mapAddress pool' !! k = Some d → ak_txhash k = GetHash (GetTx entry) →
       ak_type k ≠ UNKNOWN).
Proof.
  intros Hfree pool'.
  assert (∀ k d, (k, d) ∈ address_rows' entry view → mapAddress pool' !! k = Some d)
    as Hrows.
  { intros k d Hin. subst pool'. unfold addAddressIndex. cbn [mapAddress set_address_index].
    apply insert_new_all_lookup.
    - left. apply Hfree. eapply address_rows_txhash, list_elem_of_fmap.
      by exists (k, d).
    - by left.
    - intros d' Hin'. apply elem_of_address_rows in Hin, Hin'.
      destruct Hin as [(j & x & Hx & _ & -> & ->)|(j & x & Hx & _ & -> & ->)],
               Hin' as [(j' & x' & Hx' & _ & [= ? ? ?] & ->)|(j' & x' & Hx' & _ & [= ? ? ?] & ->)];
        by simplify_eq. }
  assert (∀ k d, mapAddress pool' !! k = Some d →
            (k, d) ∈ getAddressIndex [(ak_addressBytes k, ak_type k)] [] pool') as Hget.
  { intros k d Hrow. unfold getAddressIndex. simpl.
    apply list_elem_of_filter. split; [done | by apply elem_of_map_to_list]. }
  split_and!.
  - intros j out Hj Hknown.
    apply (Hget (mkAddressKey _ _ _ _ _)), Hrows, elem_of_address_rows.
    right. by exists j, out.
  - intros j input Hj Hknown.
    apply (Hget (mkAddressKey _ _ _ _ _)), Hrows, elem_of_address_rows.
    left. by exists j, input.
  - intros k d Hrow Hk.
    destruct (decide (k ∈ (address_rows' entry view).*1)) as [Hin|Hout].
    + apply list_elem_of_fmap in Hin as ([k' d'] & -> & Hin). simpl.
      apply elem_of_address_rows in Hin.
      by destruct Hin as [(j & x & _ & Hne & -> & _)|(j & x & _ & Hne & -> & _)].
    + subst pool'. unfold addAddressIndex in Hrow. cbn [mapAddress set_address_index] in Hrow.
      rewrite insert_new_all_other in Hrow by done.
      by rewrite Hfree in Hrow.
Qed.

Section IndexedAdmission.
Variable tx_weight : CTransaction → CAmount → Z.

(** X17: a transaction admitted the way the node does it with both
    indexes switched on ([addUnchecked], then [addAddressIndex] and
    [addSpentIndex]) and then removed, non-recursively or recursively when
    no pool transaction spends one of its outputs, leaves the four index
    maps as they were before the admission: [remove] undoes the index rows
    as well.  (A recursive [remove] that finds a spender removes it and its
    index rows too.) *)
Theorem remove_undoes_indexes hash entry fCurrentEstimate fRecursive view pool :
  fAddressIndex pool = true → fSpentIndex pool = true →
  mapTx pool !! GetHash (GetTx entry) = None →
  mapSpentInserted pool !! GetHash (GetTx entry) = None →
  (∀ txin, txin ∈ vin (GetTx entry) → mapSpent pool !! prevout txin = None) →
  mapAddressInserted pool !! GetHash (GetTx entry) = None →
  (∀ k, ak_txhash k = GetHash (GetTx entry) → mapAddress pool !! k = None) →
  let admitted :=
    addSpentIndex' entry view
      (addAddressIndex' entry view
         (addUnchecked tx_weight hash entry fCurrentEstimate pool).1) in
  (fRecursive = true →
   ∀ i, (i < length (vout (GetTx entry)))%nat →
     mapNextTx admitted !! mkCOutPoint (GetHash (GetTx entry)) i = None) →
  let r := remove (GetTx entry) [] fRecursive admitted in
  mapTx r.1 !! GetHash (GetTx entry) = None
  ∧ mapSpent r.1 = mapSpent pool
  ∧ mapSpentInserted r.1 = mapSpentInserted pool
  ∧ mapAddress r.1 = mapAddress pool
  ∧ mapAddressInserted r.1 = mapAddressInserted pool.
Proof.
  intros Haddr Hspent Hfresh Hs1 Hs2 Ha1 Ha2 admitted Hunspent r.
  destruct (addUnchecked_fresh_mapTx tx_weight hash entry fCurrentEstimate pool Hfresh)
    as ((e' & He' & Htx) & _).
  set (pool1 := (addUnchecked tx_weight hash entry fCurrentEstimate pool).1) in *.
  assert (mapTx admitted !! GetHash (GetTx entry) = Some e') as Hin by exact He'.
  subst r. rewrite (remove_single_unspent _ _ _ _ _ Hin) by (by rewrite Htx).
  cbn [fst set_weightedTxTree erase_entry mapTx mapSpent mapSpentInserted mapAddress
       mapAddressInserted].
  assert (fSpentIndex admitted = true) as -> by exact Hspent.
  assert (fAddressIndex admitted = true) as -> by exact Haddr.
  assert (removeSpentIndex (GetHash (GetTx entry)) admitted
          = (mapSpent pool, mapSpentInserted pool)) as ->.
  { subst admitted. by rewrite removeSpentIndex_addSpentIndex. }
  assert (removeAddressIndex (GetHash (GetTx entry)) admitted
          = (mapAddress pool, mapAddressInserted pool)) as ->.
  { change (removeAddressIndex (GetHash (GetTx entry)) admitted)
      with (removeAddressIndex (GetHash (GetTx entry)) (addAddressIndex' entry view pool1)).
    by rewrite removeAddressIndex_addAddressIndex. }
  split_and!; [|done..]. apply lookup_delete_eq.
Qed.
End IndexedAdmission.
End InsightProps.

Lemma spent_index_round_trip_witness :
  removeSpentIndex_pool (GetHash (GetTx (ex_entry ex_a 1000)))
    (addSpentIndex unit (λ _ _, mkCTxOut 10 []) (λ _, 1%N) (λ _, 5%N)
       (ex_entry ex_a 1000) tt ex_indexing)
  = ex_indexing.
Proof.
  apply (spent_index_round_trip unit (λ _ _, mkCTxOut 10 []) (λ _, 1%N) (λ _, 5%N)
           (ex_entry ex_a 1000) tt ex_indexing).
  - reflexivity.
  - intros txin Hin. reflexivity.
Defined.

Lemma addSpentIndex_lookup_witness :
  getSpentIndex (mkCOutPoint 100%N 0%nat) (mkSpentValue 0%N 0%nat 0 0 0%N 0%N)
    (addSpentIndex unit (λ _ _, mkCTxOut 10 []) (λ _, 1%N) (λ _, 5%N)
       (ex_entry ex_a 1000) tt ex_indexing)
  = (true, mkSpentValue 1%N 0%nat (-1) 10 1%N 5%N).
Proof.
  apply (addSpentIndex_lookup unit (λ _ _, mkCTxOut 10 []) (λ _, 1%N) (λ _, 5%N)
           (ex_entry ex_a 1000) tt ex_indexing 0%nat
           (mkCTxIn (mkCOutPoint 100%N 0%nat))).
  - apply NoDup_singleton.
  - intros txin Hin. reflexivity.
  - reflexivity.
Defined.

Lemma address_index_round_trip_witness :
  removeAddressIndex_pool (GetHash (GetTx (ex_entry ex_a 1000)))
    (addAddressIndex unit (λ _ _, mkCTxOut 10 []) (λ _, 1%N) (λ _, 5%N) 0%N
       (λ t a, mkAddressDelta t a 0%N 0%nat) (ex_entry ex_a 1000) tt ex_indexing)
  = ex_indexing.
Proof.
  apply (address_index_round_trip unit (λ _ _, mkCTxOut 10 []) (λ _, 1%N) (λ _, 5%N) 0%N
           (λ t a, mkAddressDelta t a 0%N 0%nat) (ex_entry ex_a 1000) tt ex_indexing).
  - reflexivity.
  - intros k Hk. reflexivity.
Defined.

Lemma getAddressIndex_finds_witness :
  (mkAddressKey 1%N 5%N 1%N 0%nat false, mkAddressDelta 1600000000 10 0%N 0%nat)
  ∈ getAddressIndex [(5%N, 1%N)] []
      (addAddressIndex unit (λ _ _, mkCTxOut 10 []) (λ _, 1%N) (λ _, 5%N) 0%N
         (λ t a, mkAddressDelta t a 0%N 0%nat) (ex_entry ex_a 1000) tt ex_indexing).
Proof.
  pose proof (getAddressIndex_finds unit (λ _ _, mkCTxOut 10 []) (λ _, 1%N) (λ _, 5%N) 0%N
                (λ t a, mkAddressDelta t a 0%N 0%nat) (ex_entry ex_a 1000) tt ex_indexing
                (λ _ _, eq_refl)) as Hfinds.
  cbv zeta in Hfinds. destruct Hfinds as (Hout & _ & _).
  apply (Hout 0%nat (mkCTxOut 10 [])).
  - reflexivity.
  - discriminate.
Defined.

Lemma remove_undoes_indexes_witness :
  let admitted :=
    addSpentIndex unit (λ _ _, mkCTxOut 10 []) (λ _, 1%N) (λ _, 5%N)
      (ex_entry ex_a 1000) tt
      (addAddressIndex unit (λ _ _, mkCTxOut 10 []) (λ _, 1%N) (λ _, 5%N) 0%N
         (λ t a, mkAddressDelta t a 0%N 0%nat) (ex_entry ex_a 1000) tt
         (addUnchecked ex_weight 1%N (ex_entry ex_a 1000) true ex_indexing).1) in
  let r := remove (GetTx (ex_entry ex_a 1000)) [] true admitted in
  mapTx r.1 !! GetHash (GetTx (ex_entry ex_a 1000)) = None
  ∧ mapSpent r.1 = mapSpent ex_indexing
  ∧ mapSpentInserted r.1 = mapSpentInserted ex_indexing
  ∧ mapAddress r.1 = mapAddress ex_indexing
  ∧ mapAddressInserted r.1 = mapAddressInserted ex_indexing.
Proof.
  apply (remove_undoes_indexes unit (λ _ _, mkCTxOut 10 []) (λ _, 1%N) (λ _, 5%N) 0%N
           (λ t a, mkAddressDelta t a 0%N 0%nat) ex_weight 1%N (ex_entry ex_a 1000) true true
           tt ex_indexing); try reflexivity.
  intros _ i Hi. destruct i as [|i]; [reflexivity | simpl in Hi; lia].
Defined.

(** ** pruneSpent *)

Lemma StronglySorted_le_lt (l : list nat) :
  StronglySorted Nat.le l → NoDup l → StronglySorted Nat.lt l.
Proof.
  induction 1 as [|x l Hsorted IH Hall]; intros Hnd; [constructor|].
  apply NoDup_cons in Hnd as [Hx Hnd]. constructor; [by apply IH|].
  rewrite Forall_forall in *. intros y Hy.
  assert (x ≠ y) by (by intros ->). specialize (Hall y Hy). unfold Nat.lt. lia.
Qed.

Lemma elem_of_spent_outputs hashTx pool n :
  n ∈ spent_outputs hashTx pool ↔ is_Some (mapNextTx pool !! mkCOutPoint hashTx n).
Proof.
  unfold spent_outputs. rewrite merge_sort_Permutation.
  rewrite list_elem_of_fmap. split.
  - intros ([h n'] & -> & [Hh Hin]%list_elem_of_filter). simpl in *. subst h.
    apply list_elem_of_fmap in Hin as ([op ip] & -> & Hrow%elem_of_map_to_list).
    by eexists.
  - intros [ip Hrow]. exists (mkCOutPoint hashTx n). split; [done|].
    apply list_elem_of_filter. split; [done|].
    apply list_elem_of_fmap. exists (mkCOutPoint hashTx n, ip).
    split; [done | by apply elem_of_map_to_list].
Qed.

Section PruneSpentProps.
Variable CCoins : Type.
Variable Spend : nat → CCoins → CCoins.

(** X18: [pruneSpent(hashTx, coins)] calls [coins.Spend(n)] once for each
    output [n] of [hashTx] that [mapNextTx] records as spent, by
    ascending [n], and for no other; in a pool whose cross maps agree with
    its entries these are the outputs of [hashTx] that an entry spends. *)
Theorem pruneSpent_spends (hashTx : uint256) (coins : CCoins) (pool : CTxMemPool) :
  ∃ l, pruneSpent CCoins Spend hashTx coins pool = foldl (λ c n, Spend n c) coins l
    ∧ StronglySorted Nat.lt l
    ∧ (∀ n, n ∈ l ↔ is_Some (mapNextTx pool !! mkCOutPoint hashTx n))
    ∧ (pool_indexed pool →
       ∀ n, n ∈ l ↔
         ∃ h e, mapTx pool !! h = Some e ∧ mkCOutPoint hashTx n ∈ prevouts (GetTx e)).
Proof.
  exists (spent_outputs hashTx pool). split_and!.
  - done.
  - apply StronglySorted_le_lt.
    + unfold spent_outputs. apply (StronglySorted_merge_sort Nat.le).
    + unfold spent_outputs. rewrite merge_sort_Permutation.
      apply NoDup_fmap_2_strong.
      * intros [h1 n1] [h2 n2] [H1 _]%list_elem_of_filter [H2 _]%list_elem_of_filter.
        simpl in *. by intros ->; subst.
      * apply NoDup_filter, NoDup_fst_map_to_list.
  - apply elem_of_spent_outputs.
  - intros Hidx n. rewrite elem_of_spent_outputs. split.
    + intros [ip Hrow].
      destruct (idx_next_sound _ Hidx _ _ Hrow) as (e & He & Htx & Hkey).
      exists (GetHash (ptx ip)), e. by rewrite Htx.
    + intros (h & e & He & Hkey).
      pose proof (idx_next_covers _ Hidx h e _ He Hkey) as Hrow.
      destruct (mapNextTx pool !! mkCOutPoint hashTx n); [by eexists | done].
Qed.
End PruneSpentProps.

(** ** DrainRecentlyAdded *)

(** X19: in a pool reached without [clear], [DrainRecentlyAdded] reports
    transactions that are entries of the pool only; a transaction just
    admitted is reported, one that has been removed is not; and a second
    drain reports nothing. *)
Theorem DrainRecentlyAdded_reports tx_weight double_add pool :
  reachable tx_weight double_add pool →
  (∀ tx, tx ∈ (DrainRecentlyAdded pool).2.1 → get (GetHash tx) pool = Some tx)
  ∧ (∀ hash entry fCurrentEstimate, admissible hash entry pool →
       GetTx entry
       ∈ (DrainRecentlyAdded (addUnchecked tx_weight hash entry fCurrentEstimate pool).1).2.1)
  ∧ (∀ origTx removed fRecursive tx,
       tx ∈ (DrainRecentlyAdded (remove origTx removed fRecursive pool).1).2.1 →
       GetHash tx ≠ GetHash origTx)
  ∧ (DrainRecentlyAdded (DrainRecentlyAdded pool).1).2.1 = [].
Proof.
  intros Hreach.
  assert (∀ p, reachable tx_weight double_add p →
            ∀ tx, tx ∈ (DrainRecentlyAdded p).2.1 → get (GetHash tx) p = Some tx) as Hin.
  { intros p Hp tx ([h tx'] & -> & Hrow%elem_of_map_to_list)%list_elem_of_fmap. simpl.
    destruct (reachable_recent_sound _ _ _ Hp h tx' Hrow) as (e & He & Htx).
    pose proof (idx_keyed _ (reachable_indexed _ _ _ Hp) h e He) as Hkey.
    unfold get. rewrite <- Htx, Hkey, He. done. }
  split_and!.
  - by apply Hin.
  - intros hash entry flag Hadm. pose proof Hadm as (-> & Hfresh & _).
    destruct (addUnchecked_fresh_mapTx tx_weight (GetHash (GetTx entry)) entry flag pool Hfresh)
      as (_ & _ & _ & Hrecent).
    unfold DrainRecentlyAdded. cbn [fst snd]. rewrite Hrecent.
    apply list_elem_of_fmap. exists (GetHash (GetTx entry), GetTx entry).
    split; [done|]. apply elem_of_map_to_list, lookup_insert_eq.
  - intros origTx removed rec tx Htx Hsame.
    apply Hin in Htx; [|by apply reach_remove].
    unfold get in Htx. rewrite Hsame, remove_gone in Htx. done.
  - unfold DrainRecentlyAdded. cbn [fst snd mapRecentlyAddedTx set_mapRecentlyAddedTx].
    by rewrite map_to_list_empty.
Qed.

Lemma DrainRecentlyAdded_reports_witness :
  (∀ tx, tx ∈ (DrainRecentlyAdded ex_pool_ab).2.1 → get (GetHash tx) ex_pool_ab = Some tx)
  ∧ (∀ hash entry fCurrentEstimate, admissible hash entry ex_pool_ab →
       GetTx entry
       ∈ (DrainRecentlyAdded
            (addUnchecked ex_weight hash entry fCurrentEstimate ex_pool_ab).1).2.1)
  ∧ (∀ origTx removed fRecursive tx,
       tx ∈ (DrainRecentlyAdded (remove origTx removed fRecursive ex_pool_ab).1).2.1 →
       GetHash tx ≠ GetHash origTx)
  ∧ (DrainRecentlyAdded (DrainRecentlyAdded ex_pool_ab).1).2.1 = [].
Proof.
  apply (DrainRecentlyAdded_reports ex_weight Z.add ex_pool_ab).
  apply ex_pool_ab_reachable.
Defined.

(** ** The pool as a coin view: nullifiers and HaveCoins *)

Lemma nullifierExists_revealed pool nf type :
  pool_indexed pool →
  type = SPROUT ∨ type = SAPLING ∨ type = ORCHARD →
  ∃ b, nullifierExists nf type pool = Returns b
       ∧ (b = true ↔ ∃ h e, mapTx pool !! h = Some e ∧ nf ∈ revealed type (GetTx e)).
Proof.
  intros Hidx Htype.
  assert (∀ (m : gmap uint256 CTransaction) keys,
            index_covers id keys (mapTx pool) m → index_sound id keys (mapTx pool) m →
            bool_decide (is_Some (m !! nf)) = true
            ↔ ∃ h e, mapTx pool !! h = Some e ∧ nf ∈ keys (GetTx e)) as Hmap.
  { intros m keys Hcov Hsound. rewrite bool_decide_eq_true. split.
    - intros [tx Hrow]. destruct (Hsound nf tx Hrow) as (e & He & Htx & Hkey).
      exists (GetHash tx), e. by rewrite Htx.
    - intros (h & e & He & Hkey). pose proof (Hcov h e nf He Hkey) as Hrow.
      destruct (m !! nf); [by eexists | done]. }
  destruct Hidx.
  destruct Htype as [-> | [-> | ->]]; eexists; (split; [done|]); simpl; by apply Hmap.
Qed.

Section CoinsViewQueriesProps.
Variable base_GetNullifier : uint256 → ShieldedType → bool.
Variable base_HaveCoins : uint256 → bool.

(** X20: over a pool whose cross maps agree with its entries, the view
    answers that a nullifier of one of the three kinds is spent exactly
    when the backing view says so or an entry of the pool reveals it. *)
Theorem GetNullifier_pool_or_base mempool nf type :
  pool_indexed mempool →
  type = SPROUT ∨ type = SAPLING ∨ type = ORCHARD →
  ∃ b, CCoinsViewMemPool_GetNullifier base_GetNullifier mempool nf type = Returns b
       ∧ (b = true ↔
            base_GetNullifier nf type = true
            ∨ ∃ h e, mapTx mempool !! h = Some e ∧ nf ∈ revealed type (GetTx e)).
Proof.
  intros Hidx Htype.
  destruct (nullifierExists_revealed mempool nf type Hidx Htype) as (inPool & Hret & Hiff).
  unfold CCoinsViewMemPool_GetNullifier. rewrite Hret. eexists. split; [done|].
  rewrite orb_true_iff, Hiff. split; intros [H|H]; auto.
Qed.

(** X21: once [remove] has taken a transaction of the pool out, the view
    answers for its txid and for each nullifier it reveals what the backing
    view answers. *)
Theorem view_after_remove origTx removed fRecursive e mempool :
  pool_indexed mempool →
  mapTx mempool !! GetHash origTx = Some e → GetTx e = origTx →
  let mempool' := (remove origTx removed fRecursive mempool).1 in
  CCoinsViewMemPool_HaveCoins base_HaveCoins mempool' (GetHash origTx)
  = base_HaveCoins (GetHash origTx)
  ∧ ∀ type nf,
      type = SPROUT ∨ type = SAPLING ∨ type = ORCHARD →
      nf ∈ revealed type origTx →
      CCoinsViewMemPool_GetNullifier base_GetNullifier mempool' nf type
      = Returns (base_GetNullifier nf type).
Proof.
  intros Hidx Hin Htx mempool'.
  assert (mapTx mempool' !! GetHash origTx = None) as Hgone by apply remove_gone.
  split.
  - unfold CCoinsViewMemPool_HaveCoins, exists_. rewrite Hgone.
    rewrite bool_decide_eq_false_2; [done | by intros []].
  - intros type nf Htype Hnf.
    assert (pool_indexed mempool') as Hidx' by (by apply remove_indexed).
    destruct (nullifierExists_revealed mempool' nf type Hidx' Htype)
      as (inPool & Hret & Hiff).
    unfold CCoinsViewMemPool_GetNullifier. rewrite Hret. simpl.
    destruct inPool; [|done]. exfalso.
    destruct Hiff as [(h & e' & He' & Hkey) _]; [done|].
    assert (mapTx mempool !! h = Some e') as He
      by (eapply lookup_weaken; [exact He' | apply remove_shrinks]).
    assert (GetTx e' = origTx) as Hsame.
    { destruct Hidx.
      destruct Htype as [-> | [-> | ->]]; simpl in Hkey, Hnf.
      - pose proof (idx_sprout_covers0 _ _ _ He Hkey) as H1.
        rewrite <- Htx in Hnf.
        pose proof (idx_sprout_covers0 _ _ _ Hin Hnf) as H2. congruence.
      - pose proof (idx_sapling_covers0 _ _ _ He Hkey) as H1.
        rewrite <- Htx in Hnf.
        pose proof (idx_sapling_covers0 _ _ _ Hin Hnf) as H2. congruence.
      - pose proof (idx_orchard_covers0 _ _ _ He Hkey) as H1.
        rewrite <- Htx in Hnf.
        pose proof (idx_orchard_covers0 _ _ _ Hin Hnf) as H2. congruence. }
    pose proof (idx_keyed _ Hidx h e' He) as Hkeyed.
    rewrite Hsame in Hkeyed. subst h. congruence.
Qed.
End CoinsViewQueriesProps.

Lemma GetNullifier_pool_or_base_witness :
  ∃ b, CCoinsViewMemPool_GetNullifier (λ _ _, false) ex_pool_ab 55%N SPROUT = Returns b
       ∧ (b = true ↔
            false = true
            ∨ ∃ h e, mapTx ex_pool_ab !! h = Some e ∧ 55%N ∈ revealed SPROUT (GetTx e)).
Proof.
  apply (GetNullifier_pool_or_base (λ _ _, false) ex_pool_ab 55%N SPROUT).
  - apply (reachable_indexed _ _ _ ex_pool_ab_reachable).
  - by left.
Defined.

Lemma view_after_remove_witness :
  let mempool' := (remove ex_b [] false ex_pool_ab).1 in
  CCoinsViewMemPool_HaveCoins (λ _, false) mempool' (GetHash ex_b) = false
  ∧ ∀ type nf,
      type = SPROUT ∨ type = SAPLING ∨ type = ORCHARD →
      nf ∈ revealed type ex_b →
      CCoinsViewMemPool_GetNullifier (λ _ _, false) mempool' nf type = Returns false.
Proof.
  apply (view_after_remove (λ _ _, false) (λ _, false) ex_b [] false (ex_entry ex_b 1000)
           ex_pool_ab).
  - apply (reachable_indexed _ _ _ ex_pool_ab_reachable).
  - by vm_compute.
  - reflexivity.
Defined.

(** ** Prioritisation, read back *)

Section ApplyDeltasProps.
Variable double_add : double → double → double.

(** X22: [ApplyDeltas] reads back what [PrioritiseTransaction] recorded
    (the sum of the earlier row, (0.0, 0) when there was none, and the new
    deltas); after [ClearPrioritisation], and after [removeForBlock] for
    each transaction of the block, it leaves its arguments as they are. *)
Theorem ApplyDeltas_reads_back (hash : uint256) (dPriorityDelta : double)
    (nFeeDelta : CAmount) (pool : CTxMemPool) :
  (∀ dp df,
     let old := default (0, 0) (mapDeltas pool !! hash) in
     ApplyDeltas double_add hash dPriorityDelta nFeeDelta
       (PrioritiseTransaction double_add hash dp df pool)
     = (double_add dPriorityDelta (double_add old.1 dp),
        wrap_i64 (nFeeDelta + wrap_i64 (old.2 + df))))
  ∧ ApplyDeltas double_add hash dPriorityDelta nFeeDelta (ClearPrioritisation hash pool)
    = (dPriorityDelta, nFeeDelta)
  ∧ (∀ vtx nBlockHeight conflicts fCurrentEstimate tx,
       tx ∈ vtx → GetHash tx = hash →
       ApplyDeltas double_add hash dPriorityDelta nFeeDelta
         (removeForBlock vtx nBlockHeight conflicts fCurrentEstimate pool).1
       = (dPriorityDelta, nFeeDelta)).
Proof.
  split_and!.
  - intros dp df old. unfold ApplyDeltas, PrioritiseTransaction.
    cbn [mapTx set_mapDeltas].
    assert (∀ p, mapDeltas (match mapTx pool !! hash with
                            | Some _ => modify_fee_delta hash (wrap_i64 (old.2 + df)) p
                            | None => p
                            end) = mapDeltas p) as Hd
      by (intros p; by destruct (mapTx pool !! hash)).
    fold old. rewrite Hd. cbn [mapDeltas set_mapDeltas].
    by rewrite lookup_insert_eq.
  - unfold ApplyDeltas, ClearPrioritisation. cbn [mapDeltas set_mapDeltas].
    by rewrite lookup_delete_eq.
  - intros vtx height conflicts flag tx Htx <-. unfold ApplyDeltas.
    rewrite removeForBlock_mapDeltas, lookup_erase_all.
    rewrite decide_True; [done|]. apply list_elem_of_fmap. by exists tx.
Qed.
End ApplyDeltasProps.

(** ** HasNoInputsOf and the dependency flag of check *)

Section DependsProps.
Variable CCoinsViewCache : Type.
Variable coins_IsAvailable : CCoinsViewCache → uint256 → nat → bool.
Variable CTxOut_IsNull : CTxOut → bool.

Lemma check_inputs_flag pcoins pool tx i ins fDependsWait b :
  check_inputs CCoinsViewCache coins_IsAvailable CTxOut_IsNull pcoins pool tx i ins
    fDependsWait = Returns b →
  b = fDependsWait
      || negb (forallb (λ txin, negb (exists_ (op_hash (prevout txin)) pool)) ins).
Proof.
  revert i fDependsWait. induction ins as [|txin ins IH]; intros i wait; simpl.
  - intros [= <-]. by rewrite orb_false_r.
  - intros (fromPool & Hone & Hrest)%obind_returns. rewrite (IH _ _ Hrest).
    assert (fromPool = exists_ (op_hash (prevout txin)) pool) as ->.
    { unfold check_input, exists_ in *.
      destruct (mapTx pool !! op_hash (prevout txin)) as [it2|].
      - apply obind_returns in Hone as (b1 & Hb1 & Hone).
        apply obind_returns in Hb1 as (? & _ & [= <-]).
        apply obind_returns in Hone as (? & _ & [= <-]).
        symmetry. apply bool_decide_eq_true. by eexists.
      - apply obind_returns in Hone as (b1 & Hb1 & Hone).
        apply obind_returns in Hb1 as (? & _ & [= <-]).
        apply obind_returns in Hone as (? & _ & [= <-]).
        symmetry. apply bool_decide_eq_false. by intros []. }
    destruct wait, (exists_ (op_hash (prevout txin)) pool); simpl; try done.
Qed.

(** X23: when the loop of [check] over the inputs of an entry returns, its
    flag "waits for a pool parent" is the negation of [HasNoInputsOf] for
    that transaction. *)
Theorem check_inputs_HasNoInputsOf pcoins pool tx b :
  check_inputs CCoinsViewCache coins_IsAvailable CTxOut_IsNull pcoins pool tx 0 (vin tx)
    false = Returns b →
  b = negb (HasNoInputsOf tx pool).
Proof.
  intros Hret. by rewrite (check_inputs_flag _ _ _ _ _ _ _ Hret).
Qed.
End DependsProps.

Lemma check_inputs_HasNoInputsOf_witness :
  true = negb (HasNoInputsOf ex_b ex_pool_ab).
Proof.
  apply (check_inputs_HasNoInputsOf unit (λ _ _ _, true) (λ _, false) tt ex_pool_ab ex_b).
  by vm_compute.
Defined.

(** ** addUnchecked on a txid that is already in the pool *)

Section DuplicateAdmission.
Variable tx_weight : CTransaction → CAmount → Z.

(** X24: [addUnchecked] of an entry whose txid the pool already holds
    keeps the transaction stored under that txid ([mapTx.insert] does not
    replace) and still adds the new entry's size to [totalTxSize]: the
    counter then no longer is the sum over the entries, unless the size is
    0 modulo 2^64.  The function relies on its caller for the txid to be
    new. *)
Theorem addUnchecked_duplicate hash entry fCurrentEstimate pool old :
  mapTx pool !! GetHash (GetTx entry) = Some old →
  let pool' := (addUnchecked tx_weight hash entry fCurrentEstimate pool).1 in
  (∃ e', mapTx pool' !! GetHash (GetTx entry) = Some e' ∧ GetTx e' = GetTx old)
  ∧ (∀ h, h ≠ GetHash (GetTx entry) → mapTx pool' !! h = mapTx pool !! h)
  ∧ totalTxSize pool' = wrap_u64 (totalTxSize pool + GetTxSize entry)
  ∧ (totals_agree pool → wrap_u64 (GetTxSize entry) ≠ 0 → ¬ totals_agree pool').
Proof.
  intros Hin pool'.
  assert (mapTx pool' = mapTx pool
          ∨ ∃ d, mapTx pool' = alter (UpdateFeeDelta d) (GetHash (GetTx entry)) (mapTx pool))
    as Hmap.
  { subst pool'. unfold addUnchecked. cbn [fst mapTx]. rewrite Hin.
    destruct (mapDeltas pool !! hash) as [deltas|]; [|by left].
    case_bool_decide; [right; by eexists | by left]. }
  split_and!.
  - destruct Hmap as [->|[d ->]]; [by exists old|].
    rewrite lookup_alter_eq, Hin. by eexists.
  - intros h Hne. destruct Hmap as [->|[d ->]]; [done|]. by rewrite lookup_alter_ne.
  - done.
  - intros [Ht _] Hsize [Ht' _].
    assert (entries_sum GetTxSize (mapTx pool') = entries_sum GetTxSize (mapTx pool)) as Hsum.
    { destruct Hmap as [->|[d ->]]; [done|]. by apply entries_sum_alter. }
    rewrite Hsum in Ht'. change (totalTxSize pool')
      with (wrap_u64 (totalTxSize pool + GetTxSize entry)) in Ht'.
    rewrite Ht, wrap_u64_plus_l in Ht'. apply Hsize.
    unfold wrap_u64 in *.
    replace (GetTxSize entry)
      with (entries_sum GetTxSize (mapTx pool) + GetTxSize entry
            - entries_sum GetTxSize (mapTx pool)) by lia.
    rewrite Zminus_mod, Ht', Z.sub_diag. done.
Qed.
End DuplicateAdmission.

Lemma addUnchecked_duplicate_witness :
  let pool' := (addUnchecked ex_weight 1%N (ex_entry ex_a 1000) true ex_pool_ab).1 in
  (∃ e', mapTx pool' !! GetHash (GetTx (ex_entry ex_a 1000)) = Some e'
         ∧ GetTx e' = GetTx (ex_entry ex_a 1000))
  ∧ (∀ h, h ≠ GetHash (GetTx (ex_entry ex_a 1000)) →
       mapTx pool' !! h = mapTx ex_pool_ab !! h)
  ∧ totalTxSize pool'
    = wrap_u64 (totalTxSize ex_pool_ab + GetTxSize (ex_entry ex_a 1000))
  ∧ (totals_agree ex_pool_ab → wrap_u64 (GetTxSize (ex_entry ex_a 1000)) ≠ 0 →
     ¬ totals_agree pool').
Proof.
  apply (addUnchecked_duplicate ex_weight 1%N (ex_entry ex_a 1000) true ex_pool_ab
           (ex_entry ex_a 1000)).
  by vm_compute.
Defined.

(** ** queryHashes *)

Lemma Sorted_weaken {A} (R R' : relation A) (l : list A) :
  (∀ a b, a ∈ l → b ∈ l → R a b → R' a b) → Sorted R l → Sorted R' l.
Proof.
  intros Hweak Hsorted. induction Hsorted as [|a l Hsorted IH Hhd]; [constructor|].
  constructor.
  - apply IH. intros x y Hx Hy. apply Hweak; by apply list_elem_of_further.
  - destruct Hhd as [|b l Hab]; constructor.
    apply Hweak; [apply list_elem_of_here | apply list_elem_of_further, list_elem_of_here | done].
Qed.

Section SortedListingProps.
Variable CompareTxMemPoolEntryByScore : CTxMemPoolEntry → CTxMemPoolEntry → bool.

Local Abbreviation queryHashes' := (queryHashes CompareTxMemPoolEntryByScore).

(** X27: on a pool whose entries are stored under their transaction's
    hash, [queryHashes] lists exactly the txids of the pool, each once;
    and when the score comparison is asymmetric the list is ordered: no
    txid is followed directly by one that [CompareDepthAndScore] puts
    before it. *)
Theorem queryHashes_lists_pool (pool : CTxMemPool) :
  keyed_by_hash (mapTx pool) →
  queryHashes' pool ≡ₚ (map_to_list (mapTx pool)).*1
  ∧ NoDup (queryHashes' pool)
  ∧ (∀ h, h ∈ queryHashes' pool ↔ exists_ h pool = true)
  ∧ ((∀ a b, CompareTxMemPoolEntryByScore a b = true →
             CompareTxMemPoolEntryByScore b a = false) →
     Sorted (λ ha hb,
               CompareDepthAndScore CompareTxMemPoolEntryByScore hb ha pool = false)
            (queryHashes' pool)).
Proof.
  intros Hkeyed.
  assert (queryHashes' pool ≡ₚ (map_to_list (mapTx pool)).*1) as Hperm.
  { unfold queryHashes, GetSortedDepthAndScore. rewrite merge_sort_Permutation.
    unfold mapTx_entries. rewrite <- list_fmap_compose.
    assert ((λ it, GetHash (GetTx it)) ∘ snd <$> map_to_list (mapTx pool)
            = (map_to_list (mapTx pool)).*1) as ->; [|done].
    apply Forall_fmap_ext_1, Forall_forall.
    intros [h e] Hin%elem_of_map_to_list. simpl. by apply Hkeyed. }
  assert (∀ h, h ∈ queryHashes' pool ↔ is_Some (mapTx pool !! h)) as Hmem.
  { intros h. rewrite Hperm, list_elem_of_fmap. split.
    - intros ([h' e] & -> & Hin%elem_of_map_to_list). by eexists.
    - intros [e He]. exists (h, e). split; [done | by apply elem_of_map_to_list]. }
  split_and!.
  - done.
  - rewrite Hperm. apply NoDup_fst_map_to_list.
  - intros h. rewrite Hmem. unfold exists_. by rewrite bool_decide_eq_true.
  - intros Hasym. unfold queryHashes.
    assert (Total (not_after CompareTxMemPoolEntryByScore)) as Htotal.
    { intros a b. unfold not_after, DepthAndScoreComparator.
      destruct (CompareTxMemPoolEntryByScore b a) eqn:Hba; [right | by left].
      by apply Hasym. }
    apply (Sorted_fmap _
             (λ a b, CompareDepthAndScore CompareTxMemPoolEntryByScore
                       (GetHash (GetTx b)) (GetHash (GetTx a)) pool = false));
      [done|].
    eapply Sorted_weaken; [|by apply Sorted_merge_sort].
    intros a b Ha Hb Hab. unfold GetSortedDepthAndScore in Ha, Hb.
    rewrite merge_sort_Permutation in Ha, Hb. unfold mapTx_entries in Ha, Hb.
    apply list_elem_of_fmap in Ha as ([ha ea] & -> & Ha%elem_of_map_to_list).
    apply list_elem_of_fmap in Hb as ([hb eb] & -> & Hb%elem_of_map_to_list).
    simpl. unfold CompareDepthAndScore.
    rewrite (Hkeyed _ _ Ha), (Hkeyed _ _ Hb), Ha, Hb. exact Hab.
Qed.
End SortedListingProps.

Lemma queryHashes_lists_pool_witness :
  queryHashes (λ a b, Z.ltb (nFee b) (nFee a)) ex_pool_ab
  ≡ₚ (map_to_list (mapTx ex_pool_ab)).*1
  ∧ NoDup (queryHashes (λ a b, Z.ltb (nFee b) (nFee a)) ex_pool_ab)
  ∧ (∀ h, h ∈ queryHashes (λ a b, Z.ltb (nFee b) (nFee a)) ex_pool_ab
          ↔ exists_ h ex_pool_ab = true)
  ∧ ((∀ a b, Z.ltb (nFee b) (nFee a) = true → Z.ltb (nFee a) (nFee b) = false) →
     Sorted (λ ha hb,
               CompareDepthAndScore (λ a b, Z.ltb (nFee b) (nFee a)) hb ha ex_pool_ab
               = false)
            (queryHashes (λ a b, Z.ltb (nFee b) (nFee a)) ex_pool_ab)).
Proof.
  apply (queryHashes_lists_pool (λ a b, Z.ltb (nFee b) (nFee a)) ex_pool_ab).
  apply (idx_keyed _ (reachable_indexed _ _ _ ex_pool_ab_reachable)).
Defined.

(** ** Notification sequence numbers *)

Lemma remove_nRecentlyAddedSequence origTx removed fRecursive pool :
  nRecentlyAddedSequence (remove origTx removed fRecursive pool).1
  = nRecentlyAddedSequence pool.
Proof.
  by apply (remove_keeps (λ p, nRecentlyAddedSequence p = nRecentlyAddedSequence pool)).
Qed.

(** X28: on regtest, once the sequence number returned by
    [DrainRecentlyAdded] has been passed to [SetNotifiedSequence],
    [IsFullyNotified] answers true, still does after a [remove], and
    answers false after the next [addUnchecked]; on another network both
    functions fail their assertion. *)
Theorem notified_after_drain (NetworkIDString : string) (pool : CTxMemPool) :
  0 ≤ nRecentlyAddedSequence pool < 2 ^ 64 →
  let drained := DrainRecentlyAdded pool in
  (NetworkIDString = "regtest" →
   SetNotifiedSequence NetworkIDString drained.2.2 = Returns drained.2.2
   ∧ IsFullyNotified NetworkIDString drained.2.2 drained.1 = Returns true
   ∧ (∀ origTx removed fRecursive,
        IsFullyNotified NetworkIDString drained.2.2
          (remove origTx removed fRecursive drained.1).1 = Returns true)
   ∧ (∀ tx_weight hash entry fCurrentEstimate,
        IsFullyNotified NetworkIDString drained.2.2
          (addUnchecked tx_weight hash entry fCurrentEstimate drained.1).1
        = Returns false))
  ∧ (NetworkIDString ≠ "regtest" →
     ∀ n, SetNotifiedSequence NetworkIDString n = AssertFails
          ∧ IsFullyNotified NetworkIDString n pool = AssertFails).
Proof.
  intros Hrange drained. split.
  - intros ->. unfold SetNotifiedSequence, IsFullyNotified. simpl. split_and!.
    + done.
    + by rewrite bool_decide_eq_true_2.
    + intros origTx removed rec. rewrite remove_nRecentlyAddedSequence. simpl.
      by rewrite bool_decide_eq_true_2.
    + intros tx_weight hash entry flag. rewrite bool_decide_eq_false_2; [done|].
      unfold wrap_u64.
      destruct (decide (nRecentlyAddedSequence pool + 1 < 2 ^ 64)) as [Hlt|Hge].
      * rewrite Z.mod_small by lia. lia.
      * replace (nRecentlyAddedSequence pool + 1) with (2 ^ 64) by lia.
        rewrite Z.mod_same by lia. lia.
  - intros Hother n. unfold SetNotifiedSequence, IsFullyNotified.
    apply String.eqb_neq in Hother. by rewrite Hother.
Qed.

Lemma notified_after_drain_witness :
  let drained := DrainRecentlyAdded ex_pool_ab in
  ("regtest" = "regtest" →
   SetNotifiedSequence "regtest" drained.2.2 = Returns drained.2.2
   ∧ IsFullyNotified "regtest" drained.2.2 drained.1 = Returns true
   ∧ (∀ origTx removed fRecursive,
        IsFullyNotified "regtest" drained.2.2
          (remove origTx removed fRecursive drained.1).1 = Returns true)
   ∧ (∀ tx_weight hash entry fCurrentEstimate,
        IsFullyNotified "regtest" drained.2.2
          (addUnchecked tx_weight hash entry fCurrentEstimate drained.1).1
        = Returns false))
  ∧ ("regtest" ≠ "regtest" →
     ∀ n, SetNotifiedSequence "regtest" n = AssertFails
          ∧ IsFullyNotified "regtest" n ex_pool_ab = AssertFails).
Proof.
  apply (notified_after_drain "regtest" ex_pool_ab).
  vm_compute. split; [discriminate | reflexivity].
Defined.
